(** * Central free lists of the Go runtime allocator (src/pkg/runtime/mcentral.c)

    A shallow embedding of [mcentral.c] and a verification of its
    bookkeeping: span-list membership, the free-object counter, batched
    allocation and release, the fatal path of an invalid free and the return
    of fully freed spans to the page heap.

    The C code works on three kinds of mutable storage, all of which are part
    of the state below:
    - the [MCentral] structure [c] (size class, two span lists, [nfree]);
    - the [MSpan] structures, reached through pointers and owned by the page
      heap ([runtime·mheap]);
    - raw memory: the first word of every object, used as the [next] field of
      an [MLink].

    Pointers are integers, [nil] is [0].  [malloc.h] is not among the sources,
    so the widths of the fields of [MCentral] and [MSpan] are unknown; they
    are kept as unbounded integers ([ref], which is only ever compared with
    zero, incremented and decremented, is a natural number).  Locals that the
    C file declares [int32] wrap around. *)

From stdpp Require Import base gmap list strings.
From Stdlib Require Import ZArith Lia.

#[local] Set Warnings "-clear-no-such-hyp".
Open Scope Z_scope.

(** ** Data model *)

Record MSpan := mkMSpan {
  start : Z;        (* first page number of the span *)
  npages : Z;       (* number of pages *)
  freelist : Z;     (* head of the intrusive list of free objects *)
  ref : N;          (* number of allocated objects *)
  limit : Z;        (* end of the carved region *)
  spanclass : Z     (* size class the heap tagged the span with *)
}.

Record MCentral := mkMCentral {
  sizeclass : Z;
  nonempty : list Z;   (* spans with a free object, head first *)
  empty : list Z;      (* spans with no free object, head first *)
  nfree : Z
}.

Record MHeap := mkMHeap {
  allspans : gmap Z MSpan;   (* the MSpan structures, by address *)
  pagemap : gmap Z Z;        (* page number -> span *)
  arena_used : Z;            (* first page never handed out *)
  arena_end : Z;             (* end of the arena, in pages *)
  nspan : Z                  (* address of the next MSpan structure *)
}.

(** What the code does to its collaborators, newest event first.  The two
    lock events carry the pool and the span structures as they are when the
    lock changes hands: these are the states another thread can observe. *)
Inductive Event :=
  | EvLock (c : MCentral) (spans : gmap Z MSpan)
  | EvUnlock (c : MCentral) (spans : gmap Z MSpan)
  | EvHeapAlloc (np sc s : Z)
  | EvHeapFree (s : Z)
  | EvMarkspan (v size n : Z) (leftover : bool)
  | EvUnmarkspan (v len : Z).

Record State := mkState {
  mem : gmap Z Z;
  mheap : MHeap;
  central : MCentral;
  trace : list Event
}.

Definition set_mem (f : gmap Z Z → gmap Z Z) (st : State) : State :=
  mkState (f (mem st)) (mheap st) (central st) (trace st).
Definition set_mheap (f : MHeap → MHeap) (st : State) : State :=
  mkState (mem st) (f (mheap st)) (central st) (trace st).
Definition set_central (f : MCentral → MCentral) (st : State) : State :=
  mkState (mem st) (mheap st) (f (central st)) (trace st).
Definition log (e : Event) (st : State) : State :=
  mkState (mem st) (mheap st) (central st) (e :: trace st).

Definition set_allspans (f : gmap Z MSpan → gmap Z MSpan) (h : MHeap) : MHeap :=
  mkMHeap (f (allspans h)) (pagemap h) (arena_used h) (arena_end h) (nspan h).

Definition set_freelist (w : Z) (sp : MSpan) : MSpan :=
  mkMSpan (start sp) (npages sp) w (ref sp) (limit sp) (spanclass sp).
Definition set_ref (r : N) (sp : MSpan) : MSpan :=
  mkMSpan (start sp) (npages sp) (freelist sp) r (limit sp) (spanclass sp).
Definition set_limit (w : Z) (sp : MSpan) : MSpan :=
  mkMSpan (start sp) (npages sp) (freelist sp) (ref sp) w (spanclass sp).

Definition set_nonempty (l : list Z) (c : MCentral) : MCentral :=
  mkMCentral (sizeclass c) l (empty c) (nfree c).
Definition set_empty (l : list Z) (c : MCentral) : MCentral :=
  mkMCentral (sizeclass c) (nonempty c) l (nfree c).
Definition set_nfree (k : Z) (c : MCentral) : MCentral :=
  mkMCentral (sizeclass c) (nonempty c) (empty c) k.
Definition set_sizeclass (k : Z) (c : MCentral) : MCentral :=
  mkMCentral k (nonempty c) (empty c) (nfree c).

(** ** Outcomes and the state monad of the embedding *)

Inductive Result (A : Type) :=
  | Ok (a : A) (st : State)             (* the call returns *)
  | Throw (msg : string) (st : State)   (* runtime·throw: the process aborts *)
  | Fault                               (* nil or wild dereference, division trap *)
  | OutOfFuel.                          (* the model's loop bound was too small *)
Arguments Ok {A} a st.
Arguments Throw {A} msg st.
Arguments Fault {A}.
Arguments OutOfFuel {A}.

Definition M (A : Type) : Type := State → Result A.

Global Instance M_ret : MRet M := λ A a st, Ok a st.
Global Instance M_bind : MBind M := λ A B f m st,
  match m st with
  | Ok a st' => f a st'
  | Throw msg st' => Throw msg st'
  | Fault => Fault
  | OutOfFuel => OutOfFuel
  end.

Definition gets {A} (f : State → A) : M A := λ st, Ok (f st) st.
Definition modify (f : State → State) : M unit := λ st, Ok tt (f st).
Definition fault {A} : M A := λ _, Fault.
Definition out_of_fuel {A} : M A := λ _, OutOfFuel.
Definition throw {A} (msg : string) : M A := λ st, Throw msg st.

(** [v->next] read and written: the first word of the object at [v]. *)
Definition load (v : Z) : M Z := λ st,
  if v =? 0 then Fault
  else match mem st !! v with
       | Some w => Ok w st
       | None => Fault
       end.

Definition store (v w : Z) : M unit := λ st,
  if v =? 0 then Fault else Ok tt (set_mem (insert v w) st).

(** [s->field] read and written through a span pointer. *)
Definition span_get (s : Z) : M MSpan := λ st,
  match allspans (mheap st) !! s with
  | Some sp => Ok sp st
  | None => Fault
  end.

Definition span_upd (s : Z) (f : MSpan → MSpan) : M unit := λ st,
  match allspans (mheap st) !! s with
  | Some sp => Ok tt (set_mheap (set_allspans (insert s (f sp))) st)
  | None => Fault
  end.

(** ** Locking *)

(** Modelled from the spec: [runtime·lock] is not among the sources.  One
    thread runs; taking the pool lock records the state of the pool that
    others could see until that moment. *)
Definition runtime_lock : M unit :=
  modify (λ st, log (EvLock (central st) (allspans (mheap st))) st).

(** Modelled from the spec: [runtime·unlock] is not among the sources.
    Releasing the pool lock records the state that becomes visible to
    others. *)
Definition runtime_unlock : M unit :=
  modify (λ st, log (EvUnlock (central st) (allspans (mheap st))) st).

(** ** Span lists *)

(** Modelled from the spec: the span lists of mheap.c, which is not among
    the sources.  A span list is an ordered collection of spans; a pool has
    the two lists named here. *)
Inductive ListId := Nonempty | Empty.

(** Modelled from the spec: [runtime·MSpanList_IsEmpty] of mheap.c. *)
Definition MSpanList_IsEmpty (l : list Z) : bool :=
  match l with [] => true | _ => false end.

(** Modelled from the spec: the first span of a list, [c->nonempty.next] in
    the source, nil when the list is empty. *)
Definition MSpanList_first (l : list Z) : Z := hd 0 l.

Definition list_remove (s : Z) (l : list Z) : list Z :=
  filter (λ x, x ≠ s) l.

(** Modelled from the spec: [runtime·MSpanList_Remove] of mheap.c takes a
    span out of whichever list holds it. *)
Definition MSpanList_Remove (s : Z) : M unit :=
  modify (set_central (λ c,
    mkMCentral (sizeclass c) (list_remove s (nonempty c))
               (list_remove s (empty c)) (nfree c))).

(** Modelled from the spec: [runtime·MSpanList_Insert] of mheap.c puts a
    span at the front of a list. *)
Definition MSpanList_Insert (l : ListId) (s : Z) : M unit :=
  modify (set_central (λ c,
    match l with
    | Nonempty => set_nonempty (s :: nonempty c) c
    | Empty => set_empty (s :: empty c) c
    end)).

(** ** The page heap

    The heap hands out runs of pages from an arena, each with a span
    structure of its own, and keeps a map from pages to spans. *)
Definition map_pages (s : Z) (first n : Z) (m : gmap Z Z) : gmap Z Z :=
  foldr (λ p acc, <[p := s]> acc) m (seqZ first n).

Definition unmap_pages (first n : Z) (m : gmap Z Z) : gmap Z Z :=
  foldr (λ p acc, delete p acc) m (seqZ first n).

Definition heap_can_grant (h : MHeap) (np : Z) : bool :=
  (0 <? np) && (arena_used h + np <=? arena_end h) && negb (nspan h =? 0).

(** Modelled from the spec: [runtime·MHeap_Alloc] of mheap.c, which is not
    among the sources.  AllocateSpan grants a fresh span of the requested
    page count, tagged with the size class, or signals exhaustion by nil. *)
Definition MHeap_Alloc (np sc : Z) : M Z := λ st,
  let h := mheap st in
  if heap_can_grant h np then
    let s := nspan h in
    let sp := mkMSpan (arena_used h) np 0 0%N 0 sc in
    let h' := mkMHeap (<[s := sp]> (allspans h))
                      (map_pages s (arena_used h) np (pagemap h))
                      (arena_used h + np) (arena_end h) (s + 1) in
    Ok s (log (EvHeapAlloc np sc s) (set_mheap (λ _, h') st))
  else Ok 0 (log (EvHeapAlloc np sc 0) st).

(** Modelled from the spec: [runtime·MHeap_Free] of mheap.c, which is not
    among the sources.  ReleaseSpan takes the pages of a span back. *)
Definition MHeap_Free (s : Z) : M unit := λ st,
  let h := mheap st in
  match allspans h !! s with
  | None => Fault
  | Some sp =>
      let h' := mkMHeap (allspans h)
                        (unmap_pages (start sp) (npages sp) (pagemap h))
                        (arena_used h) (arena_end h) (nspan h) in
      Ok tt (log (EvHeapFree s) (set_mheap (λ _, h') st))
  end.

(** Modelled from the spec: [runtime·markspan] belongs to the collector,
    which is not among the sources; it is a side effect only. *)
Definition runtime_markspan (v size n : Z) (leftover : bool) : M unit :=
  modify (log (EvMarkspan v size n leftover)).

(** Modelled from the spec: [runtime·unmarkspan] belongs to the collector,
    which is not among the sources; it is a side effect only. *)
Definition runtime_unmarkspan (v len : Z) : M unit :=
  modify (log (EvUnmarkspan v len)).

(** [int32] arithmetic: the value an [int32] variable holds after being
    assigned [z]. *)
Definition int32 (z : Z) : Z := (z + 2 ^ 31) mod 2 ^ 32 - 2 ^ 31.

(** The state in which a run ends, [d] when it ends in none. *)
Definition state_of {A} (r : Result A) (d : State) : State :=
  match r with
  | Ok _ st | Throw _ st => st
  | Fault | OutOfFuel => d
  end.

Section Central.

(** The size-class tables and the page size are declared in malloc.h and
    msize.c, which are not among the sources. *)
Variable PageShift : Z.
Variable class_to_size : Z → Z.
Variable class_to_allocnpages : Z → Z.

(** Modelled from the spec: [runtime·MHeap_Lookup] of mheap.c, which is not
    among the sources.  LookupSpan maps an address to the span that owns its
    page, or to nil. *)
Definition MHeap_Lookup (v : Z) : M Z :=
  gets (λ st, default 0 (pagemap (mheap st) !! Z.shiftr v PageShift)).

(** [runtime·MCentral_Init] *)
Definition MCentral_Init (sc : Z) : M unit :=
  modify (set_central (set_sizeclass sc));;
  modify (set_central (set_nonempty []));;
  modify (set_central (set_empty [])).

(** [runtime·MGetSizeClassInfo]: [(size, npages, nobj)].  It reads the two
    tables and nothing else; [None] is the division trap. *)
Definition MGetSizeClassInfo (sc : Z) : option (Z * Z * Z) :=
  let npages := int32 (class_to_allocnpages sc) in
  let size := int32 (class_to_size sc) in
  if size =? 0 then None
  else Some (size, npages, int32 (Z.quot (int32 (Z.shiftl npages PageShift)) size)).

(** The lvalue [*tailp] of the carving loop: [&s->freelist] or [&v->next]. *)
Inductive tailptr := TailSpan (s : Z) | TailLink (v : Z).

Definition store_tail (t : tailptr) (w : Z) : M unit :=
  match t with
  | TailSpan s => span_upd s (set_freelist w)
  | TailLink v => store v w
  end.

(** The loop [for(i=0; i<n; i++)] of [MCentral_Grow], [k] iterations left. *)
Fixpoint carve (k : nat) (size p : Z) (tailp : tailptr) : M tailptr :=
  match k with
  | O => mret tailp
  | S k' =>
      store_tail tailp p;;
      carve k' size (p + size) (TailLink p)
  end.

(** [MCentral_Grow] *)
Definition MCentral_Grow : M bool :=
  runtime_unlock;;
  c ← gets central;
  match MGetSizeClassInfo (sizeclass c) with
  | None => fault
  | Some (size, np, n) =>
      s ← MHeap_Alloc np (sizeclass c);
      if s =? 0 then
        runtime_lock;;
        mret false
      else
        sp ← span_get s;
        let p := Z.shiftl (start sp) PageShift in
        span_upd s (set_limit (p + size * n));;
        tailp ← carve (Z.to_nat n) size p (TailSpan s);
        store_tail tailp 0;;
        runtime_markspan p size n (size * n <? Z.shiftl (npages sp) PageShift);;
        runtime_lock;;
        modify (set_central (λ c, set_nfree (nfree c + n) c));;
        MSpanList_Insert Nonempty s;;
        mret true
  end.

(** [MCentral_Alloc] *)
Definition MCentral_Alloc : M Z :=
  c ← gets central;
  if MSpanList_IsEmpty (nonempty c) then mret 0
  else
    let s := MSpanList_first (nonempty c) in
    span_upd s (λ sp, set_ref (ref sp + 1)%N sp);;
    sp ← span_get s;
    let v := freelist sp in
    next ← load v;
    span_upd s (set_freelist next);;
    (if next =? 0 then
       MSpanList_Remove s;;
       MSpanList_Insert Empty s
     else mret tt);;
    mret v.

(** The loop [for(i=1; i<n && (v = MCentral_Alloc(c)) != nil; i++)] of
    [MCentral_AllocList]; [k] is the number of times the test [i<n] can
    still succeed. *)
Fixpoint AllocList_loop (k : nat) (i last : Z) : M (Z * Z) :=
  match k with
  | O => mret (i, last)
  | S k' =>
      v ← MCentral_Alloc;
      if v =? 0 then mret (i, last)
      else
        store last v;;
        AllocList_loop k' (i + 1) v
  end.

(** [runtime·MCentral_AllocList]: the returned count and [*pfirst]. *)
Definition MCentral_AllocList (n : Z) : M (Z * Z) :=
  runtime_lock;;
  c ← gets central;
  grown ← (if MSpanList_IsEmpty (nonempty c) then MCentral_Grow else mret true);
  if negb grown then
    runtime_unlock;;
    mret (0, 0)
  else
    first ← MCentral_Alloc;
    r ← AllocList_loop (Z.to_nat (n - 1)) 1 first;
    store (snd r) 0;;
    modify (set_central (λ c, set_nfree (nfree c - fst r) c));;
    runtime_unlock;;
    mret (fst r, first).

(** [MCentral_Free] *)
Definition MCentral_Free (v : Z) : M unit :=
  s ← MHeap_Lookup v;
  bad ← (if s =? 0 then mret true
         else sp ← span_get s; mret (ref sp =? 0)%N);
  if bad : bool then throw "invalid free"
  else
    sp ← span_get s;
    (if freelist sp =? 0 then
       MSpanList_Remove s;;
       MSpanList_Insert Nonempty s
     else mret tt);;
    store v (freelist sp);;
    span_upd s (set_freelist v);;
    modify (set_central (λ c, set_nfree (nfree c + 1) c));;
    span_upd s (λ sp, set_ref (ref sp - 1)%N sp);;
    sp ← span_get s;
    if (ref sp =? 0)%N then
      c ← gets central;
      let size := int32 (class_to_size (sizeclass c)) in
      MSpanList_Remove s;;
      runtime_unmarkspan (Z.shiftl (start sp) PageShift)
                         (Z.shiftl (npages sp) PageShift);;
      store (Z.shiftl (start sp) PageShift) 1;;
      span_upd s (set_freelist 0);;
      (if size =? 0 then fault
       else modify (set_central (λ c,
              set_nfree (nfree c - Z.quot (Z.shiftl (npages sp) PageShift) size) c)));;
      runtime_unlock;;
      MHeap_Free s;;
      runtime_lock
    else mret tt.

(** The loop [for(v=start; v; v=next)] of [MCentral_FreeList]. *)
Fixpoint FreeList_loop (fuel : nat) (v : Z) : M unit :=
  if v =? 0 then mret tt
  else match fuel with
       | O => out_of_fuel
       | S fuel' =>
           next ← load v;
           MCentral_Free v;;
           FreeList_loop fuel' next
       end.

(** Every pass of the loop that does not abort takes one from the [ref] of
    some span, so the sum of all [ref]s bounds the number of passes. *)
Definition total_ref (h : MHeap) : nat :=
  map_fold (λ _ sp acc, (N.to_nat (ref sp) + acc)%nat) 0%nat (allspans h).

(** [runtime·MCentral_FreeList] *)
Definition MCentral_FreeList (n : Z) (start : Z) : M unit :=
  runtime_lock;;
  h ← gets mheap;
  FreeList_loop (S (total_ref h)) start;;
  runtime_unlock.

(** * Specification vocabulary *)

(** [chain m p l]: following the [next] words in memory [m] from [p] visits
    exactly the objects [l] and then reaches nil. *)
Fixpoint chain (m : gmap Z Z) (p : Z) (l : list Z) : Prop :=
  match l with
  | [] => p = 0
  | a :: l' => p = a ∧ a ≠ 0 ∧ ∃ q, m !! a = Some q ∧ chain m q l'
  end.

(** The same walk as a function; [None] when a link is missing or the walk
    is longer than [fuel]. *)
Fixpoint walk (fuel : nat) (m : gmap Z Z) (p : Z) : option (list Z) :=
  match fuel with
  | O => None
  | S fuel' =>
      if p =? 0 then Some []
      else match m !! p with
           | Some q => cons p <$> walk fuel' m q
           | None => None
           end
  end.

(** The free list of span [s]: a nil-terminated walk visits no object twice,
    so one more step than there are words in memory finds every one. *)
Definition free_objects (st : State) (s : Z) : option (list Z) :=
  sp ← allspans (mheap st) !! s;
  walk (S (size (mem st))) (mem st) (freelist sp).

Definition flist (st : State) (s : Z) : list Z :=
  default [] (free_objects st s).

(** The spans the pool owns, and the number of free objects in them. *)
Definition owned (c : MCentral) : list Z := nonempty c ++ empty c.

Definition count_free (st : State) : option Z :=
  ls ← mapM (free_objects st) (owned (central st));
  Some (Z.of_nat (sum_list_with length ls)).

Definition sum_free (st : State) : Z :=
  Z.of_nat (sum_list_with (λ s, length (flist st s)) (owned (central st))).

(** The free objects in the order in which allocation hands them out. *)
Definition avail (st : State) : list Z :=
  concat (flist st <$> nonempty (central st)).

(** What another thread may see when the lock changes hands. *)
Definition membership (c : MCentral) (spans : gmap Z MSpan) : Prop :=
  ∀ s, s ∈ owned c →
    ∃ sp, spans !! s = Some sp ∧
          (s ∈ nonempty c ↔ freelist sp ≠ 0) ∧
          (s ∈ empty c ↔ freelist sp = 0 ∧ ref sp ≠ 0%N).

Definition event_ok (e : Event) : Prop :=
  match e with
  | EvLock c spans | EvUnlock c spans => membership c spans
  | _ => True
  end.

Definition heap_requests (t : list Event) : list Z :=
  omap (λ e, match e with EvHeapAlloc _ _ s => Some s | _ => None end) t.

Definition released (t : list Event) : list Z :=
  omap (λ e, match e with EvHeapFree s => Some s | _ => None end) t.

(** The span the heap finds for an address, and the address of the first
    byte of a span. *)
Definition lookup_span (st : State) (v : Z) : Z :=
  default 0 (pagemap (mheap st) !! Z.shiftr v PageShift).

Definition span_base (sp : MSpan) : Z := Z.shiftl (start sp) PageShift.

(** The addresses of [k] consecutive slots of [size] bytes from [p] on, as
    the carving loop of [MCentral_Grow] visits them. *)
Fixpoint slot_addrs (k : nat) (size p : Z) : list Z :=
  match k with
  | O => []
  | S k' => p :: slot_addrs k' size (p + size)
  end.

(** Memory after the links [q -> l0 -> l1 -> ...] have been written. *)
Fixpoint link_mem (l : list Z) (q : Z) (m : gmap Z Z) : gmap Z Z :=
  match l with
  | [] => m
  | a :: l' => link_mem l' a (<[q := a]> m)
  end.

(** Memory after a span has been carved into the slots [l]. *)
Definition carve_mem (l : list Z) (m : gmap Z Z) : gmap Z Z :=
  match l with
  | [] => m
  | a :: l' => <[List.last l' a := 0]> (link_mem l' a m)
  end.

(** The number of objects a span of size class [sc] is carved into, and
    their addresses. *)
Definition class_nobj (sc : Z) : Z :=
  Z.quot (Z.shiftl (class_to_allocnpages sc) PageShift) (class_to_size sc).

Definition span_slots (sc : Z) (sp : MSpan) : list Z :=
  slot_addrs (Z.to_nat (class_nobj sc)) (class_to_size sc) (span_base sp).

(** A size class whose configuration makes sense: objects have a size, a
    span has pages, at least one object fits and the span's byte count is an
    [int32]. *)
Record geometry_ok (sc : Z) : Prop := {
  geo_shift : 0 ≤ PageShift;
  geo_size : 0 < class_to_size sc;
  geo_npages : 0 < class_to_allocnpages sc;
  geo_fit : class_to_size sc ≤ Z.shiftl (class_to_allocnpages sc) PageShift;
  geo_int32 : Z.shiftl (class_to_allocnpages sc) PageShift < 2 ^ 31
}.

(** A span in the pool's hands: it is where the heap put it, its free list
    is a nil-terminated chain of its own slots, and the slots not on the
    free list are counted by [ref]. *)
Record span_ok (st : State) (s : Z) (sp : MSpan) : Prop := {
  so_lookup : allspans (mheap st) !! s = Some sp;
  so_ptr : 0 < s < nspan (mheap st);
  so_npages : npages sp = class_to_allocnpages (sizeclass (central st));
  so_start : 0 < start sp;
  so_arena : start sp + npages sp ≤ arena_used (mheap st);
  so_map : ∀ p, start sp ≤ p < start sp + npages sp →
                pagemap (mheap st) !! p = Some s;
  so_chain : chain (mem st) (freelist sp) (flist st s);
  so_slots : flist st s ⊆ span_slots (sizeclass (central st)) sp;
  so_count : Z.of_nat (length (flist st s)) + Z.of_N (ref sp) =
             class_nobj (sizeclass (central st))
}.

(** The pool invariant, without the counter. *)
Record Inv (st : State) : Prop := {
  inv_geo : geometry_ok (sizeclass (central st));
  inv_nspan : 0 < nspan (mheap st);
  inv_arena : 0 < arena_used (mheap st);
  inv_nodup : NoDup (owned (central st));
  inv_span : ∀ s, s ∈ owned (central st) →
                  ∃ sp, span_ok st s sp;
  inv_nonempty : ∀ s, s ∈ nonempty (central st) → flist st s ≠ [];
  inv_empty : ∀ s, s ∈ empty (central st) → flist st s = []
}.

(** The counter is right. *)
Definition counted (st : State) : Prop :=
  nfree (central st) = sum_free st.

(** No owned span is without an allocated object. *)
Definition settled (st : State) : Prop :=
  ∀ s sp, s ∈ owned (central st) →
          allspans (mheap st) !! s = Some sp → ref sp ≠ 0%N.

(** An allocated object: a slot of an owned span that is not on the span's
    free list. *)
Definition live (st : State) (v : Z) : Prop :=
  ∃ s sp, s ∈ owned (central st) ∧ allspans (mheap st) !! s = Some sp ∧
          v ∈ span_slots (sizeclass (central st)) sp ∧ v ∉ flist st s.

(** What no operation of the pool changes: the size class, where a span
    lies, and which span an already handed-out page belongs to (pages can
    only be given back). *)
Record stable (st st' : State) : Prop := {
  st_sizeclass : sizeclass (central st') = sizeclass (central st);
  st_nspan : nspan (mheap st) ≤ nspan (mheap st');
  st_arena : arena_used (mheap st) ≤ arena_used (mheap st');
  st_spans : ∀ s sp, s < nspan (mheap st) →
               allspans (mheap st) !! s = Some sp →
               ∃ sp', allspans (mheap st') !! s = Some sp' ∧
                      start sp' = start sp ∧ npages sp' = npages sp;
  st_pagemap : ∀ p x, p < arena_used (mheap st) →
                 pagemap (mheap st') !! p = Some x →
                 pagemap (mheap st) !! p = Some x
}.

(** An address that is on no free list of the pool. *)
Definition not_free (st : State) (a : Z) : Prop :=
  ∀ s, s ∈ owned (central st) → a ∉ flist st s.

(** Two states with the same memory, heap and span lists: they may differ
    in the counter and in the trace. *)
Record same_pool (st st' : State) : Prop := {
  sp_mem : mem st' = mem st;
  sp_mheap : mheap st' = mheap st;
  sp_sizeclass : sizeclass (central st') = sizeclass (central st);
  sp_nonempty : nonempty (central st') = nonempty (central st);
  sp_empty : empty (central st') = empty (central st)
}.

(** What freeing the allocated object [v] does to a pool. *)
Record free_post (st st' : State) (v : Z) : Prop := {
  fp_Inv : Inv st';
  fp_counter : nfree (central st') - sum_free st' =
               nfree (central st) - sum_free st;
  fp_live : ∀ x, live st' x ↔ live st x ∧ x ≠ v;
  fp_settled : settled st → settled st';
  fp_stable : stable st st';
  fp_mem : ∀ a, live st' a → mem st' !! a = mem st !! a
}.

(** Freeing the objects of a list one at a time, in order. *)
Fixpoint free_all (l : list Z) : M unit :=
  match l with
  | [] => mret tt
  | v :: l' => MCentral_Free v;; free_all l'
  end.

(** What freeing the allocated objects [l] does to a pool. *)
Record free_list_post (st st' : State) (l : list Z) : Prop := {
  flp_Inv : Inv st';
  flp_counter : nfree (central st') - sum_free st' =
                nfree (central st) - sum_free st;
  flp_live : ∀ x, live st' x ↔ live st x ∧ x ∉ l;
  flp_settled : settled st → settled st';
  flp_stable : stable st st'
}.

(** [lseg m p l q]: the links in [m] lead from [p] through the objects [l],
    the last of which is [q] ([p] itself when [l] is empty); the link of [q]
    is not looked at. *)
Fixpoint lseg (m : gmap Z Z) (p : Z) (l : list Z) (q : Z) : Prop :=
  match l with
  | [] => p = q
  | a :: l' => p ≠ 0 ∧ m !! p = Some a ∧ lseg m a l' q
  end.

(** What taking the objects [popped] off the free lists does to a pool. *)
Record alloc_post (st st' : State) (popped : list Z) : Prop := {
  ap_Inv : Inv st';
  ap_avail : avail st = popped ++ avail st';
  ap_sum : sum_free st' = sum_free st - Z.of_nat (length popped);
  ap_nfree : nfree (central st') = nfree (central st);
  ap_live : ∀ x, live st' x ↔ live st x ∨ x ∈ popped;
  ap_fresh : ∀ x, x ∈ popped → ¬ live st x;
  ap_settled : settled st → settled st';
  ap_stable : stable st st';
  ap_trace : trace st' = trace st;
  ap_pagemap : pagemap (mheap st') = pagemap (mheap st);
  ap_arena_used : arena_used (mheap st') = arena_used (mheap st);
  ap_arena_end : arena_end (mheap st') = arena_end (mheap st);
  ap_nspan : nspan (mheap st') = nspan (mheap st)
}.

(** [MCentral_AllocList] from its first [MCentral_Alloc] on. *)
Definition AllocList_body (n : Z) : M (Z * Z) :=
  first ← MCentral_Alloc;
  r ← AllocList_loop (Z.to_nat (n - 1)) 1 first;
  store (snd r) 0;;
  modify (set_central (λ c, set_nfree (nfree c - fst r) c));;
  runtime_unlock;;
  mret (fst r, first).

(** What a batch allocation that hands out [popped] does to a pool. *)
Record alloc_list_post (st st' : State) (popped : list Z) : Prop := {
  alp_Inv : Inv st';
  alp_counter : nfree (central st') - sum_free st' =
                nfree (central st) - sum_free st;
  alp_live : ∀ x, live st' x ↔ live st x ∨ x ∈ popped;
  alp_fresh : ∀ x, x ∈ popped → ¬ live st x;
  alp_settled : settled st → settled st';
  alp_stable : stable st st'
}.

(** The out-of-memory condition of [MCentral_AllocList]: no span with a
    free object, and a heap that cannot grant the span a Grow asks for. *)
Definition out_of_memory (st : State) : Prop :=
  nonempty (central st) = [] ∧
  ∃ size np n,
    MGetSizeClassInfo (sizeclass (central st)) = Some (size, np, n) ∧
    heap_can_grant (mheap st) np = false.

(** The state in which [MCentral_AllocList] reports it. *)
Definition oom_state (np : Z) (st : State) : State :=
  let c := central st in
  let spans := allspans (mheap st) in
  mkState (mem st) (mheap st) c
    (EvUnlock c spans :: EvLock c spans :: EvHeapAlloc np (sizeclass c) 0 ::
     EvUnlock c spans :: EvLock c spans :: trace st).

(** Modelled from the spec: the heap as it is created at process start,
    before any pool is used; nothing has been handed out yet. *)
Definition heap_init (first_page end_page : Z) : MHeap :=
  mkMHeap ∅ ∅ first_page end_page 1.

(** The configuration and the pool of the scenarios: pages of 8192 bytes,
    objects of 16 bytes, spans of one page, and zeroed storage for the pool
    of size class 0 beside a heap of 999 pages. *)
Definition scenario_PageShift : Z := 13.
Definition scenario_size (sc : Z) : Z := 16.
Definition scenario_npages (sc : Z) : Z := 1.
Definition fresh_pool : State :=
  mkState ∅ (heap_init 1 1000) (mkMCentral 0 [] [] 0) [].

(** The states a pool can be in: after [MCentral_Init] on zeroed storage,
    and from then on after any batch allocation, any batch free of a chain
    of distinct allocated objects, any Grow, and any write of the user to an
    allocated object. *)
Inductive reachable : State → Prop :=
  | reach_init m h c t sc st :
      0 < nspan h → 0 < arena_used h → nfree c = 0 →
      geometry_ok sc →
      MCentral_Init sc (mkState m h c t) = Ok tt st →
      reachable st
  | reach_alloc st n r st' :
      reachable st → MCentral_AllocList n st = Ok r st' → reachable st'
  | reach_free st n first l st' :
      reachable st →
      chain (mem st) first l → (∀ x, x ∈ l → live st x) →
      MCentral_FreeList n first st = Ok tt st' →
      reachable st'
  | reach_grow st b st' :
      reachable st → MCentral_Grow st = Ok b st' → reachable st'
  | reach_store st a w :
      reachable st → live st a → reachable (set_mem (insert a w) st).

(** The objects a batch allocation can hand out, in the order in which it
    does: the free lists of the nonempty spans, or, when there is none, the
    slots of the span a Grow carves. *)
Definition obtainable (st : State) : list Z :=
  match nonempty (central st) with
  | [] =>
      let sc := sizeclass (central st) in
      slot_addrs (Z.to_nat (class_nobj sc)) (class_to_size sc)
                 (Z.shiftl (arena_used (mheap st)) PageShift)
  | _ :: _ => avail st
  end.

(** The requests for a span that a call adds to the trace. *)
Definition grow_requests (st : State) : list Z :=
  match nonempty (central st) with
  | [] => [nspan (mheap st)]
  | _ :: _ => []
  end.

(** Every span structure has at least one page. *)
Definition spans_have_pages (st : State) : Prop :=
  ∀ s sp, allspans (mheap st) !! s = Some sp → 0 < npages sp.

(** [chain_until_dead st q l]: the links lead from [q] through [l] to nil,
    except that behind an object whose page belongs to no span, which a free
    cannot get past, the list is arbitrary. *)
Fixpoint chain_until_dead (st : State) (q : Z) (l : list Z) : Prop :=
  match l with
  | [] => q = 0
  | a :: l' =>
      q = a ∧ a ≠ 0 ∧
      ∃ w, mem st !! a = Some w ∧
           (lookup_span st a = 0 ∨ chain_until_dead st w l')
  end.

(** What holds of a pool whatever it is asked to do, also when it is given
    objects to free that it never handed out: list membership follows the
    free-list heads, now and whenever the lock changed hands; a span given
    back to the heap is on no page of the page map, and no span was given
    back twice. *)
Record weak_inv (st : State) : Prop := {
  wi_membership : membership (central st) (allspans (mheap st));
  wi_nodup : NoDup (owned (central st));
  wi_owned_fresh : ∀ s, s ∈ owned (central st) → s < nspan (mheap st);
  wi_arena : 0 < arena_used (mheap st);
  wi_events : Forall event_ok (trace st);
  wi_released : NoDup (released (trace st));
  wi_released_unmapped :
    ∀ s p, s ∈ released (trace st) → pagemap (mheap st) !! p ≠ Some s;
  wi_released_fresh : ∀ s, s ∈ released (trace st) → s < nspan (mheap st);
  wi_pagemap :
    ∀ p s, pagemap (mheap st) !! p = Some s →
      s < nspan (mheap st) ∧
      ∃ sp, allspans (mheap st) !! s = Some sp ∧
            start sp ≤ p < start sp + npages sp
}.

(** ** The helpers, executed

    [MCentral_Free] on an object whose span [s] is found with [ref] not zero:
    the state after the push ([free_push]) and the state after a push that
    empties the span of allocated objects ([free_release]). *)

Definition pushed_span (sp : MSpan) (v : Z) : MSpan :=
  mkMSpan (start sp) (npages sp) v (ref sp - 1)%N (limit sp) (spanclass sp).

Definition free_push (s : Z) (sp : MSpan) (v : Z) (st : State) : State :=
  let c := central st in
  mkState
    (<[v := freelist sp]> (mem st))
    (set_allspans (insert s (pushed_span sp v)) (mheap st))
    (if freelist sp =? 0
     then mkMCentral (sizeclass c) (s :: list_remove s (nonempty c))
                     (list_remove s (empty c)) (nfree c + 1)
     else set_nfree (nfree c + 1) c)
    (trace st).

(** The return of span [s], whose structure is [sp], to the heap. *)
Definition release_span (s : Z) (sp : MSpan) (st : State) : State :=
  let c := central st in
  let size := int32 (class_to_size (sizeclass c)) in
  let c' := mkMCentral (sizeclass c) (list_remove s (nonempty c))
              (list_remove s (empty c))
              (nfree c - Z.quot (Z.shiftl (npages sp) PageShift) size) in
  let spans' := <[s := set_freelist 0 sp]> (allspans (mheap st)) in
  mkState
    (<[span_base sp := 1]> (mem st))
    (mkMHeap spans'
       (unmap_pages (start sp) (npages sp) (pagemap (mheap st)))
       (arena_used (mheap st)) (arena_end (mheap st)) (nspan (mheap st)))
    c'
    (EvLock c' spans' :: EvHeapFree s :: EvUnlock c' spans' ::
     EvUnmarkspan (span_base sp) (Z.shiftl (npages sp) PageShift) ::
     trace st).

Definition free_release (s : Z) (sp : MSpan) (v : Z) (st : State) : State :=
  release_span s (pushed_span sp v) (free_push s sp v st).

(** [MCentral_Alloc] on a pool whose first nonempty span is [s]: the state
    after the pop. *)
Definition alloc_pop (s : Z) (sp : MSpan) (next : Z) (st : State) : State :=
  let c := central st in
  mkState
    (mem st)
    (set_allspans
       (insert s (mkMSpan (start sp) (npages sp) next (ref sp + 1)%N (limit sp)
                          (spanclass sp)))
       (mheap st))
    (if next =? 0
     then mkMCentral (sizeclass c) (list_remove s (nonempty c))
                     (s :: list_remove s (empty c)) (nfree c)
     else c)
    (trace st).

(** [MCentral_Grow]: the state after a failed and after a successful
    request to the heap. *)
Definition grow_fail (np : Z) (st : State) : State :=
  let c := central st in
  let spans := allspans (mheap st) in
  mkState (mem st) (mheap st) c
    (EvLock c spans :: EvHeapAlloc np (sizeclass c) 0 :: EvUnlock c spans ::
     trace st).

Definition grow_span (size np n : Z) (st : State) : MSpan :=
  let p := Z.shiftl (arena_used (mheap st)) PageShift in
  mkMSpan (arena_used (mheap st)) np
          (hd 0 (slot_addrs (Z.to_nat n) size p)) 0%N (p + size * n)
          (sizeclass (central st)).

Definition grow_ok (size np n : Z) (st : State) : State :=
  let c := central st in
  let h := mheap st in
  let s := nspan h in
  let p := Z.shiftl (arena_used h) PageShift in
  let spans' := <[s := grow_span size np n st]> (allspans h) in
  mkState
    (carve_mem (slot_addrs (Z.to_nat n) size p) (mem st))
    (mkMHeap spans' (map_pages s (arena_used h) np (pagemap h))
             (arena_used h + np) (arena_end h) (s + 1))
    (mkMCentral (sizeclass c) (s :: nonempty c) (empty c) (nfree c + n))
    (EvLock c spans' ::
     EvMarkspan p size n (size * n <? Z.shiftl np PageShift) ::
     EvHeapAlloc np (sizeclass c) s :: EvUnlock c (allspans h) :: trace st).

(** Whether the pool lock is held after the events [t] (newest first) when
    it was free before them; [None] when the events break the locking
    discipline: the lock taken while held, released while free, or held
    during a call into the page heap. *)
Fixpoint lock_held (t : list Event) : option bool :=
  match t with
  | [] => Some false
  | e :: t' =>
      match lock_held t', e with
      | Some false, EvLock _ _ => Some true
      | Some true, EvUnlock _ _ => Some false
      | Some false, (EvHeapAlloc _ _ _ | EvHeapFree _) => Some false
      | Some b, (EvMarkspan _ _ _ _ | EvUnmarkspan _ _) => Some b
      | _, _ => None
      end
  end.

(** * Verification *)

(** Unfolding of the monad and of the record updates down to the state. *)
Ltac munfold :=
  cbv beta iota delta
    [mbind M_bind mret M_ret gets modify fault throw out_of_fuel load store
     span_get span_upd runtime_lock runtime_unlock MSpanList_Remove
     MSpanList_Insert MHeap_Lookup MHeap_Alloc MHeap_Free runtime_markspan
     runtime_unmarkspan store_tail set_mem set_mheap set_central log
     set_allspans set_freelist set_ref set_limit set_nonempty set_empty
     set_nfree set_sizeclass];
  cbn [mem mheap central trace allspans pagemap arena_used arena_end nspan
       start npages freelist ref limit spanclass sizeclass nonempty empty
       nfree fst snd negb].

Tactic Notation "munfold" "in" hyp(H) :=
  cbv beta iota delta
    [mbind M_bind mret M_ret gets modify fault throw out_of_fuel load store
     span_get span_upd runtime_lock runtime_unlock MSpanList_Remove
     MSpanList_Insert MHeap_Lookup MHeap_Alloc MHeap_Free runtime_markspan
     runtime_unmarkspan store_tail set_mem set_mheap set_central log
     set_allspans set_freelist set_ref set_limit set_nonempty set_empty
     set_nfree set_sizeclass] in H;
  cbn [mem mheap central trace allspans pagemap arena_used arena_end nspan
       start npages freelist ref limit spanclass sizeclass nonempty empty
       nfree fst snd negb] in H.

(** ** The monad *)

Lemma bind_Ok {A B} (m : M A) (f : A → M B) st b st' :
  (m ≫= f) st = Ok b st' ↔ ∃ a st1, m st = Ok a st1 ∧ f a st1 = Ok b st'.
Proof.
  unfold mbind, M_bind. split.
  - destruct (m st) as [a st1| | |]; try discriminate. eauto.
  - intros (a & st1 & -> & ?). done.
Qed.

Lemma bind_Throw {A B} (m : M A) (f : A → M B) st msg st' :
  (m ≫= f) st = Throw msg st' ↔
  m st = Throw msg st' ∨ ∃ a st1, m st = Ok a st1 ∧ f a st1 = Throw msg st'.
Proof.
  unfold mbind, M_bind. split.
  - destruct (m st) as [a st1| | |]; naive_solver.
  - intros [-> | (a & st1 & -> & ?)]; done.
Qed.

Lemma bind_eq {A B} (m : M A) (f : A → M B) st a st1 :
  m st = Ok a st1 → (m ≫= f) st = f a st1.
Proof. unfold mbind, M_bind. by intros ->. Qed.

Lemma MCentral_Free_unfold v st sp :
  let s := lookup_span st v in
  s ≠ 0 →
  allspans (mheap st) !! s = Some sp →
  ref sp ≠ 0%N →
  MCentral_Free v st =
    if v =? 0 then Fault
    else if (ref sp =? 1)%N then
      if span_base sp =? 0 then Fault
      else if int32 (class_to_size (sizeclass (central st))) =? 0 then Fault
      else Ok tt (free_release s sp v st)
    else Ok tt (free_push s sp v st).
Proof.
  intros s Hs Hsp Hr. unfold MCentral_Free. munfold.
  fold (lookup_span st v). fold s.
  apply Z.eqb_neq in Hs. pose proof Hr as Hr'. apply N.eqb_neq in Hr.
  assert ((ref sp - 1 =? 0)%N = (ref sp =? 1)%N) as Hr1.
  { destruct (N.eqb_spec (ref sp) 1), (N.eqb_spec (ref sp - 1) 0); lia. }
  unfold free_release, release_span, free_push, pushed_span, span_base.
  destruct (ref sp =? 1)%N eqn:Hr2.
  - destruct (freelist sp =? 0) eqn:Hfl, (v =? 0) eqn:Hv,
      (start sp ≪ PageShift =? 0) eqn:Hb,
      (int32 (class_to_size (sizeclass (central st))) =? 0) eqn:Hz;
    repeat (munfold;
            rewrite ?Hs, ?Hsp, ?Hr, ?Hfl, ?Hv, ?Hr1, ?Hr2, ?Hb, ?Hz,
                    ?lookup_insert_eq, ?insert_insert_eq);
    done.
  - destruct (freelist sp =? 0) eqn:Hfl, (v =? 0) eqn:Hv;
    repeat (munfold;
            rewrite ?Hs, ?Hsp, ?Hr, ?Hfl, ?Hv, ?Hr1, ?Hr2,
                    ?lookup_insert_eq, ?insert_insert_eq);
    done.
Qed.

(** ** The fatal path of [MCentral_Free] *)

Lemma MCentral_Free_Throw v st msg st' :
  MCentral_Free v st = Throw msg st' →
  msg = "invalid free" ∧ st' = st ∧
  (lookup_span st v = 0 ∨
   ∃ sp, allspans (mheap st) !! lookup_span st v = Some sp ∧ ref sp = 0%N).
Proof.
  destruct (decide (lookup_span st v = 0)) as [Hs|Hs].
  { unfold MCentral_Free. munfold. fold (lookup_span st v). rewrite Hs.
    simpl. intros [= <- <-]. naive_solver. }
  destruct (allspans (mheap st) !! lookup_span st v) as [sp|] eqn:Hsp.
  2:{ unfold MCentral_Free. munfold. fold (lookup_span st v).
      apply Z.eqb_neq in Hs. rewrite Hs. munfold. by rewrite Hsp. }
  destruct (decide (ref sp = 0%N)) as [Hr|Hr].
  { unfold MCentral_Free. munfold. fold (lookup_span st v).
    apply Z.eqb_neq in Hs. rewrite Hs. munfold. rewrite Hsp. munfold.
    rewrite Hr. simpl. intros [= <- <-]. naive_solver. }
  rewrite (MCentral_Free_unfold v st sp) by done.
  repeat case_match; done.
Qed.

Lemma MCentral_Free_invalid v st :
  (lookup_span st v = 0 ∨
   ∃ sp, allspans (mheap st) !! lookup_span st v = Some sp ∧ ref sp = 0%N) →
  MCentral_Free v st = Throw "invalid free" st.
Proof.
  unfold MCentral_Free. munfold. fold (lookup_span st v).
  intros [Hs | (sp & Hsp & Hr)].
  - by rewrite Hs.
  - destruct (lookup_span st v =? 0); [done|]. munfold.
    rewrite Hsp. munfold. rewrite Hr. done.
Qed.


Lemma MCentral_Alloc_nil st :
  nonempty (central st) = [] → MCentral_Alloc st = Ok 0 st.
Proof. intros H. unfold MCentral_Alloc. munfold. by rewrite H. Qed.

Lemma MCentral_Alloc_unfold st s rest sp :
  nonempty (central st) = s :: rest →
  allspans (mheap st) !! s = Some sp →
  MCentral_Alloc st =
    if freelist sp =? 0 then Fault
    else match mem st !! freelist sp with
         | Some next => Ok (freelist sp) (alloc_pop s sp next st)
         | None => Fault
         end.
Proof.
  intros Hne Hsp. unfold MCentral_Alloc, alloc_pop, MSpanList_first.
  munfold. rewrite Hne. simpl.
  repeat (munfold; rewrite ?Hsp, ?lookup_insert_eq).
  destruct (freelist sp =? 0) eqn:Hfl; [done|].
  destruct (mem st !! freelist sp) as [next|] eqn:Hnext; [|done].
  destruct (next =? 0) eqn:Hn;
    repeat (munfold; rewrite ?Hsp, ?Hn, ?lookup_insert_eq, ?insert_insert_eq);
    by rewrite ?Hne.
Qed.

Lemma last_cons_default {A} (l : list A) (a d : A) :
  List.last (a :: l) d = List.last l a.
Proof.
  revert a d. induction l as [|b l IH]; intros a d; [done|].
  change (List.last (a :: b :: l) d) with (List.last (b :: l) d).
  by rewrite !IH.
Qed.

Lemma slot_addrs_pos k size p a :
  0 < p → 0 ≤ size → a ∈ slot_addrs k size p → 0 < a.
Proof.
  revert p. induction k as [|k IH]; intros p Hp Hsz; simpl.
  - by intros ?%elem_of_nil.
  - intros [->|Ha]%elem_of_cons; [done|]. apply (IH (p + size)); [lia|done..].
Qed.

Lemma carve_TailLink k size p q st :
  q ≠ 0 → 0 < p → 0 ≤ size →
  carve k size p (TailLink q) st =
    Ok (TailLink (List.last (slot_addrs k size p) q))
       (set_mem (link_mem (slot_addrs k size p) q) st).
Proof.
  revert p q st. induction k as [|k IH]; intros p q st Hq Hp Hsz.
  - simpl. by destruct st.
  - cbn [carve slot_addrs link_mem]. munfold.
    apply Z.eqb_neq in Hq. rewrite Hq.
    rewrite IH by lia. rewrite last_cons_default. done.
Qed.

Lemma MCentral_Grow_unfold st size np n :
  MGetSizeClassInfo (sizeclass (central st)) = Some (size, np, n) →
  0 < arena_used (mheap st) → 0 ≤ PageShift → 0 ≤ size →
  MCentral_Grow st =
    if heap_can_grant (mheap st) np
    then Ok true (grow_ok size np n st)
    else Ok false (grow_fail np st).
Proof.
  intros Hinfo Hau Hps Hsz. unfold MCentral_Grow. munfold.
  rewrite Hinfo. munfold.
  destruct (heap_can_grant (mheap st) np) eqn:Hg; munfold; [|done].
  assert ((nspan (mheap st) =? 0) = false) as ->.
  { unfold heap_can_grant in Hg.
    by destruct (nspan (mheap st) =? 0), (0 <? np), (_ <=? _). }
  repeat (munfold; rewrite ?lookup_insert_eq, ?insert_insert_eq).
  assert (0 < Z.shiftl (arena_used (mheap st)) PageShift) as Hp.
  { rewrite Z.shiftl_mul_pow2 by done.
    apply Z.mul_pos_pos; [done|]. by apply Z.pow_pos_nonneg. }
  unfold grow_ok, grow_span.
  destruct (Z.to_nat n) as [|k] eqn:Hk.
  - cbn [carve slot_addrs carve_mem hd].
    repeat (munfold; rewrite ?lookup_insert_eq, ?insert_insert_eq).
    done.
  - cbn [carve slot_addrs carve_mem hd].
    repeat (munfold; rewrite ?lookup_insert_eq, ?insert_insert_eq).
    rewrite carve_TailLink by lia.
    munfold.
    assert ((List.last
              (slot_addrs k size (arena_used (mheap st) ≪ PageShift + size))
              (arena_used (mheap st) ≪ PageShift) =? 0) = false) as ->.
    { apply Z.eqb_neq.
      rewrite <- (last_cons_default _ _ 0).
      change (_ :: slot_addrs k size _) with
        (slot_addrs (S k) size (arena_used (mheap st) ≪ PageShift)).
      assert (0 < List.last
         (slot_addrs (S k) size (arena_used (mheap st) ≪ PageShift)) 0); [|lia].
      apply (slot_addrs_pos (S k) size (arena_used (mheap st) ≪ PageShift));
        [done..|].
      apply list_elem_of_In. destruct (exists_last (l:=slot_addrs (S k) size
        (arena_used (mheap st) ≪ PageShift))) as (l' & a & Heq); [done|].
      rewrite Heq, last_last. apply in_app_iff. right. by left. }
    repeat (munfold; rewrite ?lookup_insert_eq, ?insert_insert_eq). done.
Qed.

(** ** Chains in memory *)

Lemma chain_nil_inv m l : chain m 0 l → l = [].
Proof. destruct l as [|a l]; [done|]. simpl. naive_solver. Qed.

Lemma chain_head m p l : chain m p l → p = hd 0 l.
Proof. destruct l; simpl; naive_solver. Qed.

Lemma chain_nonzero m p l a : chain m p l → a ∈ l → a ≠ 0.
Proof.
  revert p. induction l as [|b l IH]; intros p; simpl.
  - by intros _ ?%elem_of_nil.
  - intros (-> & Hb & q & _ & Hq) [->|Ha]%elem_of_cons; eauto.
Qed.

Lemma chain_functional m p l1 l2 : chain m p l1 → chain m p l2 → l1 = l2.
Proof.
  revert p l2. induction l1 as [|a l1 IH]; intros p [|b l2]; simpl; try done.
  - naive_solver.
  - naive_solver.
  - intros (-> & _ & q & Hq & H1) (<- & _ & q' & Hq' & H2).
    f_equal. rewrite Hq in Hq'. injection Hq' as <-. eauto.
Qed.

Lemma chain_frame m m' p l :
  chain m p l → (∀ a, a ∈ l → m' !! a = m !! a) → chain m' p l.
Proof.
  revert p. induction l as [|a l IH]; intros p; simpl; [done|].
  intros (-> & Ha & q & Hq & Hl) Hm. split; [done|]. split; [done|].
  exists q. split.
  - rewrite Hm; [done|]. by left.
  - apply IH; [done|]. intros b Hb. apply Hm. by right.
Qed.

Lemma chain_suffix m p l1 a l2 :
  chain m p (l1 ++ a :: l2) → chain m a (a :: l2).
Proof.
  revert p. induction l1 as [|b l1 IH]; intros p.
  - simpl. intros (-> & H). done.
  - intros (-> & _ & q & _ & H). exact (IH _ H).
Qed.

Lemma chain_NoDup m p l : chain m p l → NoDup l.
Proof.
  revert p. induction l as [|a l IH]; intros p; [constructor|].
  intros H. pose proof H as (-> & Ha & q & Hq & Hl). constructor; [|eauto].
  intros (l1 & l2 & ->)%list_elem_of_split.
  pose proof (chain_suffix m q l1 a l2 Hl) as H'.
  pose proof (chain_functional _ _ _ _ H H') as Heq.
  apply (f_equal length) in Heq. simpl in Heq.
  rewrite length_app in Heq. simpl in Heq. lia.
Qed.

Lemma chain_push m p l v :
  v ≠ 0 → v ∉ l → chain m p l → chain (<[v := p]> m) v (v :: l).
Proof.
  intros Hv Hnot Hl. simpl. split; [done|]. split; [done|].
  exists p. rewrite lookup_insert_eq. split; [done|].
  apply (chain_frame m); [done|]. intros a Ha.
  apply lookup_insert_ne. by intros ->.
Qed.

Lemma chain_dom m p l a : chain m p l → a ∈ l → is_Some (m !! a).
Proof.
  revert p. induction l as [|b l IH]; intros p; simpl.
  - by intros _ ?%elem_of_nil.
  - intros (-> & Hb & q & Hq & Hl) [->|Ha]%elem_of_cons; eauto.
Qed.

Lemma chain_length m p l : chain m p l → (length l ≤ size m)%nat.
Proof.
  intros H. pose proof (chain_NoDup _ _ _ H) as Hnd.
  assert (list_to_set l ⊆ dom m) as Hsub.
  { intros a Ha%elem_of_list_to_set. apply elem_of_dom. eauto using chain_dom. }
  apply subseteq_size in Hsub.
  rewrite size_list_to_set in Hsub by done. by rewrite size_dom in Hsub.
Qed.

Lemma chain_walk fuel m p l :
  chain m p l → (length l < fuel)%nat → walk fuel m p = Some l.
Proof.
  revert p l. induction fuel as [|fuel IH]; intros p l Hl Hlen; [lia|].
  simpl. destruct l as [|a l]; simpl in *.
  - subst. done.
  - destruct Hl as (-> & Ha & q & Hq & Hl).
    apply Z.eqb_neq in Ha. rewrite Ha, Hq.
    rewrite (IH q l) by (done || lia). done.
Qed.

Lemma walk_chain fuel m p l : walk fuel m p = Some l → chain m p l.
Proof.
  revert p l. induction fuel as [|fuel IH]; intros p l; simpl; [done|].
  destruct (Z.eqb_spec p 0) as [->|Hp].
  - by intros [= <-].
  - destruct (m !! p) as [q|] eqn:Hq; [|done].
    destruct (walk fuel m q) as [l'|] eqn:Hw; [|done].
    intros [= <-]. simpl. eauto 10.
Qed.

Lemma free_objects_intro st s sp l :
  allspans (mheap st) !! s = Some sp →
  chain (mem st) (freelist sp) l →
  free_objects st s = Some l.
Proof.
  intros Hsp Hl. unfold free_objects. rewrite Hsp.
  change (walk (S (size (mem st))) (mem st) (freelist sp) = Some l).
  apply chain_walk; [done|]. apply chain_length in Hl. lia.
Qed.

Lemma flist_intro st s sp l :
  allspans (mheap st) !! s = Some sp →
  chain (mem st) (freelist sp) l →
  flist st s = l.
Proof.
  intros Hsp Hl. unfold flist. by erewrite free_objects_intro.
Qed.

(** ** Slots *)

Lemma elem_of_slot_addrs k size p a :
  a ∈ slot_addrs k size p ↔ ∃ i, 0 ≤ i < Z.of_nat k ∧ a = p + size * i.
Proof.
  revert p. induction k as [|k IH]; intros p; simpl.
  - split; [by intros ?%elem_of_nil|]. intros (i & ? & _). lia.
  - rewrite elem_of_cons, IH. split.
    + intros [->|(i & Hi & ->)].
      * exists 0. lia.
      * exists (i + 1). lia.
    + intros (i & Hi & ->). destruct (decide (i = 0)) as [->|Hne].
      * left. lia.
      * right. exists (i - 1). lia.
Qed.

Lemma length_slot_addrs k size p : length (slot_addrs k size p) = k.
Proof. revert p. induction k; intros p; simpl; auto. Qed.

Lemma NoDup_slot_addrs k size p : 0 < size → NoDup (slot_addrs k size p).
Proof.
  intros Hsz. revert p. induction k as [|k IH]; intros p; simpl; constructor.
  - intros (i & Hi & Heq)%elem_of_slot_addrs. nia.
  - apply IH.
Qed.

(** ** Geometry *)

Lemma int32_id z : - 2 ^ 31 ≤ z < 2 ^ 31 → int32 z = z.
Proof. intros H. unfold int32. rewrite Z.mod_small; lia. Qed.

Section Geometry_ok.
Variable sc : Z.
Hypothesis geo : geometry_ok sc.

Lemma shiftl_npages :
  Z.shiftl (class_to_allocnpages sc) PageShift =
  class_to_allocnpages sc * 2 ^ PageShift.
Proof. destruct geo. by rewrite Z.shiftl_mul_pow2. Qed.

Lemma pow_PageShift_pos : 0 < 2 ^ PageShift.
Proof. destruct geo. by apply Z.pow_pos_nonneg. Qed.

Lemma class_nobj_div :
  class_nobj sc =
  (class_to_allocnpages sc * 2 ^ PageShift) / class_to_size sc.
Proof.
  destruct geo. unfold class_nobj. rewrite shiftl_npages.
  pose proof pow_PageShift_pos.
  apply Z.quot_div_nonneg; nia.
Qed.

Lemma class_nobj_pos : 1 ≤ class_nobj sc.
Proof.
  rewrite class_nobj_div. destruct geo. rewrite shiftl_npages in *.
  apply Z.div_le_lower_bound; lia.
Qed.

Lemma class_nobj_fits :
  class_to_size sc * class_nobj sc ≤ class_to_allocnpages sc * 2 ^ PageShift.
Proof.
  rewrite class_nobj_div. destruct geo. apply Z.mul_div_le. lia.
Qed.

Lemma class_nobj_int32 : class_nobj sc < 2 ^ 31.
Proof.
  destruct geo. pose proof class_nobj_fits. pose proof class_nobj_pos.
  rewrite shiftl_npages in *. nia.
Qed.

Lemma MGetSizeClassInfo_ok :
  MGetSizeClassInfo sc =
  Some (class_to_size sc, class_to_allocnpages sc, class_nobj sc).
Proof.
  pose proof class_nobj_int32. pose proof class_nobj_pos.
  pose proof pow_PageShift_pos.
  destruct geo. unfold MGetSizeClassInfo.
  rewrite shiftl_npages in *.
  assert (class_to_allocnpages sc < 2 ^ 31) by nia.
  rewrite !(int32_id (class_to_size sc)) by lia.
  rewrite !(int32_id (class_to_allocnpages sc)) by lia.
  destruct (Z.eqb_spec (class_to_size sc) 0); [lia|].
  rewrite Z.shiftl_mul_pow2 by done.
  rewrite (int32_id (class_to_allocnpages sc * 2 ^ PageShift)) by lia.
  fold (class_nobj sc). unfold class_nobj at 1. rewrite Z.shiftl_mul_pow2 by done.
  fold (class_nobj sc).
  replace (class_to_allocnpages sc * 2 ^ PageShift ÷ class_to_size sc)
    with (class_nobj sc)
    by (unfold class_nobj; by rewrite Z.shiftl_mul_pow2).
  rewrite int32_id by lia. done.
Qed.

(** Every slot of a span lies on one of the span's pages. *)
Lemma slot_page sp v :
  0 < start sp → npages sp = class_to_allocnpages sc →
  v ∈ span_slots sc sp →
  0 < v ∧ start sp ≤ Z.shiftr v PageShift < start sp + npages sp.
Proof.
  intros Hst Hnp (i & Hi & ->)%elem_of_slot_addrs.
  pose proof class_nobj_fits. pose proof class_nobj_pos.
  pose proof pow_PageShift_pos as Hpow.
  destruct geo. rewrite Z2Nat.id in Hi by lia.
  unfold span_base. rewrite Z.shiftl_mul_pow2, Z.shiftr_div_pow2 by done.
  rewrite Hnp. split; [nia|]. split.
  - apply Z.div_le_lower_bound; nia.
  - apply Z.div_lt_upper_bound; nia.
Qed.
End Geometry_ok.

(** ** Lists of spans *)

Lemma elem_of_list_remove x s l : x ∈ list_remove s l ↔ x ∈ l ∧ x ≠ s.
Proof. unfold list_remove. rewrite list_elem_of_filter. tauto. Qed.

Lemma list_remove_notin s l : s ∉ l → list_remove s l = l.
Proof.
  intros Hs. unfold list_remove. induction l as [|a l IH]; [done|].
  apply not_elem_of_cons in Hs as [Hne Hs].
  rewrite filter_cons_True by done. by rewrite IH.
Qed.

Lemma list_remove_cons_eq s l : list_remove s (s :: l) = list_remove s l.
Proof. unfold list_remove. by rewrite filter_cons_False by tauto. Qed.

Lemma NoDup_list_remove s l : NoDup l → NoDup (list_remove s l).
Proof. apply NoDup_filter. Qed.

Lemma sum_list_with_ext_in {A} (f g : A → nat) l :
  (∀ x, x ∈ l → f x = g x) → sum_list_with f l = sum_list_with g l.
Proof.
  induction l as [|a l IH]; intros H; simpl; [done|].
  rewrite H by (by left). rewrite IH; [done|]. intros x Hx. apply H. by right.
Qed.

Lemma sum_list_with_change (f g : Z → nat) l s :
  NoDup l → s ∈ l → (∀ x, x ∈ l → x ≠ s → g x = f x) →
  (sum_list_with g l + f s = sum_list_with f l + g s)%nat.
Proof.
  induction l as [|a l IH]; intros Hnd Hs Hfg; [by apply elem_of_nil in Hs|].
  apply NoDup_cons in Hnd as [Ha Hnd]. simpl.
  destruct (decide (a = s)) as [->|Hne].
  - rewrite (sum_list_with_ext_in g f l); [lia|].
    intros x Hx. apply Hfg; [by right|]. by intros ->.
  - apply elem_of_cons in Hs as [->|Hs]; [done|].
    rewrite (Hfg a) by (done || by left).
    assert (∀ x, x ∈ l → x ≠ s → g x = f x) as Hfg'.
    { intros x Hx. apply Hfg. by right. }
    specialize (IH Hnd Hs Hfg'). lia.
Qed.

(** ** Spans under the invariant *)

Lemma flist_same st st' s :
  allspans (mheap st') !! s = allspans (mheap st) !! s →
  mem st' = mem st →
  flist st' s = flist st s.
Proof. intros H1 H2. unfold flist, free_objects. by rewrite H1, H2. Qed.

Lemma span_slots_start sc sp sp' :
  start sp' = start sp → span_slots sc sp' = span_slots sc sp.
Proof. intros H. unfold span_slots, span_base. by rewrite H. Qed.

Lemma span_ok_update st st' s sp sp' l' :
  span_ok st s sp →
  sizeclass (central st') = sizeclass (central st) →
  allspans (mheap st') !! s = Some sp' →
  start sp' = start sp → npages sp' = npages sp →
  nspan (mheap st) ≤ nspan (mheap st') →
  arena_used (mheap st) ≤ arena_used (mheap st') →
  (∀ p, start sp ≤ p < start sp + npages sp →
        pagemap (mheap st') !! p = pagemap (mheap st) !! p) →
  chain (mem st') (freelist sp') l' →
  l' ⊆ span_slots (sizeclass (central st)) sp →
  Z.of_nat (length l') + Z.of_N (ref sp') = class_nobj (sizeclass (central st)) →
  span_ok st' s sp' ∧ flist st' s = l'.
Proof.
  intros [] Hsc Hsp Hst Hnp Hns Hau Hpm Hch Hsl Hct.
  assert (flist st' s = l') as Hfl by eauto using flist_intro.
  split; [|done]. constructor; rewrite ?Hfl, ?Hsc, ?Hst, ?Hnp; try done; try lia.
  - intros p Hp. rewrite Hpm by done. eauto.
  - by rewrite (span_slots_start _ sp sp').
Qed.

Lemma span_ok_frame st st' s sp :
  span_ok st s sp →
  sizeclass (central st') = sizeclass (central st) →
  allspans (mheap st') !! s = Some sp →
  nspan (mheap st) ≤ nspan (mheap st') →
  arena_used (mheap st) ≤ arena_used (mheap st') →
  (∀ p, start sp ≤ p < start sp + npages sp →
        pagemap (mheap st') !! p = pagemap (mheap st) !! p) →
  (∀ a, a ∈ flist st s → mem st' !! a = mem st !! a) →
  span_ok st' s sp ∧ flist st' s = flist st s.
Proof.
  intros Hok Hsc Hsp Hns Hau Hpm Hmem.
  eapply span_ok_update; eauto.
  - eapply chain_frame; [apply Hok|done].
  - apply Hok.
  - apply Hok.
Qed.

Lemma span_ok_lookup st s sp v :
  geometry_ok (sizeclass (central st)) →
  span_ok st s sp →
  v ∈ span_slots (sizeclass (central st)) sp →
  lookup_span st v = s ∧ v ≠ 0.
Proof.
  intros Hgeo [] Hv.
  destruct (slot_page _ Hgeo sp v) as [Hpos Hpg]; [done..|].
  unfold lookup_span. rewrite so_map0 by done. simpl. split; [done|lia].
Qed.

Lemma span_ok_inj st s1 sp1 s2 sp2 v :
  geometry_ok (sizeclass (central st)) →
  span_ok st s1 sp1 → span_ok st s2 sp2 →
  v ∈ span_slots (sizeclass (central st)) sp1 →
  v ∈ span_slots (sizeclass (central st)) sp2 →
  s1 = s2.
Proof.
  intros Hgeo H1 H2 Hv1 Hv2.
  destruct (span_ok_lookup st s1 sp1 v) as [<- _]; [done..|].
  by destruct (span_ok_lookup st s2 sp2 v) as [<- _].
Qed.

Lemma span_ok_NoDup st s sp : span_ok st s sp → NoDup (flist st s).
Proof. intros []. eauto using chain_NoDup. Qed.

Lemma span_slots_length sc sp :
  1 ≤ class_nobj sc →
  Z.of_nat (length (span_slots sc sp)) = class_nobj sc.
Proof. intros H. unfold span_slots. rewrite length_slot_addrs. lia. Qed.

(** A slot that is not free is counted by [ref]. *)
Lemma span_ok_ref st s sp v :
  geometry_ok (sizeclass (central st)) →
  span_ok st s sp →
  v ∈ span_slots (sizeclass (central st)) sp → v ∉ flist st s →
  ref sp ≠ 0%N.
Proof.
  intros Hgeo Hok Hv Hnot.
  pose proof (span_ok_NoDup _ _ _ Hok) as Hnd.
  assert (v :: flist st s ⊆+ span_slots (sizeclass (central st)) sp) as Hsub.
  { apply NoDup_submseteq; [by constructor|].
    intros x [->|Hx]%elem_of_cons; [done|]. by apply Hok. }
  apply submseteq_length in Hsub. simpl in Hsub.
  pose proof (span_slots_length (sizeclass (central st)) sp
                (class_nobj_pos _ Hgeo)).
  destruct Hok. lia.
Qed.

Lemma Inv_span_lookup st s sp :
  Inv st → s ∈ owned (central st) → allspans (mheap st) !! s = Some sp →
  span_ok st s sp.
Proof.
  intros HInv Hs Hsp. destruct (inv_span _ HInv s Hs) as [sp' Hok].
  pose proof (so_lookup _ _ _ Hok) as Hsp'. congruence.
Qed.

Lemma Inv_owned_nonempty st s :
  Inv st → s ∈ owned (central st) → flist st s ≠ [] → s ∈ nonempty (central st).
Proof.
  intros HInv [Hs|Hs]%elem_of_app Hne; [done|].
  by apply (inv_empty _ HInv) in Hs.
Qed.

(** ** [MCentral_Alloc] under the invariant *)

Lemma alloc_pre st s rest :
  Inv st → nonempty (central st) = s :: rest →
  ∃ sp v l' next,
    span_ok st s sp ∧ flist st s = v :: l' ∧ freelist sp = v ∧ v ≠ 0 ∧
    mem st !! v = Some next ∧ chain (mem st) next l' ∧
    MCentral_Alloc st = Ok v (alloc_pop s sp next st).
Proof.
  intros HInv Hne.
  assert (s ∈ nonempty (central st)) as Hs by (rewrite Hne; by left).
  destruct (inv_span _ HInv s) as [sp Hok].
  { apply elem_of_app. by left. }
  pose proof (inv_nonempty _ HInv s Hs) as Hfl.
  destruct (flist st s) as [|v l'] eqn:Hl; [done|].
  pose proof (so_chain _ _ _ Hok) as Hch. rewrite Hl in Hch.
  destruct Hch as (Hv & Hv0 & next & Hnext & Hch).
  exists sp, v, l', next. split_and!; try done.
  rewrite (MCentral_Alloc_unfold st s rest sp Hne (so_lookup _ _ _ Hok)).
  rewrite Hv. apply Z.eqb_neq in Hv0. by rewrite Hv0, Hnext.
Qed.

Section Alloc_pop.
Variables (st : State) (s : Z) (rest : list Z) (sp : MSpan).
Variables (v next : Z) (l' : list Z).
Hypothesis HInv : Inv st.
Hypothesis Hne : nonempty (central st) = s :: rest.
Hypothesis Hok : span_ok st s sp.
Hypothesis Hfl : flist st s = v :: l'.
Hypothesis Hnext : mem st !! v = Some next.
Hypothesis Hch : chain (mem st) next l'.

Let st' := alloc_pop s sp next st.
Let sp' := mkMSpan (start sp) (npages sp) next (ref sp + 1)%N (limit sp)
                   (spanclass sp).

Lemma alloc_pop_next : next = 0 ↔ l' = [].
Proof.
  split.
  - intros ->. eauto using chain_nil_inv.
  - intros ->. done.
Qed.

Lemma alloc_pop_s_fresh : (s ∉ rest) ∧ (s ∉ empty (central st)).
Proof.
  pose proof (inv_nodup _ HInv) as Hnd. unfold owned in Hnd.
  rewrite Hne in Hnd. simpl in Hnd. apply NoDup_cons in Hnd as [Hs _].
  rewrite elem_of_app in Hs. tauto.
Qed.

Lemma alloc_pop_central :
  central st' =
    if decide (l' = [])
    then mkMCentral (sizeclass (central st)) rest (s :: empty (central st))
                    (nfree (central st))
    else central st.
Proof.
  destruct alloc_pop_s_fresh as [H1 H2].
  unfold st', alloc_pop. cbn [central].
  destruct (decide (l' = [])) as [Hl|Hl].
  - apply alloc_pop_next in Hl as ->. simpl.
    rewrite Hne, list_remove_cons_eq, !list_remove_notin by done. done.
  - destruct (Z.eqb_spec next 0) as [Hn|Hn]; [|done].
    by apply alloc_pop_next in Hn.
Qed.

Lemma alloc_pop_sizeclass :
  sizeclass (central st') = sizeclass (central st).
Proof. rewrite alloc_pop_central. by case_decide. Qed.

Lemma alloc_pop_nfree : nfree (central st') = nfree (central st).
Proof. rewrite alloc_pop_central. by case_decide. Qed.

Lemma alloc_pop_owned : owned (central st') ≡ₚ owned (central st).
Proof.
  rewrite alloc_pop_central. case_decide; [|done].
  unfold owned. cbn [nonempty empty]. rewrite Hne. simpl.
  by rewrite <- Permutation_middle.
Qed.

Lemma alloc_pop_nonempty :
  nonempty (central st') = if decide (l' = []) then rest else s :: rest.
Proof. rewrite alloc_pop_central. by case_decide. Qed.

Lemma alloc_pop_lookup_s : allspans (mheap st') !! s = Some sp'.
Proof. unfold st', alloc_pop. cbn. by rewrite lookup_insert_eq. Qed.

Lemma alloc_pop_lookup_other s0 :
  s0 ≠ s → allspans (mheap st') !! s0 = allspans (mheap st) !! s0.
Proof. intros H. unfold st', alloc_pop. cbn. by rewrite lookup_insert_ne. Qed.

Lemma alloc_pop_v_slot : v ∈ span_slots (sizeclass (central st)) sp ∧ v ∉ l'.
Proof.
  split.
  - apply Hok. rewrite Hfl. by left.
  - pose proof (span_ok_NoDup _ _ _ Hok) as Hnd. rewrite Hfl in Hnd.
    by apply NoDup_cons in Hnd as [? _].
Qed.

Lemma alloc_pop_span_s : span_ok st' s sp' ∧ flist st' s = l'.
Proof.
  eapply (span_ok_update st st' s sp sp'); try done.
  - apply alloc_pop_sizeclass.
  - apply alloc_pop_lookup_s.
  - intros a Ha. apply Hok. rewrite Hfl. by right.
  - pose proof (so_count _ _ _ Hok) as Hct. rewrite Hfl in Hct.
    simpl in *. lia.
Qed.

Lemma alloc_pop_flist_other s0 : s0 ≠ s → flist st' s0 = flist st s0.
Proof. intros H. apply flist_same; [by apply alloc_pop_lookup_other|done]. Qed.

Lemma alloc_pop_span_other s0 sp0 :
  s0 ≠ s → span_ok st s0 sp0 → span_ok st' s0 sp0.
Proof.
  intros Hs0 Hok0.
  eapply (span_ok_frame st st' s0 sp0); try done.
  - apply alloc_pop_sizeclass.
  - rewrite alloc_pop_lookup_other by done. apply Hok0.
Qed.

Lemma alloc_pop_Inv : Inv st'.
Proof.
  destruct alloc_pop_span_s as [Hs Hfs].
  pose proof alloc_pop_owned as Hperm.
  constructor.
  - rewrite alloc_pop_sizeclass. apply HInv.
  - apply HInv.
  - apply HInv.
  - rewrite Hperm. apply HInv.
  - intros s0 Hs0. rewrite Hperm in Hs0.
    destruct (decide (s0 = s)) as [->|Hne0]; [eauto|].
    destruct (inv_span _ HInv s0 Hs0) as [sp0 Hok0].
    eauto using alloc_pop_span_other.
  - intros s0. rewrite alloc_pop_nonempty.
    destruct (decide (s0 = s)) as [->|Hne0].
    + rewrite Hfs. case_decide as Hl; [|done].
      intros Hin. by destruct alloc_pop_s_fresh.
    + rewrite alloc_pop_flist_other by done.
      intros Hin. apply (inv_nonempty _ HInv). rewrite Hne.
      case_decide; [by right|done].
  - intros s0. rewrite alloc_pop_central.
    destruct (decide (s0 = s)) as [->|Hne0].
    + rewrite Hfs. case_decide as Hl; [done|].
      intros Hin. by destruct alloc_pop_s_fresh.
    + rewrite alloc_pop_flist_other by done.
      intros Hin. apply (inv_empty _ HInv).
      case_decide; [|done]. cbn in Hin.
      by apply elem_of_cons in Hin as [?|?].
Qed.

Lemma alloc_pop_avail : avail st = v :: avail st'.
Proof.
  destruct alloc_pop_span_s as [_ Hfs].
  destruct alloc_pop_s_fresh as [Hs _].
  assert (flist st' <$> rest = flist st <$> rest) as Hrest.
  { apply list_fmap_ext. intros i x Hx. apply alloc_pop_flist_other.
    intros ->. apply Hs. by eapply list_elem_of_lookup_2. }
  unfold avail. rewrite alloc_pop_nonempty, Hne.
  rewrite fmap_cons, Hfl. case_decide as Hl.
  - rewrite Hl, Hrest. reflexivity.
  - rewrite fmap_cons, Hfs, Hrest. reflexivity.
Qed.

Lemma alloc_pop_sum_free : sum_free st' = sum_free st - 1.
Proof.
  destruct alloc_pop_span_s as [_ Hfs].
  unfold sum_free. rewrite alloc_pop_owned.
  pose proof (sum_list_with_change
    (λ s0, length (flist st s0)) (λ s0, length (flist st' s0))
    (owned (central st)) s (inv_nodup _ HInv)) as H.
  simpl in H. rewrite Hfs, Hfl in H. simpl in H.
  assert (s ∈ owned (central st)) as Hs.
  { apply elem_of_app. left. rewrite Hne. by left. }
  specialize (H Hs).
  assert (∀ x, x ∈ owned (central st) → x ≠ s →
               length (flist st' x) = length (flist st x)) as Hoth.
  { intros x _ Hx. by rewrite alloc_pop_flist_other. }
  specialize (H Hoth). lia.
Qed.

Lemma alloc_pop_not_live : ¬ live st v.
Proof.
  intros (s0 & sp0 & Hs0 & Hsp0 & Hv & Hnot).
  pose proof (Inv_span_lookup _ _ _ HInv Hs0 Hsp0) as Hok0.
  destruct alloc_pop_v_slot as [Hv' _].
  assert (s0 = s) as -> by eauto using span_ok_inj, inv_geo.
  apply Hnot. rewrite Hfl. by left.
Qed.

Lemma alloc_pop_live x : live st' x ↔ live st x ∨ x = v.
Proof.
  destruct alloc_pop_span_s as [_ Hfs].
  destruct alloc_pop_v_slot as [Hv Hvl].
  assert (s ∈ owned (central st)) as Hs.
  { apply elem_of_app. left. rewrite Hne. by left. }
  unfold live. setoid_rewrite alloc_pop_owned.
  rewrite alloc_pop_sizeclass. split.
  - intros (s0 & sp0 & Hs0 & Hsp0 & Hx & Hnot).
    destruct (decide (s0 = s)) as [->|Hne0].
    + rewrite alloc_pop_lookup_s in Hsp0. injection Hsp0 as <-.
      rewrite Hfs in Hnot.
      rewrite (span_slots_start _ sp sp') in Hx by done.
      destruct (decide (x = v)) as [->|Hxv]; [by right|]. left.
      exists s, sp. split_and!; try done; [apply Hok|].
      rewrite Hfl. by intros [?|?]%elem_of_cons.
    + rewrite alloc_pop_lookup_other in Hsp0 by done.
      rewrite alloc_pop_flist_other in Hnot by done. left. eauto 10.
  - intros [(s0 & sp0 & Hs0 & Hsp0 & Hx & Hnot) | ->].
    + destruct (decide (s0 = s)) as [->|Hne0].
      * exists s, sp'. split_and!; try done.
        -- apply alloc_pop_lookup_s.
        -- rewrite (span_slots_start _ sp sp') by done.
           pose proof (so_lookup _ _ _ Hok). congruence.
        -- rewrite Hfs. rewrite Hfl in Hnot. intros Hin. apply Hnot. by right.
      * exists s0, sp0. rewrite alloc_pop_lookup_other by done.
        by rewrite alloc_pop_flist_other by done.
    + exists s, sp'.
      split_and!; [done|apply alloc_pop_lookup_s|done|by rewrite Hfs].
Qed.

Lemma alloc_pop_settled : settled st → settled st'.
Proof.
  intros Hset s0 sp0 Hs0 Hsp0. rewrite alloc_pop_owned in Hs0.
  destruct (decide (s0 = s)) as [->|Hne0].
  - rewrite alloc_pop_lookup_s in Hsp0. injection Hsp0 as <-. simpl. lia.
  - rewrite alloc_pop_lookup_other in Hsp0 by done. eauto.
Qed.

Lemma alloc_pop_ref sp0 :
  allspans (mheap st') !! s = Some sp0 → ref sp0 ≠ 0%N.
Proof. rewrite alloc_pop_lookup_s. intros [= <-]. simpl. lia. Qed.
End Alloc_pop.

(** ** The page map *)

Lemma foldr_insert_lookup (x : Z) (l : list Z) (m : gmap Z Z) p :
  foldr (λ p acc, <[p := x]> acc) m l !! p =
    if decide (p ∈ l) then Some x else m !! p.
Proof.
  induction l as [|a l IH]; cbn [foldr].
  - destruct (decide (p ∈ [])) as [H|H]; [by apply elem_of_nil in H|done].
  - rewrite lookup_insert, IH.
    destruct (decide (a = p)), (decide (p ∈ l)), (decide (p ∈ a :: l));
      try done; set_solver.
Qed.

Lemma foldr_delete_lookup (l : list Z) (m : gmap Z Z) p :
  foldr (λ p acc, delete p acc) m l !! p =
    if decide (p ∈ l) then None else m !! p.
Proof.
  induction l as [|a l IH]; cbn [foldr].
  - destruct (decide (p ∈ [])) as [H|H]; [by apply elem_of_nil in H|done].
  - rewrite lookup_delete, IH.
    destruct (decide (a = p)), (decide (p ∈ l)), (decide (p ∈ a :: l));
      try done; set_solver.
Qed.

Lemma map_pages_lookup x first n m p :
  map_pages x first n m !! p =
    if decide (first ≤ p < first + n) then Some x else m !! p.
Proof.
  unfold map_pages. rewrite foldr_insert_lookup.
  destruct (decide (p ∈ seqZ first n)) as [H|H],
           (decide (first ≤ p < first + n)) as [H'|H']; try done;
    rewrite elem_of_seqZ in H; lia.
Qed.

Lemma unmap_pages_lookup first n m p :
  unmap_pages first n m !! p =
    if decide (first ≤ p < first + n) then None else m !! p.
Proof.
  unfold unmap_pages. rewrite foldr_delete_lookup.
  destruct (decide (p ∈ seqZ first n)) as [H|H],
           (decide (first ≤ p < first + n)) as [H'|H']; try done;
    rewrite elem_of_seqZ in H; lia.
Qed.

(** ** Carving *)

Lemma link_mem_other l q m a :
  a ≠ q → a ∉ l → link_mem l q m !! a = m !! a.
Proof.
  revert q m. induction l as [|b l IH]; intros q m Hq Hl; simpl; [done|].
  apply not_elem_of_cons in Hl as [Hb Hl].
  rewrite IH by done. by rewrite lookup_insert_ne.
Qed.

Lemma carve_mem_other l m a : a ∉ l → carve_mem l m !! a = m !! a.
Proof.
  destruct l as [|b l]; [done|]. intros [Hb Hl]%not_elem_of_cons. simpl.
  rewrite lookup_insert_ne.
  - by apply link_mem_other.
  - intros <-. destruct l as [|c l]; [done|].
    destruct (exists_last (l:=c :: l)) as (l' & z & Heq); [done|].
    rewrite Heq, last_last in Hl. apply Hl.
    apply elem_of_app. right. by left.
Qed.

Lemma carve_mem_chain_aux l q m :
  NoDup (q :: l) → (∀ a, a ∈ q :: l → a ≠ 0) →
  chain (<[List.last l q := 0]> (link_mem l q m)) q (q :: l).
Proof.
  revert q m. induction l as [|a l IH]; intros q m Hnd Hnz.
  - simpl. split; [done|]. split; [apply Hnz; by left|].
    exists 0. by rewrite lookup_insert_eq.
  - apply NoDup_cons in Hnd as [Hq Hnd].
    assert (∀ x, x ∈ a :: l → x ≠ 0) as Hnz'.
    { intros x Hx. apply Hnz. by right. }
    specialize (IH a (<[q := a]> m) Hnd Hnz').
    rewrite last_cons_default. cbn [link_mem].
    split; [done|]. split; [apply Hnz; by left|].
    exists a. split; [|done].
    pose proof (carve_mem_other (a :: l) (<[q := a]> m) q Hq) as Hoth.
    cbn [carve_mem] in Hoth. rewrite Hoth. by rewrite lookup_insert_eq.
Qed.

Lemma carve_mem_chain l m :
  NoDup l → (∀ a, a ∈ l → a ≠ 0) → chain (carve_mem l m) (hd 0 l) l.
Proof.
  destruct l as [|q l]; [done|]. intros Hnd Hnz.
  by apply carve_mem_chain_aux.
Qed.

(** ** Writes to memory that is not free *)

Section Store.
Variables (st : State) (a w : Z).
Hypothesis HInv : Inv st.
Hypothesis Ha : not_free st a.

Let st' := set_mem (insert a w) st.

Lemma store_span s sp :
  s ∈ owned (central st) → span_ok st s sp →
  span_ok st' s sp ∧ flist st' s = flist st s.
Proof.
  intros Hs Hok. eapply (span_ok_frame st st' s sp); try done.
  - apply Hok.
  - intros x Hx. unfold st'. cbn. apply lookup_insert_ne.
    intros ->. by apply (Ha s).
Qed.

Lemma store_flist s : s ∈ owned (central st) → flist st' s = flist st s.
Proof.
  intros Hs. destruct (inv_span _ HInv s Hs) as [sp Hok].
  by apply (store_span s sp).
Qed.

Lemma store_Inv : Inv st'.
Proof.
  constructor; try apply HInv.
  - intros s Hs. destruct (inv_span _ HInv s Hs) as [sp Hok].
    exists sp. by apply store_span.
  - intros s Hs. rewrite store_flist; [by apply HInv|].
    apply elem_of_app. by left.
  - intros s Hs. rewrite store_flist; [by apply HInv|].
    apply elem_of_app. by right.
Qed.

Lemma store_avail : avail st' = avail st.
Proof.
  unfold avail. f_equal. apply list_fmap_ext. intros i s Hs.
  apply store_flist, elem_of_app. left. by eapply list_elem_of_lookup_2.
Qed.

Lemma store_sum_free : sum_free st' = sum_free st.
Proof.
  unfold sum_free. f_equal. apply sum_list_with_ext_in.
  intros s Hs. by rewrite store_flist.
Qed.

Lemma store_live x : live st' x ↔ live st x.
Proof.
  unfold live. cbn.
  split; intros (s & sp & Hs & Hsp & Hx & Hnot); exists s, sp;
    split_and!; try done.
  - by rewrite <- store_flist.
  - by rewrite store_flist.
Qed.
End Store.

Lemma live_not_free st v : Inv st → live st v → not_free st v.
Proof.
  intros HInv (s & sp & Hs & Hsp & Hv & Hnot) s0 Hs0 Hin.
  destruct (inv_span _ HInv s0 Hs0) as [sp0 Hok0].
  pose proof (Inv_span_lookup _ _ _ HInv Hs Hsp) as Hok.
  assert (s0 = s) as ->; [|done].
  eapply (span_ok_inj st s0 sp0 s sp v); try done; [apply HInv|].
  by apply Hok0.
Qed.

Lemma stable_refl st : stable st st.
Proof. constructor; eauto; lia. Qed.

Lemma stable_trans st1 st2 st3 : stable st1 st2 → stable st2 st3 → stable st1 st3.
Proof.
  intros [] []. constructor; try lia; try congruence.
  - intros s sp Hs Hsp.
    destruct (st_spans0 s sp Hs Hsp) as (sp' & Hsp' & ? & ?).
    destruct (st_spans1 s sp' ltac:(lia) Hsp') as (sp'' & Hsp'' & ? & ?).
    exists sp''. split_and!; congruence.
  - intros p x Hp Hx. apply st_pagemap0; [done|].
    apply st_pagemap1; [lia|done].
Qed.

Lemma list_remove_Permutation s l :
  NoDup l → s ∈ l → s :: list_remove s l ≡ₚ l.
Proof.
  intros Hnd Hs. apply NoDup_Permutation; [|done|].
  - constructor; [|by apply NoDup_list_remove].
    rewrite elem_of_list_remove. tauto.
  - intros x. rewrite elem_of_cons, elem_of_list_remove.
    destruct (decide (x = s)) as [->|]; naive_solver.
Qed.

Lemma sum_list_with_remove (f : Z → nat) s l :
  NoDup l → s ∈ l →
  sum_list_with f l = (f s + sum_list_with f (list_remove s l))%nat.
Proof.
  intros Hnd Hs. rewrite <- (list_remove_Permutation s l) at 1 by done. done.
Qed.

Lemma list_remove_app s l k :
  list_remove s (l ++ k) = list_remove s l ++ list_remove s k.
Proof. apply filter_app. Qed.

(** ** [MCentral_Free] under the invariant: the push *)

Section Free_push.
Variables (st : State) (s : Z) (sp : MSpan) (v : Z).
Hypothesis HInv : Inv st.
Hypothesis Hs : s ∈ owned (central st).
Hypothesis Hok : span_ok st s sp.
Hypothesis Hv : v ∈ span_slots (sizeclass (central st)) sp.
Hypothesis Hnot : v ∉ flist st s.

Let st' := free_push s sp v st.
Let sp' := pushed_span sp v.

Lemma free_push_freelist : freelist sp = 0 ↔ flist st s = [].
Proof.
  pose proof (so_chain _ _ _ Hok) as Hch. split.
  - intros H0. rewrite H0 in Hch. eauto using chain_nil_inv.
  - intros Hl. rewrite Hl in Hch. done.
Qed.

Lemma free_push_ref : ref sp ≠ 0%N.
Proof. eapply span_ok_ref; eauto using inv_geo. Qed.

Lemma free_push_v : v ≠ 0 ∧ lookup_span st v = s.
Proof.
  destruct (span_ok_lookup st s sp v) as [? ?]; eauto using inv_geo.
Qed.

Lemma free_push_where :
  if decide (flist st s = [])
  then s ∈ empty (central st) ∧ s ∉ nonempty (central st)
  else s ∈ nonempty (central st) ∧ s ∉ empty (central st).
Proof.
  pose proof (inv_nodup _ HInv) as Hnd. unfold owned in *.
  apply NoDup_app in Hnd as (_ & Hdisj & _).
  apply elem_of_app in Hs.
  case_decide as Hl.
  - assert (s ∉ nonempty (central st)) as Hn.
    { intros Hin. by apply (inv_nonempty _ HInv) in Hin. }
    tauto.
  - assert (s ∉ empty (central st)) as Hn.
    { intros Hin. by apply (inv_empty _ HInv) in Hin. }
    tauto.
Qed.

Lemma free_push_central :
  central st' =
    if decide (flist st s = [])
    then mkMCentral (sizeclass (central st)) (s :: nonempty (central st))
                    (list_remove s (empty (central st)))
                    (nfree (central st) + 1)
    else set_nfree (nfree (central st) + 1) (central st).
Proof.
  pose proof free_push_where as Hw.
  unfold st', free_push. cbn [central].
  case_decide as Hl.
  - apply free_push_freelist in Hl as ->. simpl.
    by rewrite list_remove_notin by tauto.
  - destruct (Z.eqb_spec (freelist sp) 0) as [H0|H0]; [|done].
    by apply free_push_freelist in H0.
Qed.

Lemma free_push_sizeclass :
  sizeclass (central st') = sizeclass (central st).
Proof. rewrite free_push_central. by case_decide. Qed.

Lemma free_push_nfree : nfree (central st') = nfree (central st) + 1.
Proof. rewrite free_push_central. by case_decide. Qed.

Lemma free_push_owned : owned (central st') ≡ₚ owned (central st).
Proof.
  pose proof free_push_where as Hw.
  rewrite free_push_central. case_decide; [|done].
  unfold owned. cbn [nonempty empty]. simpl.
  rewrite Permutation_middle. apply Permutation_app_head.
  apply list_remove_Permutation; [|tauto].
  pose proof (inv_nodup _ HInv) as Hnd.
  by apply NoDup_app in Hnd as (_ & _ & ?).
Qed.

Lemma free_push_nonempty x :
  x ∈ nonempty (central st') ↔ x = s ∨ x ∈ nonempty (central st).
Proof.
  pose proof free_push_where as Hw.
  rewrite free_push_central. case_decide; cbn [nonempty set_nfree].
  - by rewrite elem_of_cons.
  - split; [tauto|]. intros [->|?]; tauto.
Qed.

Lemma free_push_empty x :
  x ∈ empty (central st') ↔ x ≠ s ∧ x ∈ empty (central st).
Proof.
  pose proof free_push_where as Hw.
  rewrite free_push_central. case_decide; cbn [empty set_nfree].
  - rewrite elem_of_list_remove. tauto.
  - split; [|tauto]. intros Hx. split; [|done]. intros ->. tauto.
Qed.

Lemma free_push_lookup_s : allspans (mheap st') !! s = Some sp'.
Proof. unfold st', free_push. cbn. by rewrite lookup_insert_eq. Qed.

Lemma free_push_lookup_other s0 :
  s0 ≠ s → allspans (mheap st') !! s0 = allspans (mheap st) !! s0.
Proof. intros H. unfold st', free_push. cbn. by rewrite lookup_insert_ne. Qed.

Lemma free_push_span_s : span_ok st' s sp' ∧ flist st' s = v :: flist st s.
Proof.
  destruct free_push_v as [Hv0 _].
  eapply (span_ok_update st st' s sp sp'); try done.
  - apply free_push_sizeclass.
  - apply free_push_lookup_s.
  - unfold st', free_push. cbn [mem sp' pushed_span freelist].
    apply chain_push; [done..|]. apply Hok.
  - intros a [->|Ha]%elem_of_cons; [done|]. by apply Hok.
  - pose proof (so_count _ _ _ Hok) as Hct. pose proof free_push_ref.
    cbn [length sp' pushed_span ref]. lia.
Qed.

Lemma free_push_span_other s0 sp0 :
  s0 ∈ owned (central st) → s0 ≠ s → span_ok st s0 sp0 →
  span_ok st' s0 sp0 ∧ flist st' s0 = flist st s0.
Proof.
  intros Hs0 Hne Hok0.
  eapply (span_ok_frame st st' s0 sp0); try done.
  - apply free_push_sizeclass.
  - rewrite free_push_lookup_other by done. apply Hok0.
  - intros a Ha. unfold st', free_push. cbn [mem].
    apply lookup_insert_ne. intros ->. apply Hne.
    eapply (span_ok_inj st s0 sp0 s sp a); eauto using inv_geo.
    by apply Hok0.
Qed.

Lemma free_push_flist_other s0 :
  s0 ∈ owned (central st) → s0 ≠ s → flist st' s0 = flist st s0.
Proof.
  intros Hs0 Hne. destruct (inv_span _ HInv s0 Hs0) as [sp0 Hok0].
  by apply (free_push_span_other s0 sp0).
Qed.

Lemma free_push_Inv : Inv st'.
Proof.
  destruct free_push_span_s as [Hoks Hfs].
  pose proof free_push_owned as Hperm.
  constructor.
  - rewrite free_push_sizeclass. apply HInv.
  - apply HInv.
  - apply HInv.
  - rewrite Hperm. apply HInv.
  - intros s0 Hs0. rewrite Hperm in Hs0.
    destruct (decide (s0 = s)) as [->|Hne0]; [eauto|].
    destruct (inv_span _ HInv s0 Hs0) as [sp0 Hok0].
    exists sp0. by apply free_push_span_other.
  - intros s0 [->|Hin]%free_push_nonempty; [by rewrite Hfs|].
    destruct (decide (s0 = s)) as [->|Hne0]; [by rewrite Hfs|].
    rewrite free_push_flist_other; [by apply HInv|apply elem_of_app; by left|done].
  - intros s0 [Hne0 Hin]%free_push_empty.
    rewrite free_push_flist_other; [by apply HInv|apply elem_of_app; by right|done].
Qed.

Lemma free_push_sum_free : sum_free st' = sum_free st + 1.
Proof.
  destruct free_push_span_s as [_ Hfs].
  unfold sum_free. rewrite free_push_owned.
  pose proof (sum_list_with_change
    (λ s0, length (flist st s0)) (λ s0, length (flist st' s0))
    (owned (central st)) s (inv_nodup _ HInv) Hs) as H.
  simpl in H. rewrite Hfs in H. simpl in H.
  assert (∀ x, x ∈ owned (central st) → x ≠ s →
               length (flist st' x) = length (flist st x)) as Hoth.
  { intros x Hx Hne. by rewrite free_push_flist_other. }
  specialize (H Hoth). lia.
Qed.

Lemma free_push_live x : live st' x ↔ live st x ∧ x ≠ v.
Proof.
  destruct free_push_span_s as [_ Hfs].
  unfold live. setoid_rewrite free_push_owned.
  rewrite free_push_sizeclass. split.
  - intros (s0 & sp0 & Hs0 & Hsp0 & Hx & Hnotx).
    destruct (decide (s0 = s)) as [->|Hne0].
    + rewrite free_push_lookup_s in Hsp0. injection Hsp0 as <-.
      rewrite Hfs in Hnotx. apply not_elem_of_cons in Hnotx as [Hxv Hnotx].
      split; [|done]. exists s, sp. split_and!; try done. apply Hok.
    + rewrite free_push_lookup_other in Hsp0 by done.
      rewrite free_push_flist_other in Hnotx by done.
      split; [eauto 10|]. intros ->. apply Hne0.
      pose proof (Inv_span_lookup _ _ _ HInv Hs0 Hsp0) as Hok0.
      eapply (span_ok_inj st s0 sp0 s sp v); eauto using inv_geo.
  - intros [(s0 & sp0 & Hs0 & Hsp0 & Hx & Hnotx) Hxv].
    destruct (decide (s0 = s)) as [->|Hne0].
    + exists s, sp'. split_and!; try done.
      * apply free_push_lookup_s.
      * pose proof (so_lookup _ _ _ Hok). 
        assert (sp0 = sp) as -> by congruence. done.
      * rewrite Hfs. by intros [?|?]%elem_of_cons.
    + exists s0, sp0. rewrite free_push_lookup_other by done.
      by rewrite free_push_flist_other by done.
Qed.

Lemma free_push_stable : stable st st'.
Proof.
  constructor; try done; try lia.
  - apply free_push_sizeclass.
  - intros s0 sp0 _ Hsp0. destruct (decide (s0 = s)) as [->|Hne0].
    + exists sp'. rewrite free_push_lookup_s.
      pose proof (so_lookup _ _ _ Hok). assert (sp0 = sp) as -> by congruence.
      done.
    + exists sp0. by rewrite free_push_lookup_other.
Qed.

Lemma free_push_settled : ref sp ≠ 1%N → settled st → settled st'.
Proof.
  intros Hr Hset s0 sp0 Hs0 Hsp0. rewrite free_push_owned in Hs0.
  destruct (decide (s0 = s)) as [->|Hne0].
  - rewrite free_push_lookup_s in Hsp0. injection Hsp0 as <-.
    pose proof free_push_ref. cbn. lia.
  - rewrite free_push_lookup_other in Hsp0 by done. eauto.
Qed.

Lemma free_push_others_settled s0 sp0 :
  settled st → s0 ∈ owned (central st') → s0 ≠ s →
  allspans (mheap st') !! s0 = Some sp0 → ref sp0 ≠ 0%N.
Proof.
  intros Hset Hs0 Hne0 Hsp0. rewrite free_push_owned in Hs0.
  rewrite free_push_lookup_other in Hsp0 by done. eauto.
Qed.
End Free_push.

(** ** [MCentral_Free] under the invariant: the return of a span *)

Section Release.
Variables (st : State) (s : Z) (sp : MSpan).
Hypothesis HInv : Inv st.
Hypothesis Hs : s ∈ owned (central st).
Hypothesis Hok : span_ok st s sp.
Hypothesis Href : ref sp = 0%N.

Let st' := release_span s sp st.
Let sc := sizeclass (central st).

Lemma release_flist_length : Z.of_nat (length (flist st s)) = class_nobj sc.
Proof. pose proof (so_count _ _ _ Hok). unfold sc. lia. Qed.

Lemma release_full x : x ∈ span_slots sc sp → x ∈ flist st s.
Proof.
  intros Hx. destruct (decide (x ∈ flist st s)) as [|Hnot]; [done|].
  exfalso. eapply span_ok_ref; eauto using inv_geo.
Qed.

Lemma release_base_slot : span_base sp ∈ span_slots sc sp.
Proof.
  pose proof (class_nobj_pos sc (inv_geo _ HInv)).
  apply elem_of_slot_addrs. exists 0. lia.
Qed.

Lemma release_nobj :
  Z.quot (Z.shiftl (npages sp) PageShift) (int32 (class_to_size sc)) =
  class_nobj sc.
Proof.
  pose proof (inv_geo _ HInv) as Hgeo. fold sc in Hgeo.
  rewrite (so_npages _ _ _ Hok). fold sc.
  destruct Hgeo. rewrite int32_id; [done|]. lia.
Qed.

Lemma release_sizeclass : sizeclass (central st') = sc.
Proof. done. Qed.

Lemma release_nfree : nfree (central st') = nfree (central st) - class_nobj sc.
Proof.
  unfold st', release_span. cbn [central nfree]. f_equal. apply release_nobj.
Qed.

Lemma release_owned : owned (central st') = list_remove s (owned (central st)).
Proof. unfold owned. by rewrite list_remove_app. Qed.

Lemma release_owned_elem x :
  x ∈ owned (central st') ↔ x ∈ owned (central st) ∧ x ≠ s.
Proof. rewrite release_owned. apply elem_of_list_remove. Qed.

Lemma release_lookup_other s0 :
  s0 ≠ s → allspans (mheap st') !! s0 = allspans (mheap st) !! s0.
Proof. intros H. unfold st', release_span. cbn. by rewrite lookup_insert_ne. Qed.

Lemma release_span_other s0 sp0 :
  s0 ≠ s → span_ok st s0 sp0 →
  span_ok st' s0 sp0 ∧ flist st' s0 = flist st s0.
Proof.
  intros Hne Hok0.
  eapply (span_ok_frame st st' s0 sp0); try done.
  - rewrite release_lookup_other by done. apply Hok0.
  - intros p Hp. unfold st', release_span. cbn [mheap pagemap].
    rewrite unmap_pages_lookup. case_decide as Hp'; [|done].
    exfalso. apply Hne.
    pose proof (so_map _ _ _ Hok0 p Hp). pose proof (so_map _ _ _ Hok p Hp').
    congruence.
  - intros a Ha. unfold st', release_span. cbn [mem].
    apply lookup_insert_ne. intros <-. apply Hne.
    eapply (span_ok_inj st s0 sp0 s sp (span_base sp)); eauto using inv_geo.
    + by apply Hok0.
    + apply release_base_slot.
Qed.

Lemma release_flist_other s0 :
  s0 ∈ owned (central st) → s0 ≠ s → flist st' s0 = flist st s0.
Proof.
  intros Hs0 Hne. destruct (inv_span _ HInv s0 Hs0) as [sp0 Hok0].
  by apply (release_span_other s0 sp0).
Qed.

Lemma release_Inv : Inv st'.
Proof.
  constructor.
  - apply HInv.
  - apply HInv.
  - apply HInv.
  - rewrite release_owned. apply NoDup_list_remove, HInv.
  - intros s0 [Hs0 Hne]%release_owned_elem.
    destruct (inv_span _ HInv s0 Hs0) as [sp0 Hok0].
    exists sp0. by apply release_span_other.
  - intros s0.
    change (nonempty (central st'))
      with (list_remove s (nonempty (central st))).
    intros [Hin Hne]%elem_of_list_remove.
    rewrite release_flist_other; [by apply HInv|apply elem_of_app; by left|done].
  - intros s0.
    change (empty (central st')) with (list_remove s (empty (central st))).
    intros [Hin Hne]%elem_of_list_remove.
    rewrite release_flist_other; [by apply HInv|apply elem_of_app; by right|done].
Qed.

Lemma release_sum_free : sum_free st' = sum_free st - class_nobj sc.
Proof.
  unfold sum_free. rewrite release_owned.
  rewrite (sum_list_with_remove (λ s0, length (flist st s0)) s
             (owned (central st))) by (done || apply HInv).
  pose proof release_flist_length as Hlen.
  rewrite (sum_list_with_ext_in (λ s0, length (flist st' s0))
                                (λ s0, length (flist st s0))); [lia|].
  intros x [Hx Hne]%elem_of_list_remove. by rewrite release_flist_other.
Qed.

Lemma release_live x : live st' x ↔ live st x.
Proof.
  unfold live. rewrite release_sizeclass. fold sc. split.
  - intros (s0 & sp0 & [Hs0 Hne]%release_owned_elem & Hsp0 & Hx & Hnot).
    rewrite release_lookup_other in Hsp0 by done.
    rewrite release_flist_other in Hnot by done. eauto 10.
  - intros (s0 & sp0 & Hs0 & Hsp0 & Hx & Hnot).
    destruct (decide (s0 = s)) as [->|Hne].
    + exfalso. pose proof (so_lookup _ _ _ Hok).
      assert (sp0 = sp) as -> by congruence.
      by apply Hnot, release_full.
    + exists s0, sp0. rewrite release_owned_elem.
      rewrite release_lookup_other by done.
      by rewrite release_flist_other by done.
Qed.

Lemma release_stable : stable st st'.
Proof.
  constructor; try done; try lia.
  - intros s0 sp0 _ Hsp0. destruct (decide (s0 = s)) as [->|Hne0].
    + exists (set_freelist 0 sp). unfold st', release_span. cbn.
      rewrite lookup_insert_eq.
      pose proof (so_lookup _ _ _ Hok). assert (sp0 = sp) as -> by congruence.
      done.
    + exists sp0. by rewrite release_lookup_other.
  - intros p x _. unfold st', release_span. cbn [mheap pagemap].
    rewrite unmap_pages_lookup. by case_decide.
Qed.

Lemma release_settled :
  (∀ s0 sp0, s0 ∈ owned (central st) → s0 ≠ s →
             allspans (mheap st) !! s0 = Some sp0 → ref sp0 ≠ 0%N) →
  settled st'.
Proof.
  intros Hset s0 sp0 [Hs0 Hne]%release_owned_elem Hsp0.
  rewrite release_lookup_other in Hsp0 by done. eauto.
Qed.

Lemma release_unmapped v :
  v ∈ span_slots sc sp → lookup_span st' v = 0.
Proof.
  intros Hv.
  destruct (slot_page _ (inv_geo _ HInv) sp v) as [_ Hpg];
    [apply Hok..|done|].
  unfold lookup_span, st', release_span. cbn [mheap pagemap].
  rewrite unmap_pages_lookup. by rewrite decide_True.
Qed.
End Release.

(** ** States that differ in the counter and the trace only *)

Section Same_pool.
Variables (st st' : State).
Hypothesis Hsame : same_pool st st'.

Lemma same_pool_flist s : flist st' s = flist st s.
Proof.
  destruct Hsame as [Hm Hh _ _ _]. unfold flist, free_objects.
  by rewrite Hm, Hh.
Qed.

Lemma same_pool_owned : owned (central st') = owned (central st).
Proof. destruct Hsame as [_ _ _ Hn He]. unfold owned. by rewrite Hn, He. Qed.

Lemma same_pool_span s sp : span_ok st s sp → span_ok st' s sp.
Proof.
  pose proof (same_pool_flist s) as Hfl.
  destruct Hsame as [Hm Hh Hsc Hn He].
  intros []. constructor; rewrite ?Hfl, ?Hm, ?Hh, ?Hsc; done.
Qed.

Lemma same_pool_Inv : Inv st → Inv st'.
Proof.
  pose proof same_pool_owned as Ho. pose proof same_pool_flist as Hfl.
  pose proof same_pool_span as Hspan.
  destruct Hsame as [Hm Hh Hsc Hn He].
  intros []. constructor; rewrite ?Ho, ?Hh, ?Hsc; try done.
  - intros s Hs. destruct (inv_span0 s Hs) as [sp Hok]. eauto.
  - intros s. rewrite Hfl, Hn. auto.
  - intros s. rewrite Hfl, He. auto.
Qed.

Lemma same_pool_avail : avail st' = avail st.
Proof.
  pose proof same_pool_flist as Hfl.
  destruct Hsame. unfold avail. rewrite sp_nonempty0. f_equal.
  apply list_fmap_ext. intros ???. apply Hfl.
Qed.

Lemma same_pool_sum_free : sum_free st' = sum_free st.
Proof.
  unfold sum_free. rewrite same_pool_owned. f_equal.
  apply sum_list_with_ext_in. intros ? _. by rewrite same_pool_flist.
Qed.

Lemma same_pool_live x : live st' x ↔ live st x.
Proof.
  pose proof same_pool_flist as Hfl.
  unfold live. rewrite same_pool_owned. destruct Hsame.
  rewrite sp_mheap0, sp_sizeclass0.
  by setoid_rewrite Hfl.
Qed.

Lemma same_pool_settled : settled st → settled st'.
Proof.
  unfold settled. rewrite same_pool_owned. destruct Hsame.
  by rewrite sp_mheap0.
Qed.

Lemma same_pool_stable : stable st st'.
Proof.
  destruct Hsame. constructor; rewrite ?sp_mheap0; eauto; lia.
Qed.
End Same_pool.

Lemma same_pool_log e st : same_pool st (log e st).
Proof. done. Qed.

Lemma same_pool_nfree f st :
  same_pool st (set_central (λ c, set_nfree (f c) c) st).
Proof. done. Qed.

(** ** [MCentral_Grow] under the invariant *)

Lemma MCentral_Grow_fail st :
  Inv st →
  heap_can_grant (mheap st)
    (class_to_allocnpages (sizeclass (central st))) = false →
  MCentral_Grow st =
    Ok false (grow_fail (class_to_allocnpages (sizeclass (central st))) st).
Proof.
  intros HInv Hg. pose proof (inv_geo _ HInv) as Hgeo.
  rewrite (MCentral_Grow_unfold st _ _ _ (MGetSizeClassInfo_ok _ Hgeo));
    try (destruct HInv, Hgeo; lia).
  by rewrite Hg.
Qed.

Section Grow.
Variable st : State.
Hypothesis HInv : Inv st.

Let sc := sizeclass (central st).
Let size := class_to_size sc.
Let np := class_to_allocnpages sc.
Let n := class_nobj sc.

Hypothesis Hgrant : heap_can_grant (mheap st) np = true.

Let st' := grow_ok size np n st.
Let s := nspan (mheap st).
Let sp := grow_span size np n st.

Lemma grow_unfold : MCentral_Grow st = Ok true st'.
Proof.
  pose proof (inv_geo _ HInv) as Hgeo.
  rewrite (MCentral_Grow_unfold st _ _ _ (MGetSizeClassInfo_ok _ Hgeo));
    try (destruct HInv, Hgeo; lia).
  fold sc np. by rewrite Hgrant.
Qed.

Lemma grow_slots : span_slots sc sp = slot_addrs (Z.to_nat n) size
                      (Z.shiftl (arena_used (mheap st)) PageShift).
Proof. done. Qed.

Lemma grow_freelist : freelist sp = hd 0 (span_slots sc sp).
Proof. done. Qed.

Lemma grow_s_fresh : s ∉ owned (central st).
Proof.
  intros Hs. destruct (inv_span _ HInv s Hs) as [sp0 Hok].
  pose proof (so_ptr _ _ _ Hok). unfold s in *. lia.
Qed.

Lemma grow_slot_page a :
  a ∈ span_slots sc sp →
  0 < a ∧ arena_used (mheap st) ≤ Z.shiftr a PageShift.
Proof.
  intros Ha.
  destruct (slot_page sc (inv_geo _ HInv) sp a) as [? [? ?]];
    [apply HInv|done|done|]. done.
Qed.

Lemma grow_slots_fresh a s0 :
  a ∈ span_slots sc sp → s0 ∈ owned (central st) → a ∉ flist st s0.
Proof.
  intros Ha Hs0 Hin. destruct (inv_span _ HInv s0 Hs0) as [sp0 Hok].
  destruct (grow_slot_page a Ha) as [_ Hpg].
  destruct (slot_page sc (inv_geo _ HInv) sp0 a) as [_ [_ Hpg']];
    [apply Hok..|by apply Hok|].
  pose proof (so_arena _ _ _ Hok). lia.
Qed.

Lemma grow_lookup_s : allspans (mheap st') !! s = Some sp.
Proof. unfold st', grow_ok. cbn. by rewrite lookup_insert_eq. Qed.

Lemma grow_lookup_other s0 :
  s0 ≠ s → allspans (mheap st') !! s0 = allspans (mheap st) !! s0.
Proof. intros H. unfold st', grow_ok. cbn. by rewrite lookup_insert_ne. Qed.

Lemma grow_chain : chain (mem st') (freelist sp) (span_slots sc sp).
Proof.
  pose proof (inv_geo _ HInv) as Hgeo.
  unfold st', grow_ok. cbn [mem]. rewrite grow_freelist.
  apply carve_mem_chain.
  - apply NoDup_slot_addrs, Hgeo.
  - intros a Ha. destruct (grow_slot_page a Ha). lia.
Qed.

Lemma grow_flist_s : flist st' s = span_slots sc sp.
Proof. eapply flist_intro; [apply grow_lookup_s|apply grow_chain]. Qed.

Lemma grow_span_s : span_ok st' s sp.
Proof.
  pose proof (inv_geo _ HInv) as Hgeo.
  pose proof (class_nobj_pos _ Hgeo).
  constructor; rewrite ?grow_flist_s.
  - apply grow_lookup_s.
  - unfold st', grow_ok, s. cbn. destruct HInv. lia.
  - done.
  - apply HInv.
  - unfold st', grow_ok. cbn. lia.
  - intros p Hp. unfold st', grow_ok. cbn [mheap pagemap].
    rewrite map_pages_lookup. by rewrite decide_True.
  - apply grow_chain.
  - done.
  - rewrite span_slots_length by done.
    change (Z.of_N (ref sp)) with 0.
    change (sizeclass (central st')) with sc. lia.
Qed.

Lemma grow_span_other s0 sp0 :
  s0 ∈ owned (central st) → span_ok st s0 sp0 →
  span_ok st' s0 sp0 ∧ flist st' s0 = flist st s0.
Proof.
  intros Hs0 Hok0.
  assert (s0 ≠ s) as Hne by (intros ->; by apply grow_s_fresh).
  pose proof (inv_geo _ HInv) as Hgeo.
  eapply (span_ok_frame st st' s0 sp0); try done.
  - rewrite grow_lookup_other by done. apply Hok0.
  - unfold st', grow_ok. cbn. lia.
  - pose proof (geo_npages _ Hgeo) as Hnp. change (0 < np) in Hnp.
    unfold st', grow_ok. cbn. lia.
  - intros p Hp. unfold st', grow_ok. cbn [mheap pagemap].
    rewrite map_pages_lookup. rewrite decide_False; [done|].
    pose proof (so_arena _ _ _ Hok0). lia.
  - intros a Ha. unfold st', grow_ok. cbn [mem].
    apply carve_mem_other. intros Hin.
    by apply (grow_slots_fresh a s0).
Qed.

Lemma grow_flist_other s0 :
  s0 ∈ owned (central st) → flist st' s0 = flist st s0.
Proof.
  intros Hs0. destruct (inv_span _ HInv s0 Hs0) as [sp0 Hok0].
  by apply (grow_span_other s0 sp0).
Qed.

Lemma grow_owned : owned (central st') = s :: owned (central st).
Proof. done. Qed.

Lemma grow_slots_nonempty : span_slots sc sp ≠ [].
Proof.
  pose proof (class_nobj_pos _ (inv_geo _ HInv)) as Hn.
  intros Heq%(f_equal length). unfold span_slots in Heq.
  rewrite length_slot_addrs in Heq. simpl in Heq. fold sc in Hn. lia.
Qed.

Lemma grow_Inv : Inv st'.
Proof.
  constructor.
  - apply HInv.
  - unfold st', grow_ok. cbn. destruct HInv. lia.
  - pose proof (geo_npages _ (inv_geo _ HInv)) as Hnp.
    change (0 < np) in Hnp.
    unfold st', grow_ok. cbn. destruct HInv. lia.
  - rewrite grow_owned. constructor; [apply grow_s_fresh|apply HInv].
  - intros s0. rewrite grow_owned. intros [->|Hs0]%elem_of_cons.
    + exists sp. apply grow_span_s.
    + destruct (inv_span _ HInv s0 Hs0) as [sp0 Hok0].
      exists sp0. by apply grow_span_other.
  - intros s0.
    change (nonempty (central st')) with (s :: nonempty (central st)).
    intros [->|Hs0]%elem_of_cons.
    + rewrite grow_flist_s. apply grow_slots_nonempty.
    + rewrite grow_flist_other; [by apply HInv|apply elem_of_app; by left].
  - intros s0.
    change (empty (central st')) with (empty (central st)). intros Hs0.
    rewrite grow_flist_other; [by apply HInv|apply elem_of_app; by right].
Qed.

Lemma grow_avail : avail st' = span_slots sc sp ++ avail st.
Proof.
  unfold avail at 1.
  change (nonempty (central st')) with (s :: nonempty (central st)).
  rewrite fmap_cons. rewrite grow_flist_s.
  cbn [concat]. f_equal. unfold avail. f_equal.
  apply list_fmap_ext. intros i x Hx. apply grow_flist_other.
  apply elem_of_app. left. by eapply list_elem_of_lookup_2.
Qed.

Lemma grow_sum_free : sum_free st' = sum_free st + n.
Proof.
  pose proof (class_nobj_pos _ (inv_geo _ HInv)) as Hn.
  unfold sum_free. rewrite grow_owned. cbn [sum_list_with].
  rewrite grow_flist_s, Nat2Z.inj_add, span_slots_length by done.
  rewrite (sum_list_with_ext_in (λ s0, length (flist st' s0))
                                (λ s0, length (flist st s0))); [unfold n; lia|].
  intros x Hx. by rewrite grow_flist_other.
Qed.

Lemma grow_nfree : nfree (central st') = nfree (central st) + n.
Proof. done. Qed.

Lemma grow_live x : live st' x ↔ live st x.
Proof.
  unfold live. rewrite grow_owned.
  change (sizeclass (central st')) with sc. fold sc. split.
  - intros (s0 & sp0 & [->|Hs0]%elem_of_cons & Hsp0 & Hx & Hnot).
    + rewrite grow_lookup_s in Hsp0. injection Hsp0 as <-.
      by rewrite grow_flist_s in Hnot.
    + assert (s0 ≠ s) as Hne by (intros ->; by apply grow_s_fresh).
      rewrite grow_lookup_other in Hsp0 by done.
      rewrite grow_flist_other in Hnot by done. eauto 10.
  - intros (s0 & sp0 & Hs0 & Hsp0 & Hx & Hnot).
    assert (s0 ≠ s) as Hne by (intros ->; by apply grow_s_fresh).
    exists s0, sp0. rewrite grow_lookup_other by done.
    rewrite grow_flist_other by done. split_and!; try done. by right.
Qed.

Lemma grow_stable : stable st st'.
Proof.
  pose proof (geo_npages _ (inv_geo _ HInv)) as Hnp.
  change (0 < np) in Hnp.
  constructor; try done.
  - unfold st', grow_ok. cbn. lia.
  - unfold st', grow_ok. cbn. lia.
  - intros s0 sp0 Hs0 Hsp0. exists sp0. split; [|done].
    rewrite grow_lookup_other; [done|]. unfold s. lia.
  - intros p x Hp. unfold st', grow_ok. cbn [mheap pagemap].
    rewrite map_pages_lookup. rewrite decide_False; [done|]. lia.
Qed.
End Grow.

(** ** [MCentral_Free] of an allocated object *)

Lemma span_base_pos sp : 0 ≤ PageShift → 0 < start sp → 0 < span_base sp.
Proof.
  intros Hps Hst. unfold span_base. rewrite Z.shiftl_mul_pow2 by done.
  apply Z.mul_pos_pos; [done|]. by apply Z.pow_pos_nonneg.
Qed.

Lemma MCentral_Free_live st v :
  Inv st → live st v →
  ∃ st', MCentral_Free v st = Ok tt st' ∧ free_post st st' v.
Proof.
  intros HInv (s & sp & Hs & Hsp & Hv & Hnot).
  pose proof (Inv_span_lookup _ _ _ HInv Hs Hsp) as Hok.
  pose proof (inv_geo _ HInv) as Hgeo.
  assert (v ≠ 0 ∧ lookup_span st v = s) as [Hv0 Hlk]
    by (eapply free_push_v; eauto).
  assert (ref sp ≠ 0%N) as Href by (eapply free_push_ref; eauto).
  pose proof (so_ptr _ _ _ Hok) as Hptr.
  rewrite (MCentral_Free_unfold v st sp); rewrite ?Hlk; [|lia|done|done].
  apply Z.eqb_neq in Hv0 as Hv0'. rewrite Hv0'.
  set (st1 := free_push s sp v st).
  set (sp1 := pushed_span sp v).
  assert (Inv st1) as HInv1 by (eapply free_push_Inv; eauto).
  assert (sum_free st1 = sum_free st + 1) as Hsum1
    by (eapply free_push_sum_free; eauto).
  assert (nfree (central st1) = nfree (central st) + 1) as Hnf1
    by (eapply free_push_nfree; eauto).
  assert (∀ x, live st1 x ↔ live st x ∧ x ≠ v) as Hlive1
    by (intros x; eapply free_push_live; eauto).
  assert (stable st st1) as Hst1 by (eapply free_push_stable; eauto).
  destruct (N.eqb_spec (ref sp) 1) as [Hr1|Hr1].
  - pose proof (span_base_pos sp (geo_shift _ Hgeo) (so_start _ _ _ Hok)) as Hb.
    destruct (Z.eqb_spec (span_base sp) 0) as [|_]; [lia|].
    rewrite int32_id by (destruct Hgeo; lia).
    destruct (Z.eqb_spec (class_to_size (sizeclass (central st))) 0) as [|_];
      [destruct Hgeo; lia|].
    eexists. split; [done|]. unfold free_release. fold st1 sp1.
    assert (span_ok st1 s sp1 ∧ flist st1 s = v :: flist st s) as [Hok1 Hfl1]
      by (eapply free_push_span_s; eauto).
    assert (s ∈ owned (central st1)) as Hs1.
    { unfold st1. erewrite free_push_owned; eauto. }
    assert (ref sp1 = 0%N) as Href1 by (cbn; lia).
    assert (sizeclass (central st1) = sizeclass (central st)) as Hsc1.
    { eapply free_push_sizeclass; eauto. }
    constructor.
    + by apply release_Inv.
    + rewrite release_nfree, release_sum_free by done. lia.
    + intros x. rewrite release_live by done. apply Hlive1.
    + intros Hset. apply release_settled. intros s0 sp0 Hs0 Hne0 Hsp0.
      eapply (free_push_others_settled st s sp v); eauto.
    + eapply stable_trans; [done|]. by apply release_stable.
    + intros a Ha. rewrite release_live in Ha by done.
      pose proof (live_not_free _ _ HInv1 Ha s Hs1) as Hnf.
      apply Hlive1 in Ha as [Ha Hav].
      unfold release_span. cbn [mem].
      rewrite lookup_insert_ne.
      * unfold st1, free_push. cbn [mem]. by rewrite lookup_insert_ne.
      * intros <-. apply Hnf.
        apply (release_full st1 s sp1 HInv1 Hok1 Href1).
        eapply release_base_slot; eauto.
  - eexists. split; [done|]. constructor; try done.
    + lia.
    + eapply free_push_settled; eauto.
    + intros a [Ha Hav]%Hlive1. unfold st1, free_push. cbn [mem].
      by rewrite lookup_insert_ne.
Qed.

(** ** The loop of [MCentral_FreeList] terminates *)

Lemma total_ref_insert (m : gmap Z MSpan) s sp sp' :
  m !! s = Some sp →
  (map_fold (λ _ sp acc, N.to_nat (ref sp) + acc) 0 (<[s := sp']> m)
   + N.to_nat (ref sp) =
   map_fold (λ _ sp acc, N.to_nat (ref sp) + acc) 0 m
   + N.to_nat (ref sp'))%nat.
Proof.
  intros Hsp.
  remember (delete s m) as m0 eqn:E.
  assert (m0 !! s = None) as Hnone by (subst m0; apply lookup_delete_eq).
  assert (m = <[s := sp]> m0) as Hm.
  { subst m0. by rewrite insert_delete_eq, insert_id. }
  clear E Hsp. subst m. rewrite insert_insert_eq.
  rewrite !map_fold_insert_L; try done; [lia|..]; intros; lia.
Qed.

Lemma MCentral_Free_total_ref v st st' :
  MCentral_Free v st = Ok tt st' →
  (total_ref (mheap st') + 1 = total_ref (mheap st))%nat.
Proof.
  destruct (decide (lookup_span st v = 0)) as [Hs|Hs].
  { rewrite MCentral_Free_invalid; [done|by left]. }
  destruct (allspans (mheap st) !! lookup_span st v) as [sp|] eqn:Hsp.
  2:{ unfold MCentral_Free. munfold. fold (lookup_span st v).
      apply Z.eqb_neq in Hs. rewrite Hs. munfold. by rewrite Hsp. }
  destruct (decide (ref sp = 0%N)) as [Hr|Hr].
  { rewrite MCentral_Free_invalid; [done|]. right. eauto. }
  rewrite (MCentral_Free_unfold v st sp) by done.
  repeat case_match; try done; intros [= <-];
    unfold total_ref, free_release, release_span, free_push; cbn.
  - rewrite insert_insert_eq.
    pose proof (total_ref_insert (allspans (mheap st)) _ sp
                  (set_freelist 0 (pushed_span sp v)) Hsp) as Hti.
    cbn in Hti. lia.
  - pose proof (total_ref_insert (allspans (mheap st)) _ sp
                  (pushed_span sp v) Hsp) as Hti.
    cbn in Hti. lia.
Qed.

Lemma load_Ok v st w st' : load v st = Ok w st' → st' = st ∧ v ≠ 0 ∧ mem st !! v = Some w.
Proof.
  unfold load. destruct (Z.eqb_spec v 0); [done|].
  destruct (mem st !! v); [|done]. by intros [= -> ->].
Qed.

Lemma FreeList_loop_total fuel v st :
  (total_ref (mheap st) < fuel)%nat → FreeList_loop fuel v st ≠ OutOfFuel.
Proof.
  revert v st. induction fuel as [|fuel IH]; intros v st Hf; [lia|].
  simpl. destruct (v =? 0); [done|].
  unfold mbind, M_bind.
  destruct (load v st) as [w st1| | |] eqn:Hl; try done.
  2:{ revert Hl. unfold load. by repeat case_match. }
  apply load_Ok in Hl as (-> & _ & _).
  destruct (MCentral_Free v st) as [[] st2| | |] eqn:Hfree; try done.
  - apply MCentral_Free_total_ref in Hfree. apply IH. lia.
  - revert Hfree. destruct (decide (lookup_span st v = 0)) as [Hs|Hs].
    { rewrite MCentral_Free_invalid; [done|by left]. }
    destruct (allspans (mheap st) !! lookup_span st v) as [sp|] eqn:Hsp.
    2:{ unfold MCentral_Free. munfold. fold (lookup_span st v).
        apply Z.eqb_neq in Hs. rewrite Hs. munfold. by rewrite Hsp. }
    destruct (decide (ref sp = 0%N)) as [Hr|Hr].
    { rewrite MCentral_Free_invalid; [done|]. right. eauto. }
    rewrite (MCentral_Free_unfold v st sp) by done.
    by repeat case_match.
Qed.

Lemma FreeList_loop_mono fuel fuel' v st :
  (fuel ≤ fuel')%nat → FreeList_loop fuel v st ≠ OutOfFuel →
  FreeList_loop fuel' v st = FreeList_loop fuel v st.
Proof.
  revert fuel' v st. induction fuel as [|fuel IH]; intros fuel' v st Hle.
  - simpl. destruct fuel'; simpl; destruct (v =? 0); done.
  - destruct fuel' as [|fuel']; [lia|]. simpl.
    destruct (v =? 0); [done|].
    unfold mbind, M_bind.
    destruct (load v st) as [w st1| | |]; try done.
    destruct (MCentral_Free v st1) as [[] st2| | |]; try done.
    apply IH. lia.
Qed.

(** ** [MCentral_FreeList] on a chain of allocated objects *)

Lemma free_list_post_nil st : Inv st → free_list_post st st [].
Proof.
  intros HInv. constructor; try done.
  - intros x. split; [|tauto]. intros H. split; [done|]. apply not_elem_of_nil.
  - apply stable_refl.
Qed.

Lemma free_list_post_cons st st1 st2 v l :
  free_post st st1 v → free_list_post st1 st2 l →
  free_list_post st st2 (v :: l).
Proof.
  intros [] []. constructor; try done.
  - lia.
  - intros x. rewrite flp_live0, fp_live0, not_elem_of_cons. tauto.
  - auto.
  - eauto using stable_trans.
Qed.

Lemma FreeList_loop_spec l st start :
  Inv st → chain (mem st) start l → (∀ x, x ∈ l → live st x) →
  ∃ st', FreeList_loop (length l) start st = Ok tt st' ∧
         free_all l st = Ok tt st' ∧
         free_list_post st st' l.
Proof.
  revert st start. induction l as [|v l IH]; intros st start HInv Hch Hlive.
  - simpl in Hch. subst. exists st. split_and!; try done.
    by apply free_list_post_nil.
  - pose proof (chain_NoDup _ _ _ Hch) as Hnd.
    apply NoDup_cons in Hnd as [Hvl Hnd].
    destruct Hch as (-> & Hv0 & q & Hq & Hch).
    destruct (MCentral_Free_live st v HInv) as (st1 & Hfree & Hpost).
    { apply Hlive. by left. }
    assert (∀ x, x ∈ l → live st1 x) as Hlive1.
    { intros x Hx. apply (fp_live _ _ _ Hpost). split.
      - apply Hlive. by right.
      - by intros ->. }
    destruct (IH st1 q (fp_Inv _ _ _ Hpost)) as (st2 & Hloop & Hall & Hpost2).
    { eapply chain_frame; [done|]. intros a Ha.
      by apply (fp_mem _ _ _ Hpost), Hlive1. }
    { done. }
    exists st2. split_and!.
    + cbn [length FreeList_loop]. apply Z.eqb_neq in Hv0. rewrite Hv0.
      unfold mbind, M_bind, load. rewrite Hv0, Hq, Hfree. done.
    + cbn [free_all]. unfold mbind, M_bind. by rewrite Hfree.
    + eauto using free_list_post_cons.
Qed.

Lemma MCentral_FreeList_unfold n start st :
  MCentral_FreeList n start st =
    let st0 := log (EvLock (central st) (allspans (mheap st))) st in
    match FreeList_loop (S (total_ref (mheap st))) start st0 with
    | Ok _ st1 =>
        Ok tt (log (EvUnlock (central st1) (allspans (mheap st1))) st1)
    | Throw msg st1 => Throw msg st1
    | Fault => Fault
    | OutOfFuel => OutOfFuel
    end.
Proof. unfold MCentral_FreeList. munfold. by repeat case_match. Qed.

Lemma free_list_post_same st0 st st' st1 l :
  same_pool st0 st → nfree (central st) = nfree (central st0) →
  free_list_post st st' l →
  same_pool st' st1 → nfree (central st1) = nfree (central st') →
  free_list_post st0 st1 l.
Proof.
  intros H0 Hn0 [] H1 Hn1. constructor.
  - by apply (same_pool_Inv st' st1).
  - rewrite (same_pool_sum_free st' st1), Hn1 by done.
    rewrite <- (same_pool_sum_free st0 st), <- Hn0 by done. done.
  - intros x. rewrite (same_pool_live st' st1) by done.
    rewrite <- (same_pool_live st0 st) by done. done.
  - intros Hset. apply (same_pool_settled st' st1); [done|].
    apply flp_settled0. by apply (same_pool_settled st0 st).
  - eapply stable_trans; [by apply same_pool_stable|].
    eapply stable_trans; [done|]. by apply same_pool_stable.
Qed.

Lemma MCentral_FreeList_spec n start st l :
  Inv st → chain (mem st) start l → (∀ x, x ∈ l → live st x) →
  ∃ st', MCentral_FreeList n start st = Ok tt st' ∧
         free_list_post st st' l.
Proof.
  intros HInv Hch Hlive.
  set (st0 := log (EvLock (central st) (allspans (mheap st))) st).
  assert (same_pool st st0) as Hsame by done.
  destruct (FreeList_loop_spec l st0 start) as (st1 & Hloop & _ & Hpost).
  { by apply (same_pool_Inv st st0). }
  { done. }
  { intros x Hx. apply (same_pool_live st st0); auto. }
  rewrite MCentral_FreeList_unfold. cbn zeta. fold st0.
  assert (FreeList_loop (S (total_ref (mheap st))) start st0 = Ok tt st1) as ->.
  { pose proof (FreeList_loop_total (S (total_ref (mheap st))) start st0) as Ht.
    destruct (Nat.le_gt_cases (length l) (S (total_ref (mheap st)))) as [Hle|Hgt].
    - rewrite (FreeList_loop_mono (length l)); [done|done|]. by rewrite Hloop.
    - rewrite <- (FreeList_loop_mono (S (total_ref (mheap st))) (length l));
        [done|lia|]. apply Ht. cbn. lia. }
  eexists. split; [done|].
  eapply (free_list_post_same st st0 st1); eauto. done.
Qed.

(** ** The loop of [MCentral_AllocList] *)

Lemma alloc_post_refl st : Inv st → alloc_post st st [].
Proof.
  intros HInv. constructor; try done.
  - simpl. lia.
  - intros x. split; [tauto|]. intros [?|?%elem_of_nil]; done.
  - intros x ?%elem_of_nil. done.
  - apply stable_refl.
Qed.

Lemma alloc_post_trans st st1 st2 l1 l2 :
  alloc_post st st1 l1 → alloc_post st1 st2 l2 → alloc_post st st2 (l1 ++ l2).
Proof.
  intros [] []. constructor; try congruence.
  - by rewrite ap_avail0, ap_avail1, app_assoc.
  - rewrite length_app. lia.
  - intros x. rewrite ap_live1, ap_live0, elem_of_app. tauto.
  - intros x [Hx|Hx]%elem_of_app; [by apply ap_fresh0|].
    intros Hl. apply (ap_fresh1 x Hx). apply ap_live0. by left.
  - auto.
  - eauto using stable_trans.
Qed.

Lemma alloc_post_pop st s rest sp v l' next :
  Inv st → nonempty (central st) = s :: rest → span_ok st s sp →
  flist st s = v :: l' → mem st !! v = Some next → chain (mem st) next l' →
  alloc_post st (alloc_pop s sp next st) [v].
Proof.
  intros HInv Hne Hok Hfl Hnext Hch.
  assert (s ∈ nonempty (central st)) as Hs by (rewrite Hne; by left).
  assert (s ∈ owned (central st)) as Hs' by (apply elem_of_app; by left).
  constructor; try done.
  - eapply alloc_pop_Inv; eauto.
  - eapply alloc_pop_avail; eauto.
  - erewrite alloc_pop_sum_free by eauto. simpl. lia.
  - eapply alloc_pop_nfree; eauto.
  - intros x. rewrite list_elem_of_singleton. eapply alloc_pop_live; eauto.
  - intros x ->%list_elem_of_singleton. eapply alloc_pop_not_live; eauto.
  - eapply alloc_pop_settled; eauto.
  - constructor; try done; try lia.
    + eapply alloc_pop_sizeclass; eauto.
    + intros s0 sp0 _ Hsp0. destruct (decide (s0 = s)) as [->|Hne0].
      * eexists. rewrite alloc_pop_lookup_s.
        pose proof (so_lookup _ _ _ Hok). assert (sp0 = sp) as -> by congruence.
        done.
      * exists sp0. by rewrite alloc_pop_lookup_other.
Qed.

Lemma alloc_post_store st a w :
  Inv st → live st a → alloc_post st (set_mem (insert a w) st) [].
Proof.
  intros HInv Ha. pose proof (live_not_free _ _ HInv Ha) as Hnf.
  constructor; try done.
  - by apply store_Inv.
  - by rewrite store_avail.
  - rewrite store_sum_free by done. simpl. lia.
  - intros x. rewrite store_live by done.
    split; [tauto|]. intros [?|?%elem_of_nil]; done.
  - intros x ?%elem_of_nil. done.
  - constructor; try done; try lia. intros s sp _ Hsp. by exists sp.
Qed.

Lemma elem_of_concat {A} (x : A) (ls : list (list A)) :
  x ∈ concat ls ↔ ∃ l, l ∈ ls ∧ x ∈ l.
Proof.
  induction ls as [|l ls IH]; simpl.
  - split; [by intros ?%elem_of_nil|]. by intros (l & ?%elem_of_nil & _).
  - rewrite elem_of_app, IH. split.
    + intros [Hx|(l' & Hl' & Hx)].
      * exists l. split; [by left|done].
      * exists l'. split; [by right|done].
    + intros (l' & [->|Hl']%elem_of_cons & Hx); eauto.
Qed.

Lemma elem_of_avail st x :
  x ∈ avail st ↔ ∃ s, s ∈ nonempty (central st) ∧ x ∈ flist st s.
Proof.
  unfold avail. rewrite elem_of_concat. split.
  - intros (l & (s & -> & Hs)%list_elem_of_fmap & Hx). eauto.
  - intros (s & Hs & Hx). exists (flist st s). split; [|done].
    apply list_elem_of_fmap. eauto.
Qed.

Lemma live_not_avail st x : Inv st → live st x → x ∉ avail st.
Proof.
  intros HInv Hx (s & Hs & Hin)%elem_of_avail.
  apply (live_not_free _ _ HInv Hx s); [|done]. apply elem_of_app. by left.
Qed.

Lemma avail_nil st : Inv st → avail st = [] → nonempty (central st) = [].
Proof.
  intros HInv Hav. destruct (nonempty (central st)) as [|s rest] eqn:Hne; [done|].
  exfalso. apply (inv_nonempty _ HInv s); [rewrite Hne; by left|].
  unfold avail in Hav. rewrite Hne in Hav. simpl in Hav.
  by apply app_eq_nil in Hav as [? _].
Qed.

Lemma avail_cons st v l :
  Inv st → avail st = v :: l → ∃ s rest, nonempty (central st) = s :: rest.
Proof.
  intros HInv Hav. destruct (nonempty (central st)) as [|s rest] eqn:Hne; [|eauto].
  unfold avail in Hav. by rewrite Hne in Hav.
Qed.

Lemma MCentral_Alloc_spec st v l :
  Inv st → avail st = v :: l →
  ∃ st', MCentral_Alloc st = Ok v st' ∧ v ≠ 0 ∧ mem st' = mem st ∧
         alloc_post st st' [v] ∧ avail st' = l ∧
         ((∀ s0 sp0, s0 ∈ owned (central st) →
                     s0 ≠ MSpanList_first (nonempty (central st)) →
                     allspans (mheap st) !! s0 = Some sp0 → ref sp0 ≠ 0%N) →
          settled st').
Proof.
  intros HInv Hav. destruct (avail_cons _ _ _ HInv Hav) as (s & rest & Hne).
  destruct (alloc_pre st s rest HInv Hne)
    as (sp & v' & l' & next & Hok & Hfl & Hv & Hv0 & Hnext & Hch & Hrun).
  assert (alloc_post st (alloc_pop s sp next st) [v']) as Hpost
    by eauto using alloc_post_pop.
  pose proof (ap_avail _ _ _ Hpost) as Hav'. rewrite Hav in Hav'.
  simpl in Hav'. injection Hav' as -> ->.
  eexists. split_and!; try done.
  intros Hset s0 sp0 Hs0 Hsp0. rewrite Hne in Hset. simpl in Hset.
  erewrite alloc_pop_owned in Hs0 by eauto.
  destruct (decide (s0 = s)) as [->|Hne0].
  - eapply alloc_pop_ref; eauto.
  - rewrite alloc_pop_lookup_other in Hsp0 by done. eauto.
Qed.

Lemma lseg_last m p l q : lseg m p l q → q ∈ p :: l.
Proof.
  revert p. induction l as [|a l IH]; intros p; simpl.
  - intros ->. by left.
  - intros (_ & _ & H). right. eauto.
Qed.

Lemma lseg_frame m m' p l q :
  lseg m p l q → (∀ a, a ∈ p :: l → a ≠ q → m' !! a = m !! a) →
  NoDup (p :: l) → lseg m' p l q.
Proof.
  revert p. induction l as [|a l IH]; intros p; simpl; [done|].
  intros (Hp & Hpa & Hl) Hm Hnd. split; [done|].
  apply NoDup_cons in Hnd as [Hpl Hnd].
  pose proof (lseg_last _ _ _ _ Hl) as Hq.
  split.
  - rewrite Hm; [done|by left|]. intros ->. done.
  - apply IH; [done| |done]. intros x Hx Hne. apply Hm; [by right|done].
Qed.

Lemma lseg_chain m p l q :
  lseg m p l q → NoDup (p :: l) → q ≠ 0 →
  chain (<[q := 0]> m) p (p :: l).
Proof.
  revert p. induction l as [|a l IH]; intros p; simpl.
  - intros -> _ Hq. split; [done|]. split; [done|].
    exists 0. by rewrite lookup_insert_eq.
  - intros (Hp & Hpa & Hl) Hnd Hq.
    apply NoDup_cons in Hnd as [Hpl Hnd].
    pose proof (lseg_last _ _ _ _ Hl) as Hql.
    split; [done|]. split; [done|]. exists a. split.
    + rewrite lookup_insert_ne; [done|]. by intros ->.
    + by apply IH.
Qed.

Lemma AllocList_loop_spec k st i last :
  Inv st → live st last →
  ∃ st' last' popped,
    AllocList_loop k i last st = Ok (i + Z.of_nat (length popped), last') st' ∧
    length popped = (k `min` length (avail st))%nat ∧
    alloc_post st st' popped ∧
    lseg (mem st') last popped last' ∧
    NoDup (last :: popped) ∧
    (∀ a, a ≠ last → a ∉ popped → mem st' !! a = mem st !! a).
Proof.
  revert st i last. induction k as [|k IH]; intros st i last HInv Hlast.
  { exists st, last, []. simpl. rewrite Z.add_0_r. split_and!; try done.
    - by apply alloc_post_refl.
    - constructor; [apply not_elem_of_nil|constructor]. }
  destruct (avail st) as [|v l] eqn:Hav.
  { exists st, last, []. cbn [AllocList_loop].
    rewrite (bind_eq _ _ _ _ _ (MCentral_Alloc_nil st (avail_nil _ HInv Hav))).
    simpl. rewrite Z.add_0_r. split_and!; try done.
    - by apply alloc_post_refl.
    - constructor; [apply not_elem_of_nil|constructor]. }
  destruct (MCentral_Alloc_spec st v l HInv Hav)
    as (st1 & Hrun & Hv0 & Hmem1 & Hpost1 & Hav1 & _).
  assert (live st1 last) as Hlast1.
  { apply (ap_live _ _ _ Hpost1). by left. }
  assert (last ≠ v) as Hne.
  { intros ->. apply (ap_fresh _ _ _ Hpost1 v); [by left|done]. }
  set (st2 := set_mem (insert last v) st1).
  pose proof (alloc_post_store st1 last v (ap_Inv _ _ _ Hpost1) Hlast1) as Hpost2.
  fold st2 in Hpost2.
  assert (live st2 v) as Hv2.
  { apply (ap_live _ _ _ Hpost2). left. apply (ap_live _ _ _ Hpost1).
    right. by left. }
  destruct (IH st2 (i + 1) v (ap_Inv _ _ _ Hpost2) Hv2)
    as (st' & last' & popped & Hloop & Hlen & Hpost & Hseg & Hnd & Hframe).
  assert (avail st2 = l) as Hav2.
  { pose proof (ap_avail _ _ _ Hpost2) as H. simpl in H. congruence. }
  assert (last ∉ popped) as Hlp.
  { intros Hin. apply (ap_fresh _ _ _ Hpost last Hin).
    apply (ap_live _ _ _ Hpost2). by left. }
  assert (last ≠ 0) as Hlast0.
  { destruct Hlast as (s0 & sp0 & Hs0 & Hsp0 & Hx & _).
    pose proof (Inv_span_lookup _ _ _ HInv Hs0 Hsp0) as Hok0.
    by destruct (span_ok_lookup st s0 sp0 last (inv_geo _ HInv) Hok0 Hx). }
  exists st', last', (v :: popped). split_and!.
  - cbn [AllocList_loop]. rewrite (bind_eq _ _ _ _ _ Hrun).
    apply Z.eqb_neq in Hv0 as ->.
    assert (store last v st1 = Ok tt st2) as Hst.
    { unfold store. by apply Z.eqb_neq in Hlast0 as ->. }
    rewrite (bind_eq _ _ _ _ _ Hst). rewrite Hloop.
    do 2 f_equal. cbn [length]. lia.
  - cbn [length]. rewrite Hlen, Hav2. lia.
  - change (v :: popped) with ([v] ++ [] ++ popped).
    eauto using alloc_post_trans.
  - cbn [lseg]. split; [done|]. split; [|done].
    rewrite Hframe; [|done..]. unfold st2. cbn. by rewrite lookup_insert_eq.
  - constructor; [|done]. rewrite not_elem_of_cons. tauto.
  - intros a Ha [Hav' Hap]%not_elem_of_cons.
    rewrite Hframe by done. unfold st2. cbn [mem set_mem].
    rewrite lookup_insert_ne by done. by rewrite Hmem1.
Qed.

(** ** [MCentral_AllocList] *)

Lemma MCentral_AllocList_unfold n st :
  MCentral_AllocList n st =
    let st0 := log (EvLock (central st) (allspans (mheap st))) st in
    match nonempty (central st) with
    | [] =>
        match MCentral_Grow st0 with
        | Ok true stg => AllocList_body n stg
        | Ok false stg =>
            Ok (0, 0) (log (EvUnlock (central stg) (allspans (mheap stg))) stg)
        | Throw msg st' => Throw msg st'
        | Fault => Fault
        | OutOfFuel => OutOfFuel
        end
    | _ :: _ => AllocList_body n st0
    end.
Proof.
  unfold MCentral_AllocList, AllocList_body. munfold.
  destruct (nonempty (central st)); simpl; [|done].
  destruct (MCentral_Grow _) as [[] ?| | |]; done.
Qed.

Lemma take_length_prefix {A} (l1 l2 : list A) : take (length l1) (l1 ++ l2) = l1.
Proof. by rewrite take_app_length. Qed.

Lemma AllocList_body_spec n stg v l :
  Inv stg → avail stg = v :: l →
  ∃ st' popped,
    AllocList_body n stg = Ok (Z.of_nat (length popped), v) st' ∧
    popped = take (Z.to_nat (Z.max n 1)) (avail stg) ∧
    chain (mem st') v popped ∧
    Inv st' ∧
    avail stg = popped ++ avail st' ∧
    nfree (central st') = nfree (central stg) - Z.of_nat (length popped) ∧
    sum_free st' = sum_free stg - Z.of_nat (length popped) ∧
    (∀ x, live st' x ↔ live stg x ∨ x ∈ popped) ∧
    (∀ x, x ∈ popped → ¬ live stg x) ∧
    ((∀ s0 sp0, s0 ∈ owned (central stg) →
                s0 ≠ MSpanList_first (nonempty (central stg)) →
                allspans (mheap stg) !! s0 = Some sp0 → ref sp0 ≠ 0%N) →
     settled st') ∧
    stable stg st' ∧
    trace st' = EvUnlock (central st') (allspans (mheap st')) :: trace stg ∧
    pagemap (mheap st') = pagemap (mheap stg) ∧
    arena_used (mheap st') = arena_used (mheap stg) ∧
    arena_end (mheap st') = arena_end (mheap stg) ∧
    nspan (mheap st') = nspan (mheap stg).
Proof.
  intros HInv Hav.
  destruct (MCentral_Alloc_spec stg v l HInv Hav)
    as (st1 & Hrun & Hv0 & Hmem1 & Hpost1 & Hav1 & Hset1).
  assert (live st1 v) as Hv1.
  { apply (ap_live _ _ _ Hpost1). right. by left. }
  destruct (AllocList_loop_spec (Z.to_nat (n - 1)) st1 1 v
              (ap_Inv _ _ _ Hpost1) Hv1)
    as (st2 & last & popped & Hloop & Hlen & Hpost2 & Hseg & Hnd & Hframe).
  assert (live st2 last) as Hlast2.
  { apply (ap_live _ _ _ Hpost2).
    apply lseg_last in Hseg. apply elem_of_cons in Hseg as [->|Hin];
      [by left|by right]. }
  assert (last ≠ 0) as Hlast0.
  { destruct Hlast2 as (s0 & sp0 & Hs0 & Hsp0 & Hx & _).
    pose proof (ap_Inv _ _ _ Hpost2) as HInv2.
    pose proof (Inv_span_lookup _ _ _ HInv2 Hs0 Hsp0) as Hok0.
    by destruct (span_ok_lookup st2 s0 sp0 last (inv_geo _ HInv2) Hok0 Hx). }
  set (st3 := set_mem (insert last 0) st2).
  pose proof (alloc_post_store st2 last 0 (ap_Inv _ _ _ Hpost2) Hlast2) as Hpost3.
  fold st3 in Hpost3.
  pose proof (alloc_post_trans _ _ _ _ _ Hpost1
                (alloc_post_trans _ _ _ _ _ Hpost2 Hpost3)) as Hpost.
  rewrite app_nil_r in Hpost. change ([v] ++ popped) with (v :: popped) in Hpost.
  set (i := 1 + Z.of_nat (length popped)).
  set (st4 := set_central (λ c, set_nfree (nfree c - i) c) st3).
  set (st5 := log (EvUnlock (central st4) (allspans (mheap st4))) st4).
  assert (same_pool st3 st5) as Hsame by done.
  exists st5, (v :: popped).
  assert (AllocList_body n stg = Ok (i, v) st5) as Hbody.
  { unfold AllocList_body. rewrite (bind_eq _ _ _ _ _ Hrun).
    rewrite (bind_eq _ _ _ _ _ Hloop). cbn [fst snd].
    assert (store last 0 st2 = Ok tt st3) as Hst.
    { unfold store. by apply Z.eqb_neq in Hlast0 as ->. }
    rewrite (bind_eq _ _ _ _ _ Hst). done. }
  assert (Z.of_nat (length (v :: popped)) = i) as Hi by (unfold i; simpl; lia).
  destruct Hpost.
  split_and!.
  - by rewrite Hi.
  - rewrite Hav in ap_avail0 |- *. injection ap_avail0 as Hl.
    assert (Z.to_nat (Z.max n 1) = S (Z.to_nat (n - 1))) as -> by lia.
    cbn [take]. f_equal.
    pose proof (ap_avail _ _ _ Hpost2) as Hav2. rewrite Hav1 in Hav2.
    rewrite Hav1 in Hlen.
    destruct (Nat.min_spec (Z.to_nat (n - 1)) (length l)) as [[Hlt Heq]|[Hge Heq]];
      rewrite Heq in Hlen.
    + rewrite <- Hlen. rewrite Hav2 at 1. by rewrite take_length_prefix.
    + rewrite take_ge by lia. rewrite Hav2 in Hlen.
      rewrite length_app in Hlen.
      destruct (avail st2) as [|??]; [by rewrite app_nil_r in Hav2|].
      simpl in Hlen. lia.
  - unfold st5, st4, st3. cbn [mem log set_central set_mem].
    by apply lseg_chain.
  - by apply (same_pool_Inv st3 st5).
  - by rewrite (same_pool_avail st3 st5).
  - change (nfree (central st5)) with (nfree (central st3) - i).
    rewrite ap_nfree0. lia.
  - rewrite (same_pool_sum_free st3 st5) by done. lia.
  - intros x. rewrite (same_pool_live st3 st5) by done. apply ap_live0.
  - done.
  - intros Hset. apply (same_pool_settled st3 st5); [done|].
    apply (ap_settled _ _ _ Hpost3), (ap_settled _ _ _ Hpost2). auto.
  - eapply stable_trans; [done|]. by apply same_pool_stable.
  - change (trace st5)
      with (EvUnlock (central st5) (allspans (mheap st5)) :: trace st3).
    by rewrite ap_trace0.
  - done.
  - done.
  - done.
  - done.
Qed.

Lemma MCentral_Grow_false st st' :
  MCentral_Grow st = Ok false st' →
  ∃ size np n,
    MGetSizeClassInfo (sizeclass (central st)) = Some (size, np, n) ∧
    heap_can_grant (mheap st) np = false ∧ st' = grow_fail np st.
Proof.
  unfold MCentral_Grow. munfold.
  destruct (MGetSizeClassInfo _) as [[[size np] n]|] eqn:Hinfo; [|done].
  munfold. destruct (heap_can_grant (mheap st) np) eqn:Hg; munfold.
  - assert ((nspan (mheap st) =? 0) = false) as ->.
    { unfold heap_can_grant in Hg.
      by destruct (nspan (mheap st) =? 0), (0 <? np), (_ <=? _). }
    repeat (munfold; rewrite ?lookup_insert_eq).
    destruct (carve _ _ _ _ _) as [tailp st1| | |]; [|done..].
    destruct tailp; munfold; repeat case_match; done.
  - intros [= <-]. eauto 10.
Qed.

Lemma MCentral_Grow_oom st size np n :
  MGetSizeClassInfo (sizeclass (central st)) = Some (size, np, n) →
  heap_can_grant (mheap st) np = false →
  MCentral_Grow st = Ok false (grow_fail np st).
Proof.
  intros Hinfo Hg. unfold MCentral_Grow. munfold. rewrite Hinfo. munfold.
  by rewrite Hg.
Qed.

Lemma AllocList_loop_Ok k i last st i' last' st' :
  AllocList_loop k i last st = Ok (i', last') st' →
  i ≤ i' ∧ (last = 0 → last' = 0).
Proof.
  revert i last st. induction k as [|k IH]; intros i last st; simpl.
  - intros [= <- <- <-]. split; [lia|done].
  - intros (v & st1 & Hv & H)%bind_Ok.
    destruct (v =? 0); [injection H as <- <- <-; split; [lia|done]|].
    apply bind_Ok in H as ([] & st2 & Hst & H).
    apply IH in H as [H1 H2]. split; [lia|].
    intros ->. by unfold store in Hst.
Qed.

Lemma AllocList_body_Ok n st i first st' :
  AllocList_body n st = Ok (i, first) st' → 1 ≤ i ∧ first ≠ 0.
Proof.
  unfold AllocList_body.
  intros (v & st1 & Hv & H)%bind_Ok.
  apply bind_Ok in H as ([i' last'] & st2 & Hloop & H).
  apply bind_Ok in H as ([] & st3 & Hst & H).
  revert H. munfold. intros [= <- <- <-].
  apply AllocList_loop_Ok in Hloop as [Hi Hl]. split; [done|].
  intros ->. cbn [snd] in Hst. rewrite Hl in Hst by done. by unfold store in Hst.
Qed.

Lemma MCentral_AllocList_oom n st size np nobj :
  nonempty (central st) = [] →
  MGetSizeClassInfo (sizeclass (central st)) = Some (size, np, nobj) →
  heap_can_grant (mheap st) np = false →
  MCentral_AllocList n st = Ok (0, 0) (oom_state np st).
Proof.
  intros Hne Hinfo Hg. rewrite MCentral_AllocList_unfold, Hne. cbn zeta.
  erewrite MCentral_Grow_oom; [done|done..].
Qed.

Lemma MCentral_AllocList_zero n st i first st' :
  MCentral_AllocList n st = Ok (i, first) st' →
  i = 0 ∨ first = 0 → out_of_memory st ∧ i = 0 ∧ first = 0.
Proof.
  rewrite MCentral_AllocList_unfold. cbn zeta.
  destruct (nonempty (central st)) as [|s rest] eqn:Hne.
  - destruct (MCentral_Grow _) as [[] stg| | |] eqn:Hgrow; try done.
    + intros [? ?]%AllocList_body_Ok. lia.
    + intros [= <- <- <-] _.
      apply MCentral_Grow_false in Hgrow as (size & np & nobj & ? & ? & _).
      split; [|done]. split; [done|]. eauto.
  - intros [? ?]%AllocList_body_Ok. lia.
Qed.

Lemma MCentral_AllocList_nonempty n st :
  Inv st → nonempty (central st) ≠ [] →
  ∃ st' popped first,
    MCentral_AllocList n st = Ok (Z.of_nat (length popped), first) st' ∧
    popped = take (Z.to_nat (Z.max n 1)) (avail st) ∧
    popped ≠ [] ∧
    chain (mem st') first popped ∧
    alloc_list_post st st' popped ∧
    heap_requests (trace st') = heap_requests (trace st).
Proof.
  intros HInv Hne. rewrite MCentral_AllocList_unfold. cbn zeta.
  destruct (nonempty (central st)) as [|s rest] eqn:Hne'; [done|].
  set (st0 := log (EvLock (central st) (allspans (mheap st))) st).
  assert (same_pool st st0) as Hsame by done.
  pose proof (same_pool_Inv st st0 Hsame HInv) as HInv0.
  assert (∃ v l, avail st0 = v :: l) as (v & l & Hav).
  { destruct (avail st0) as [|v l] eqn:Hav; [|eauto].
    apply avail_nil in Hav; [|done]. unfold st0 in Hav. cbn in Hav. congruence. }
  destruct (AllocList_body_spec n st0 v l HInv0 Hav)
    as (st' & popped & Hrun & Hpop & Hch & HInv' & Hav' & Hnf & Hsum & Hlive
        & Hfresh & Hset & Hstab & Htr & _).
  exists st', popped, v. split_and!; try done.
  - rewrite Hpop, Hav.
    assert (Z.to_nat (Z.max n 1) = S (Z.to_nat (n - 1))) as -> by lia.
    done.
  - constructor.
    + done.
    + rewrite (same_pool_sum_free st st0) in Hsum by done.
      change (nfree (central st0)) with (nfree (central st)) in Hnf. lia.
    + exact Hlive.
    + exact Hfresh.
    + intros Hs. apply Hset. intros s0 sp0 Hs0 _ Hsp0. eapply Hs; eauto.
    + eapply stable_trans; [by apply same_pool_stable|done].
  - by rewrite Htr.
Qed.

Lemma MCentral_AllocList_grow n st :
  Inv st → nonempty (central st) = [] →
  let sc := sizeclass (central st) in
  heap_can_grant (mheap st) (class_to_allocnpages sc) = true →
  ∃ st' popped first,
    MCentral_AllocList n st = Ok (Z.of_nat (length popped), first) st' ∧
    popped = take (Z.to_nat (Z.max n 1))
               (slot_addrs (Z.to_nat (class_nobj sc)) (class_to_size sc)
                           (Z.shiftl (arena_used (mheap st)) PageShift)) ∧
    popped ≠ [] ∧
    chain (mem st') first popped ∧
    alloc_list_post st st' popped ∧
    heap_requests (trace st') = nspan (mheap st) :: heap_requests (trace st) ∧
    nfree (central st') =
      nfree (central st) + class_nobj sc - Z.of_nat (length popped).
Proof.
  intros HInv Hne sc Hg. rewrite MCentral_AllocList_unfold. cbn zeta.
  rewrite Hne.
  set (st0 := log (EvLock (central st) (allspans (mheap st))) st).
  assert (same_pool st st0) as Hsame by done.
  pose proof (same_pool_Inv st st0 Hsame HInv) as HInv0.
  rewrite (grow_unfold st0 HInv0 Hg).
  set (stg := grow_ok _ _ _ st0).
  pose proof (grow_Inv st0 HInv0) as HInvg. fold stg in HInvg.
  pose proof (grow_avail st0 HInv0) as Havg. fold stg in Havg.
  assert (avail st0 = []) as Hav0.
  { unfold avail. change (nonempty (central st0)) with (nonempty (central st)).
    by rewrite Hne. }
  rewrite Hav0, app_nil_r in Havg.
  pose proof (grow_slots_nonempty st0 HInv0) as Hslots.
  change (sizeclass (central st0)) with sc in *.
  destruct (span_slots sc _) as [|v l] eqn:Hsl in Havg; [by rewrite Hsl in Hslots|].
  destruct (AllocList_body_spec n stg v l HInvg Havg)
    as (st' & popped & Hrun & Hpop & Hch & HInv' & Hav' & Hnf & Hsum & Hlive
        & Hfresh & Hset & Hstab & Htr & _).
  exists st', popped, v. split_and!; try done.
  - rewrite Hpop, Havg, <- Hsl. done.
  - rewrite Hpop, Havg.
    assert (Z.to_nat (Z.max n 1) = S (Z.to_nat (n - 1))) as -> by lia. done.
  - assert (∀ x, live stg x ↔ live st x) as Hliveg.
    { intros x. exact (grow_live st0 HInv0 x). }
    constructor.
    + done.
    + assert (sum_free stg = sum_free st + class_nobj sc) as Hsg
        by exact (grow_sum_free st0 HInv0).
      assert (nfree (central stg) = nfree (central st) + class_nobj sc) as Hng
        by exact (grow_nfree st0).
      lia.
    + intros x. by rewrite Hlive, Hliveg.
    + intros x Hx. rewrite <- Hliveg. auto.
    + intros Hs. apply Hset. intros s0 sp0 Hs0 Hne0 Hsp0.
      change (owned (central stg)) with (nspan (mheap st) :: owned (central st)) in Hs0.
      change (MSpanList_first (nonempty (central stg))) with (nspan (mheap st)) in Hne0.
      apply elem_of_cons in Hs0 as [->|Hs0]; [done|].
      pose proof (grow_lookup_other st0 s0 Hne0) as Hlk.
      change (allspans (mheap stg) !! s0 = allspans (mheap st) !! s0) in Hlk.
      rewrite Hlk in Hsp0. eapply Hs; eauto.
    + eapply stable_trans; [by apply same_pool_stable|].
      eapply stable_trans; [by apply grow_stable|done].
  - by rewrite Htr.
Qed.

(** Every outcome of [MCentral_AllocList] under the invariant. *)
Lemma MCentral_AllocList_Inv n st i first st' :
  Inv st → MCentral_AllocList n st = Ok (i, first) st' →
  ∃ popped, i = Z.of_nat (length popped) ∧
            chain (mem st') first popped ∧
            alloc_list_post st st' popped.
Proof.
  intros HInv Hrun.
  destruct (nonempty (central st)) as [|s rest] eqn:Hne.
  - destruct (heap_can_grant (mheap st)
               (class_to_allocnpages (sizeclass (central st)))) eqn:Hg.
    + destruct (MCentral_AllocList_grow n st HInv Hne Hg)
        as (st2 & popped & first2 & Hrun2 & _ & _ & Hch & Hpost & _).
      rewrite Hrun in Hrun2. injection Hrun2 as -> -> ->. eauto.
    + rewrite (MCentral_AllocList_oom n st _ _ _ Hne
                 (MGetSizeClassInfo_ok _ (inv_geo _ HInv)) Hg) in Hrun.
      injection Hrun as <- <- <-. exists []. split_and!; try done.
      assert (same_pool st
                (oom_state (class_to_allocnpages (sizeclass (central st))) st))
        as Hsame by done.
      constructor.
      * by apply (same_pool_Inv st).
      * by rewrite (same_pool_sum_free st).
      * intros x. rewrite (same_pool_live st) by done.
        split; [tauto|]. intros [?|?%elem_of_nil]; done.
      * intros x ?%elem_of_nil. done.
      * by apply same_pool_settled.
      * by apply same_pool_stable.
  - destruct (MCentral_AllocList_nonempty n st HInv)
      as (st2 & popped & first2 & Hrun2 & _ & _ & Hch & Hpost & _);
      [by rewrite Hne|].
    rewrite Hrun in Hrun2. injection Hrun2 as -> -> ->. eauto.
Qed.

(** ** The counter *)

Lemma sum_list_with_fmap {A B} (f : B → nat) (g : A → B) l :
  sum_list_with f (g <$> l) = sum_list_with (f ∘ g) l.
Proof. induction l; simpl; auto. Qed.

Lemma Inv_count_free st : Inv st → count_free st = Some (sum_free st).
Proof.
  intros HInv. unfold count_free, sum_free.
  assert (mapM (free_objects st) (owned (central st)) =
          Some (flist st <$> owned (central st))) as ->.
  { apply mapM_Some. apply Forall2_fmap_r, Forall_Forall2_diag.
    apply Forall_forall. intros s Hs.
    destruct (inv_span _ HInv s Hs) as [sp Hok].
    eapply free_objects_intro; [apply Hok|apply Hok]. }
  simpl. by rewrite sum_list_with_fmap.
Qed.

Lemma MCentral_Init_Inv m h c t sc st :
  0 < nspan h → 0 < arena_used h → nfree c = 0 → geometry_ok sc →
  MCentral_Init sc (mkState m h c t) = Ok tt st →
  Inv st ∧ counted st ∧ settled st.
Proof.
  intros Hns Hau Hnf Hgeo. unfold MCentral_Init. munfold. intros [= <-].
  split_and!.
  - constructor; unfold owned; cbn [central nonempty empty app];
      try done; try (by intros s ?%elem_of_nil). constructor.
  - unfold counted, sum_free. done.
  - intros s sp ?%elem_of_nil. done.
Qed.

Lemma MCentral_Grow_Inv st b st' :
  Inv st → counted st → MCentral_Grow st = Ok b st' → Inv st' ∧ counted st'.
Proof.
  intros HInv Hc.
  destruct (heap_can_grant (mheap st)
              (class_to_allocnpages (sizeclass (central st)))) eqn:Hg.
  - rewrite (grow_unfold st HInv Hg). intros [= <- <-]. split.
    + by apply grow_Inv.
    + unfold counted. rewrite grow_sum_free, grow_nfree by done.
      unfold counted in Hc. lia.
  - rewrite (MCentral_Grow_fail st HInv Hg). intros [= <- <-].
    assert (same_pool st
              (grow_fail (class_to_allocnpages (sizeclass (central st))) st))
      as Hsame by done.
    split; [by apply (same_pool_Inv st)|].
    unfold counted. by rewrite (same_pool_sum_free st).
Qed.

Lemma reachable_Inv st : reachable st → Inv st ∧ counted st.
Proof.
  induction 1 as [m h c t sc st Hns Hau Hnf Hgeo Hinit
                 |st n [i first] st' _ [HInv Hc] Hrun
                 |st n first l st' _ [HInv Hc] Hch Hlive Hrun
                 |st b st' _ [HInv Hc] Hrun
                 |st a w _ [HInv Hc] Ha].
  - destruct (MCentral_Init_Inv _ _ _ _ _ _ Hns Hau Hnf Hgeo Hinit) as (?&?&?).
    done.
  - destruct (MCentral_AllocList_Inv _ _ _ _ _ HInv Hrun)
      as (popped & _ & _ & Hpost).
    split; [apply Hpost|]. destruct Hpost. unfold counted in *. lia.
  - destruct (MCentral_FreeList_spec n first st l HInv Hch Hlive)
      as (st2 & Hrun2 & Hpost).
    rewrite Hrun in Hrun2. injection Hrun2 as <-.
    split; [apply Hpost|]. destruct Hpost. unfold counted in *. lia.
  - eauto using MCentral_Grow_Inv.
  - pose proof (live_not_free _ _ HInv Ha) as Hnf.
    split; [by apply store_Inv|].
    unfold counted. by rewrite store_sum_free.
Qed.

(** ** The allocated objects determine the pool *)

Lemma span_ok_has_live st s sp :
  geometry_ok (sizeclass (central st)) →
  span_ok st s sp → ref sp ≠ 0%N →
  ∃ x, x ∈ span_slots (sizeclass (central st)) sp ∧ (x ∉ flist st s).
Proof.
  intros Hgeo Hok Href.
  set (slots := span_slots (sizeclass (central st)) sp).
  destruct (decide (Forall (λ x, x ∈ flist st s) slots)) as [Hall|Hex].
  - exfalso.
    assert (slots ⊆+ flist st s) as Hsub.
    { apply NoDup_submseteq; [apply NoDup_slot_addrs, Hgeo|].
      by apply Forall_forall. }
    apply submseteq_length in Hsub.
    pose proof (span_slots_length (sizeclass (central st)) sp
                  (class_nobj_pos _ Hgeo)) as Hlen. fold slots in Hlen.
    pose proof (so_count _ _ _ Hok). lia.
  - apply not_Forall_Exists in Hex; [|solve_decision].
    apply Exists_exists in Hex as (x & Hx & Hnot). eauto.
Qed.

Lemma live_span st x :
  Inv st → live st x →
  ∃ s sp, s ∈ owned (central st) ∧ span_ok st s sp ∧
          x ∈ span_slots (sizeclass (central st)) sp ∧ (x ∉ flist st s) ∧
          pagemap (mheap st) !! Z.shiftr x PageShift = Some s ∧
          Z.shiftr x PageShift < arena_used (mheap st).
Proof.
  intros HInv (s & sp & Hs & Hsp & Hx & Hnot).
  pose proof (Inv_span_lookup _ _ _ HInv Hs Hsp) as Hok.
  destruct (slot_page _ (inv_geo _ HInv) sp x) as [_ Hpg]; [apply Hok..|done|].
  exists s, sp. split_and!; try done.
  - by apply Hok.
  - pose proof (so_arena _ _ _ Hok). lia.
Qed.

Lemma free_iff_not_live st s sp x :
  Inv st → s ∈ owned (central st) → span_ok st s sp →
  x ∈ span_slots (sizeclass (central st)) sp →
  x ∈ flist st s ↔ ¬ live st x.
Proof.
  intros HInv Hs Hok Hx. split.
  - intros Hin Hl. by apply (live_not_free _ _ HInv Hl s).
  - intros Hnl. destruct (decide (x ∈ flist st s)) as [|Hnot]; [done|].
    exfalso. apply Hnl. exists s, sp. split_and!; try done. apply Hok.
Qed.

Section Same_live.
Variables (st st' : State).
Hypothesis HInv : Inv st.
Hypothesis HInv' : Inv st'.
Hypothesis Hset : settled st.
Hypothesis Hset' : settled st'.
Hypothesis Hstab : stable st st'.
Hypothesis Hlive : ∀ x, live st' x ↔ live st x.

Lemma same_live_span x s s' :
  live st x →
  pagemap (mheap st) !! Z.shiftr x PageShift = Some s →
  pagemap (mheap st') !! Z.shiftr x PageShift = Some s' →
  Z.shiftr x PageShift < arena_used (mheap st) →
  s' = s.
Proof.
  intros Hx Hs Hs' Hlt.
  pose proof (st_pagemap _ _ Hstab _ _ Hlt Hs'). congruence.
Qed.

Lemma same_live_owned s : s ∈ owned (central st') ↔ s ∈ owned (central st).
Proof.
  split.
  - intros Hs. destruct (inv_span _ HInv' s Hs) as [sp Hok].
    destruct (span_ok_has_live st' s sp (inv_geo _ HInv') Hok) as (x & Hx & Hnot).
    { eapply Hset'; [done|apply Hok]. }
    assert (live st' x) as Hl'.
    { exists s, sp. split_and!; try done. apply Hok. }
    destruct (live_span st' x HInv' Hl') as (s1 & sp1 & _ & _ & _ & _ & Hpm' & _).
    assert (s1 = s) as ->.
    { destruct (slot_page _ (inv_geo _ HInv') sp x) as [_ Hpg];
        [apply Hok..|done|].
      pose proof (so_map _ _ _ Hok _ Hpg). congruence. }
    apply Hlive in Hl' as Hl.
    destruct (live_span st x HInv Hl) as (s2 & sp2 & Hs2 & _ & _ & _ & Hpm & Hlt).
    by rewrite (same_live_span x s2 s Hl Hpm Hpm' Hlt).
  - intros Hs. destruct (inv_span _ HInv s Hs) as [sp Hok].
    destruct (span_ok_has_live st s sp (inv_geo _ HInv) Hok) as (x & Hx & Hnot).
    { eapply Hset; [done|apply Hok]. }
    assert (live st x) as Hl.
    { exists s, sp. split_and!; try done. apply Hok. }
    destruct (live_span st x HInv Hl) as (s1 & sp1 & _ & _ & _ & _ & Hpm & Hlt).
    assert (s1 = s) as ->.
    { destruct (slot_page _ (inv_geo _ HInv) sp x) as [_ Hpg];
        [apply Hok..|done|].
      pose proof (so_map _ _ _ Hok _ Hpg). congruence. }
    apply Hlive in Hl as Hl'.
    destruct (live_span st' x HInv' Hl')
      as (s2 & sp2 & Hs2 & _ & _ & _ & Hpm' & _).
    by rewrite <- (same_live_span x s s2 Hl Hpm Hpm' Hlt).
Qed.

Lemma same_live_Permutation : owned (central st') ≡ₚ owned (central st).
Proof.
  apply NoDup_Permutation; [apply HInv'|apply HInv|apply same_live_owned].
Qed.

Lemma same_live_flist s sp sp' :
  s ∈ owned (central st) → span_ok st s sp → span_ok st' s sp' →
  flist st' s ≡ₚ flist st s ∧ ref sp' = ref sp.
Proof.
  intros Hs Hok Hok'.
  assert (s ∈ owned (central st')) as Hs' by by apply same_live_owned.
  pose proof (st_sizeclass _ _ Hstab) as Hsc.
  destruct (st_spans _ _ Hstab s sp) as (sp1 & Hsp1 & Hst & Hnp);
    [apply Hok|apply Hok|].
  assert (sp1 = sp') as ->.
  { pose proof (so_lookup _ _ _ Hok'). congruence. }
  assert (span_slots (sizeclass (central st')) sp' =
          span_slots (sizeclass (central st)) sp) as Hslots.
  { rewrite Hsc. by apply span_slots_start. }
  assert (flist st' s ≡ₚ flist st s) as Hperm.
  { apply NoDup_Permutation; [by eapply span_ok_NoDup..|].
    intros x. split.
    - intros Hx. pose proof (so_slots _ _ _ Hok' x Hx) as Hsl.
      apply (free_iff_not_live st s sp x); [done..|by rewrite <- Hslots|].
      rewrite <- Hlive. by apply (free_iff_not_live st' s sp' x).
    - intros Hx. pose proof (so_slots _ _ _ Hok x Hx) as Hsl.
      apply (free_iff_not_live st' s sp' x); [done..|by rewrite Hslots|].
      rewrite Hlive. by apply (free_iff_not_live st s sp x). }
  split; [done|].
  pose proof (so_count _ _ _ Hok) as H1. pose proof (so_count _ _ _ Hok') as H2.
  rewrite Hsc in H2. apply Permutation_length in Hperm. lia.
Qed.

Lemma same_live_sum_free : sum_free st' = sum_free st.
Proof.
  unfold sum_free. rewrite same_live_Permutation. f_equal.
  apply sum_list_with_ext_in. intros s Hs.
  destruct (inv_span _ HInv s Hs) as [sp Hok].
  destruct (inv_span _ HInv' s) as [sp' Hok']; [by apply same_live_owned|].
  destruct (same_live_flist s sp sp' Hs Hok Hok') as [Hperm _].
  by apply Permutation_length.
Qed.
End Same_live.

(** * Main results *)

(** C2: in every state that can be reached from an initialised pool by
    batch allocations, batch frees of allocated objects and Grows, [nfree]
    is the number of objects on the free lists of the spans the pool owns,
    the free lists being read from memory. *)
Theorem C2_counter_is_sum_of_free_lists st :
  reachable st → count_free st = Some (nfree (central st)).
Proof.
  intros [HInv Hc]%reachable_Inv.
  rewrite (Inv_count_free st HInv). by rewrite Hc.
Qed.

(** ** Batched free: the fatal path *)

Lemma FreeList_loop_Throw fuel v st msg st' :
  FreeList_loop fuel v st = Throw msg st' → msg = "invalid free".
Proof.
  revert v st. induction fuel as [|fuel IH]; intros v st; simpl.
  - destruct (v =? 0); [discriminate|]. discriminate.
  - destruct (v =? 0); [discriminate|].
    intros [H | (next & st1 & H1 & H)]%bind_Throw.
    { revert H. unfold load. destruct (v =? 0); [done|].
      destruct (mem st !! v); done. }
    apply bind_Throw in H as [H | ([] & st2 & H2 & H)].
    + by apply MCentral_Free_Throw in H as [-> _].
    + eauto.
Qed.

(** C5: a free aborts with "invalid free" exactly when the heap's reverse
    lookup finds no span for the address or the span found has no allocated
    object; the state at the abort is the state in which the free was
    entered; and a batched free aborts with no other message. *)
Theorem C5_invalid_free_is_fatal v st :
  MHeap_Lookup v st = Ok (lookup_span st v) st ∧
  ((∃ msg st', MCentral_Free v st = Throw msg st') ↔
   (lookup_span st v = 0 ∨
    ∃ sp, allspans (mheap st) !! lookup_span st v = Some sp ∧ ref sp = 0%N)) ∧
  (∀ msg st', MCentral_Free v st = Throw msg st' →
              msg = "invalid free" ∧ st' = st) ∧
  (∀ n first msg st', MCentral_FreeList n first st = Throw msg st' →
              msg = "invalid free").
Proof.
  split; [done|]. split; [split|split].
  - intros (msg & st' & H). by apply MCentral_Free_Throw in H as (_ & _ & H).
  - intros H. eauto using MCentral_Free_invalid.
  - intros msg st' H. apply MCentral_Free_Throw in H. tauto.
  - intros n first msg st'. unfold MCentral_FreeList.
    intros [H | ([] & st1 & _ & H)]%bind_Throw; [done|].
    apply bind_Throw in H as [H | (h & st2 & _ & H)]; [done|].
    apply bind_Throw in H as [H | ([] & st3 & _ & H)].
    + eauto using FreeList_loop_Throw.
    + done.
Qed.

Lemma MCentral_AllocList_obtainable n st :
  Inv st → ¬ out_of_memory st →
  ∃ st' popped first,
    MCentral_AllocList n st = Ok (Z.of_nat (length popped), first) st' ∧
    popped = take (Z.to_nat (Z.max n 1)) (obtainable st) ∧
    popped ≠ [] ∧
    chain (mem st') first popped ∧
    alloc_list_post st st' popped ∧
    heap_requests (trace st') = grow_requests st ++ heap_requests (trace st).
Proof.
  intros HInv Hoom. unfold obtainable, grow_requests.
  destruct (nonempty (central st)) as [|s rest] eqn:Hne.
  - destruct (heap_can_grant (mheap st)
               (class_to_allocnpages (sizeclass (central st)))) eqn:Hg.
    + destruct (MCentral_AllocList_grow n st HInv Hne Hg)
        as (st' & popped & first & H1 & H2 & H3 & H4 & H5 & H6 & _).
      by exists st', popped, first.
    + exfalso. apply Hoom. split; [done|].
      pose proof (MGetSizeClassInfo_ok _ (inv_geo _ HInv)). eauto 10.
  - destruct (MCentral_AllocList_nonempty n st HInv)
      as (st' & popped & first & H); [by rewrite Hne|].
    by exists st', popped, first.
Qed.

(** C3, as the code has it: from a pool that satisfies the invariant and is
    not out of memory, a batch allocation hands out the first
    [max count 1] obtainable objects, or all of them when there are fewer;
    they are linked in that order into a nil-terminated chain whose length
    is the count returned; the count is at least 1 and, for a request of at
    least one object, at most the count requested. *)
Theorem C3_granted_between_one_and_count n st :
  Inv st → ¬ out_of_memory st →
  ∃ st' popped first,
    MCentral_AllocList n st = Ok (Z.of_nat (length popped), first) st' ∧
    chain (mem st') first popped ∧
    popped = take (Z.to_nat (Z.max n 1)) (obtainable st) ∧
    1 ≤ Z.of_nat (length popped) ≤ Z.max n 1 ∧
    (1 ≤ n → Z.of_nat (length popped) ≤ n).
Proof.
  intros HInv Hoom.
  destruct (MCentral_AllocList_obtainable n st HInv Hoom)
    as (st' & popped & first & Hrun & Hpop & Hne & Hch & _).
  exists st', popped, first. split_and!; try done.
  - destruct popped; [done|]. simpl. lia.
  - rewrite Hpop, length_take. lia.
  - intros Hn. rewrite Hpop, length_take. lia.
Qed.

(** C7, as the code has it: a batch allocation asks the heap for a span at
    most once, on entry and only when no span has a free object; it hands out
    [min (max count 1) available] objects, where the available objects are
    those of the pool or, after that Grow, of the new span; when they run out
    mid-batch it stops and returns the smaller count. *)
Theorem C7_no_grow_in_mid_batch n st :
  Inv st → ¬ out_of_memory st →
  ∃ st' i first,
    MCentral_AllocList n st = Ok (i, first) st' ∧
    i = Z.min (Z.max n 1) (Z.of_nat (length (obtainable st))) ∧
    heap_requests (trace st') = grow_requests st ++ heap_requests (trace st) ∧
    (length (grow_requests st) ≤ 1)%nat.
Proof.
  intros HInv Hoom.
  destruct (MCentral_AllocList_obtainable n st HInv Hoom)
    as (st' & popped & first & Hrun & Hpop & _ & _ & _ & Htr).
  exists st', (Z.of_nat (length popped)), first. split_and!; try done.
  - rewrite Hpop, length_take. lia.
  - unfold grow_requests. destruct (nonempty (central st)); simpl; lia.
Qed.

(** C8: from a pool that satisfies the invariant and in which every span
    has an allocated object, a batch allocation followed by a batch free of
    the chain it returned gives a pool with the same spans, in each span the
    same free objects (in some order) and the same number of allocated
    objects, and the same counter. *)
Theorem C8_alloc_then_free_restores n n' st i first st1 :
  Inv st → settled st →
  MCentral_AllocList n st = Ok (i, first) st1 →
  ∃ st2,
    MCentral_FreeList n' first st1 = Ok tt st2 ∧
    Inv st2 ∧ settled st2 ∧
    owned (central st2) ≡ₚ owned (central st) ∧
    (∀ s, s ∈ owned (central st) →
       ∃ sp sp2 l l2,
         allspans (mheap st) !! s = Some sp ∧
         allspans (mheap st2) !! s = Some sp2 ∧
         free_objects st s = Some l ∧ free_objects st2 s = Some l2 ∧
         l2 ≡ₚ l ∧ ref sp2 = ref sp) ∧
    nfree (central st2) = nfree (central st).
Proof.
  intros HInv Hset Hrun.
  destruct (MCentral_AllocList_Inv n st i first st1 HInv Hrun)
    as (popped & -> & Hch & Hpost).
  destruct (MCentral_FreeList_spec n' first st1 popped (alp_Inv _ _ _ Hpost) Hch)
    as (st2 & Hrun2 & Hpost2).
  { intros x Hx. apply (alp_live _ _ _ Hpost). by right. }
  assert (∀ x, live st2 x ↔ live st x) as Hlive.
  { intros x. rewrite (flp_live _ _ _ Hpost2), (alp_live _ _ _ Hpost).
    pose proof (alp_fresh _ _ _ Hpost x). tauto. }
  pose proof (flp_Inv _ _ _ Hpost2) as HInv2.
  assert (settled st2) as Hset2.
  { apply (flp_settled _ _ _ Hpost2), (alp_settled _ _ _ Hpost), Hset. }
  assert (stable st st2) as Hstab.
  { eapply stable_trans; [apply Hpost|apply Hpost2]. }
  exists st2. split_and!; try done.
  - exact (same_live_Permutation st st2 HInv HInv2 Hset Hset2 Hstab Hlive).
  - intros s Hs.
    destruct (inv_span _ HInv s Hs) as [sp Hok].
    destruct (inv_span _ HInv2 s) as [sp2 Hok2].
    { by apply (same_live_owned st st2 HInv HInv2 Hset Hset2 Hstab Hlive s). }
    assert (flist st2 s ≡ₚ flist st s ∧ ref sp2 = ref sp) as [Hperm Href]
      by exact (same_live_flist st st2 HInv HInv2 Hset Hset2 Hstab Hlive
                  s sp sp2 Hs Hok Hok2).
    exists sp, sp2, (flist st s), (flist st2 s). split_and!; try done.
    + apply Hok.
    + apply Hok2.
    + eapply free_objects_intro; apply Hok.
    + eapply free_objects_intro; apply Hok2.
  - assert (sum_free st2 = sum_free st)
      by exact (same_live_sum_free st st2 HInv HInv2 Hset Hset2 Hstab Hlive).
    pose proof (alp_counter _ _ _ Hpost). pose proof (flp_counter _ _ _ Hpost2).
    lia.
Qed.

(** C4: a batch allocation returns no object exactly when, on entry, no
    span has a free object and the heap cannot grant the span that Grow asks
    for; it then returns nil and 0 together, leaves memory, heap and pool as
    they were, and has asked the heap once. *)
Theorem C4_out_of_memory_signal n st :
  (∀ i first st',
     MCentral_AllocList n st = Ok (i, first) st' →
     ((i = 0 ∨ first = 0) ↔ out_of_memory st) ∧ (i = 0 ↔ first = 0)) ∧
  (out_of_memory st →
   ∃ np st',
     MCentral_AllocList n st = Ok (0, 0) st' ∧
     mem st' = mem st ∧ mheap st' = mheap st ∧ central st' = central st ∧
     heap_requests (trace st') = 0 :: heap_requests (trace st) ∧
     trace st' =
       [EvUnlock (central st) (allspans (mheap st));
        EvLock (central st) (allspans (mheap st));
        EvHeapAlloc np (sizeclass (central st)) 0;
        EvUnlock (central st) (allspans (mheap st));
        EvLock (central st) (allspans (mheap st))] ++ trace st).
Proof.
  split.
  - intros i first st' Hrun. split.
    + split.
      * intros H0. by apply (MCentral_AllocList_zero n st i first st').
      * intros (Hne & size & np & nobj & Hinfo & Hg).
        rewrite (MCentral_AllocList_oom n st _ _ _ Hne Hinfo Hg) in Hrun.
        injection Hrun as <- <- <-. by left.
    + split; intros H0;
        apply (MCentral_AllocList_zero n st i first st') in Hrun; tauto.
  - intros (Hne & size & np & nobj & Hinfo & Hg).
    exists np, (oom_state np st). split; [|done].
    by apply (MCentral_AllocList_oom n st size np nobj).
Qed.

(** ** A batch free is its objects freed one by one *)

Lemma chain_chain_until_dead st q l :
  chain (mem st) q l → chain_until_dead st q l.
Proof.
  revert q. induction l as [|a l IH]; intros q; simpl; [done|].
  intros (-> & Ha & w & Hw & Hl). eauto 10.
Qed.

Lemma MCentral_Free_Ok v st st' :
  MCentral_Free v st = Ok tt st' →
  lookup_span st v ≠ 0 ∧ v ≠ 0 ∧
  ∃ sp, allspans (mheap st) !! lookup_span st v = Some sp ∧ ref sp ≠ 0%N ∧
        (st' = free_push (lookup_span st v) sp v st ∨
         st' = free_release (lookup_span st v) sp v st).
Proof.
  destruct (decide (lookup_span st v = 0)) as [Hs|Hs].
  { rewrite MCentral_Free_invalid; [done|by left]. }
  destruct (allspans (mheap st) !! lookup_span st v) as [sp|] eqn:Hsp.
  2:{ unfold MCentral_Free. munfold. fold (lookup_span st v).
      apply Z.eqb_neq in Hs. rewrite Hs. munfold. by rewrite Hsp. }
  destruct (decide (ref sp = 0%N)) as [Hr|Hr].
  { rewrite MCentral_Free_invalid; [done|]. right. eauto. }
  rewrite (MCentral_Free_unfold v st sp) by done.
  destruct (Z.eqb_spec v 0); [done|].
  repeat case_match; try done; intros [= <-]; eauto 10.
Qed.

Lemma MCentral_Free_chain_until_dead v st st' q l :
  0 ≤ PageShift → spans_have_pages st →
  MCentral_Free v st = Ok tt st' →
  v ∉ l → chain_until_dead st q l →
  chain_until_dead st' q l ∧ spans_have_pages st'.
Proof.
  intros Hps Hwf Hfree.
  apply MCentral_Free_Ok in Hfree as (Hs & Hv & sp & Hsp & Hr & Hst').
  set (s := lookup_span st v) in *.
  pose proof (Hwf s sp Hsp) as Hnp.
  assert (spans_have_pages st') as Hwf'.
  { intros s0 sp0.
    destruct Hst' as [-> | ->]; cbn; rewrite ?insert_insert_eq;
      (destruct (decide (s0 = s)) as [->|Hne];
       [rewrite lookup_insert_eq; intros [= <-]; done
       |rewrite lookup_insert_ne by done; apply Hwf]). }
  intros Hvl Hch. split; [|done]. clear Hwf'.
  revert q Hvl Hch. induction l as [|a l IH]; intros q Hvl; simpl; [done|].
  apply not_elem_of_cons in Hvl as [Hva Hvl].
  intros (-> & Ha & w & Hw & Hrest). split; [done|]. split; [done|].
  destruct Hst' as [-> | ->].
  - exists w. split.
    + unfold free_push. cbn [mem]. by rewrite lookup_insert_ne.
    + destruct Hrest as [Hd|Hrest]; [by left|right; by apply IH].
  - destruct (decide (a = span_base sp)) as [->|Hab].
    + exists 1. split.
      * unfold free_release, release_span. cbn [mem].
        change (span_base (pushed_span sp v)) with (span_base sp).
        by rewrite lookup_insert_eq.
      * left. unfold lookup_span, free_release, release_span, span_base.
        cbn [mheap pagemap start npages pushed_span].
        rewrite Z.shiftr_shiftl_l, Z.sub_diag, Z.shiftl_0_r by done.
        rewrite unmap_pages_lookup, decide_True by lia. done.
    + exists w. split.
      * unfold free_release, release_span, free_push. cbn [mem].
        change (span_base (pushed_span sp v)) with (span_base sp).
        by rewrite !lookup_insert_ne.
      * destruct Hrest as [Hd|Hrest]; [|right; by apply IH].
        left. unfold lookup_span in *. unfold free_release, release_span.
        cbn [mheap pagemap]. rewrite unmap_pages_lookup.
        case_decide; [done|]. done.
Qed.

Lemma FreeList_loop_free_all fuel l st q :
  0 ≤ PageShift → spans_have_pages st →
  NoDup l → chain_until_dead st q l →
  FreeList_loop fuel q st = OutOfFuel ∨
  FreeList_loop fuel q st = free_all l st.
Proof.
  intros Hps. revert l st q.
  induction fuel as [|fuel IH]; intros l st q Hwf Hnd Hch.
  - destruct l as [|a l]; simpl in *.
    + subst. by right.
    + destruct Hch as (-> & Ha & _). apply Z.eqb_neq in Ha. rewrite Ha.
      by left.
  - destruct l as [|a l]; simpl in Hch.
    + subst. by right.
    + destruct Hch as (-> & Ha & w & Hw & Hrest).
      apply NoDup_cons in Hnd as [Hal Hnd].
      cbn [FreeList_loop free_all]. apply Z.eqb_neq in Ha as Ha'. rewrite Ha'.
      assert (load a st = Ok w st) as Hload.
      { unfold load. by rewrite Ha', Hw. }
      rewrite (bind_eq _ _ _ _ _ Hload).
      unfold mbind, M_bind.
      destruct (MCentral_Free a st) as [[] st1| | |] eqn:Hfree; auto.
      destruct Hrest as [Hd|Hrest].
      { rewrite MCentral_Free_invalid in Hfree; [done|by left]. }
      destruct (MCentral_Free_chain_until_dead a st st1 w l Hps Hwf Hfree Hal Hrest)
        as [Hch1 Hwf1].
      by apply IH.
Qed.

(** C10: the count passed to a batch free has no effect at all; and when
    the objects form a nil-terminated chain, the batch free is the lock, the
    single-object free of each object of the chain in chain order, and the
    unlock, whatever the outcome. *)
Theorem C10_free_batch_ignores_count start st :
  (∀ n1 n2, MCentral_FreeList n1 start st = MCentral_FreeList n2 start st) ∧
  (∀ n l,
     0 ≤ PageShift → spans_have_pages st → chain (mem st) start l →
     MCentral_FreeList n start st =
     (runtime_lock;; free_all l;; runtime_unlock) st).
Proof.
  split; [done|].
  intros n l Hps Hwf Hch. rewrite MCentral_FreeList_unfold. cbn zeta.
  set (st0 := log (EvLock (central st) (allspans (mheap st))) st).
  pose proof (FreeList_loop_total (S (total_ref (mheap st))) start st0) as Htot.
  destruct (FreeList_loop_free_all (S (total_ref (mheap st))) l st0 start)
    as [Hout | ->]; try done.
  - eauto using chain_NoDup.
  - by apply (chain_chain_until_dead st0).
  - exfalso. apply Htot; [|done]. cbn. lia.
Qed.

(** ** What holds whatever the pool is asked to do *)

Lemma membership_insert_other c spans s sp :
  s ∉ owned c → membership c spans → membership c (<[s := sp]> spans).
Proof.
  intros Hs Hm s0 Hs0. destruct (Hm s0 Hs0) as (sp0 & Hsp0 & H).
  exists sp0. split; [|done]. rewrite lookup_insert_ne; [done|]. by intros ->.
Qed.

Lemma weak_inv_same st st' :
  mheap st' = mheap st →
  nonempty (central st') = nonempty (central st) →
  empty (central st') = empty (central st) →
  trace st' = trace st →
  weak_inv st → weak_inv st'.
Proof.
  intros Hh Hn He Ht [].
  constructor; unfold membership, owned in *; rewrite ?Hh, ?Hn, ?He, ?Ht; done.
Qed.

Lemma weak_inv_lock st :
  weak_inv st → weak_inv (log (EvLock (central st) (allspans (mheap st))) st).
Proof.
  intros []. constructor; try done. cbn. constructor; [|done]. done.
Qed.

Lemma weak_inv_unlock st :
  weak_inv st → weak_inv (log (EvUnlock (central st) (allspans (mheap st))) st).
Proof.
  intros []. constructor; try done. cbn. constructor; [|done]. done.
Qed.

Lemma weak_inv_alloc_pop st s rest sp next :
  weak_inv st → nonempty (central st) = s :: rest →
  allspans (mheap st) !! s = Some sp →
  weak_inv (alloc_pop s sp next st).
Proof.
  intros [] Hne Hsp.
  assert (s ∈ nonempty (central st)) as Hs by (rewrite Hne; by left).
  assert (s ∈ owned (central st)) as Hso by (apply elem_of_app; by left).
  assert (s ∉ empty (central st)) as Hse.
  { apply NoDup_app in wi_nodup0 as (_ & Hd & _). by apply Hd. }
  apply NoDup_app in wi_nodup0 as Hnd. destruct Hnd as (Hnd1 & Hdisj & Hnd2).
  constructor; try done.
  - intros s0 Hs0. unfold alloc_pop in *. cbn [central mheap allspans set_allspans] in *.
    destruct (decide (s0 = s)) as [->|Hne0].
    + rewrite lookup_insert_eq. eexists. split; [done|]. cbn [freelist ref].
      destruct (Z.eqb_spec next 0) as [->|Hn]; cbn [nonempty empty].
      * rewrite elem_of_list_remove, elem_of_cons. split; [tauto|].
        split; [intros _; split; [done|lia]|tauto].
      * split; [tauto|]. split; [tauto|]. intros [? _]. done.
    + rewrite lookup_insert_ne by done.
      assert (s0 ∈ owned (central st)) as Hs0'.
      { destruct (next =? 0); [|done]. unfold owned in *.
        cbn [nonempty empty] in Hs0.
        rewrite elem_of_app, elem_of_cons, !elem_of_list_remove in Hs0.
        apply elem_of_app. tauto. }
      destruct (wi_membership0 s0 Hs0') as (sp0 & Hsp0 & H1 & H2).
      exists sp0. split; [done|].
      destruct (next =? 0); [|done]. cbn [nonempty empty].
      rewrite elem_of_cons, !elem_of_list_remove. tauto.
  - unfold alloc_pop, owned. cbn [central].
    destruct (next =? 0); [|by apply NoDup_app]. cbn [nonempty empty].
    apply NoDup_app. split_and!.
    + by apply NoDup_list_remove.
    + intros x [Hx Hxs]%elem_of_list_remove [->|[Hx' _]%elem_of_list_remove]%elem_of_cons;
        [done|]. by apply (Hdisj x).
    + constructor; [|by apply NoDup_list_remove].
      rewrite elem_of_list_remove. tauto.
  - intros s0 Hs0. apply wi_owned_fresh0.
    unfold alloc_pop, owned in *. cbn [central] in Hs0.
    destruct (next =? 0); [|done]. cbn [nonempty empty] in Hs0.
    rewrite elem_of_app, elem_of_cons, !elem_of_list_remove in Hs0.
    destruct (decide (s0 = s)) as [->|]; [done|]. apply elem_of_app. tauto.
  - intros p s0 Hp. destruct (wi_pagemap0 p s0 Hp) as (Hlt & sp0 & Hsp0 & Hr).
    split; [done|]. unfold alloc_pop. cbn [mheap allspans set_allspans].
    destruct (decide (s0 = s)) as [->|Hne0].
    + rewrite lookup_insert_eq. eexists. split; [done|]. cbn.
      assert (sp0 = sp) as -> by congruence. done.
    + rewrite lookup_insert_ne by done. eauto.
Qed.

Lemma weak_inv_free_push st s sp v :
  weak_inv st → allspans (mheap st) !! s = Some sp → v ≠ 0 →
  s < nspan (mheap st) →
  weak_inv (free_push s sp v st).
Proof.
  intros [] Hsp Hv Hlt.
  apply NoDup_app in wi_nodup0 as Hnd. destruct Hnd as (Hnd1 & Hdisj & Hnd2).
  assert (freelist sp ≠ 0 → s ∈ owned (central st) →
          s ∈ nonempty (central st) ∧ s ∉ empty (central st)) as Hwhere.
  { intros Hfl Hs. destruct (wi_membership0 s Hs) as (sp0 & Hsp0 & H1 & H2).
    assert (sp0 = sp) as -> by congruence. split; [tauto|]. intros ?. tauto. }
  constructor; try done.
  - intros s0 Hs0. unfold free_push in *.
    cbn [central mheap allspans set_allspans] in *.
    destruct (decide (s0 = s)) as [->|Hne0].
    + rewrite lookup_insert_eq. eexists. split; [done|].
      cbn [freelist ref pushed_span].
      destruct (Z.eqb_spec (freelist sp) 0) as [Hfl|Hfl]; cbn [nonempty empty set_nfree].
      * rewrite elem_of_list_remove, elem_of_cons. split; [tauto|].
        split; [tauto|]. intros [? _]. done.
      * unfold owned in Hs0. cbn [nonempty empty set_nfree] in Hs0.
        destruct (Hwhere Hfl Hs0). split; [tauto|]. split; [tauto|].
        intros [? _]. done.
    + rewrite lookup_insert_ne by done.
      assert (s0 ∈ owned (central st)) as Hs0'.
      { destruct (freelist sp =? 0); [|done]. unfold owned in *.
        cbn [nonempty empty] in Hs0.
        rewrite elem_of_app, elem_of_cons, !elem_of_list_remove in Hs0.
        apply elem_of_app. tauto. }
      destruct (wi_membership0 s0 Hs0') as (sp0 & Hsp0 & H1 & H2).
      exists sp0. split; [done|].
      destruct (freelist sp =? 0); [|done]. cbn [nonempty empty].
      rewrite elem_of_cons, !elem_of_list_remove. tauto.
  - unfold free_push, owned. cbn [central].
    destruct (freelist sp =? 0); [|by apply NoDup_app]. cbn [nonempty empty].
    apply NoDup_app. split_and!.
    + constructor; [|by apply NoDup_list_remove].
      rewrite elem_of_list_remove. tauto.
    + intros x [->|[Hx Hxs]%elem_of_list_remove]%elem_of_cons
             [Hx' Hxs']%elem_of_list_remove; [done|]. by apply (Hdisj x).
    + by apply NoDup_list_remove.
  - intros s0 Hs0.
    unfold free_push, owned in *. cbn [central mheap nspan set_allspans] in *.
    destruct (Z.eqb_spec (freelist sp) 0) as [Hfl|Hfl];
      cbn [nonempty empty set_nfree] in Hs0.
    + rewrite elem_of_app, elem_of_cons, !elem_of_list_remove in Hs0.
      destruct (decide (s0 = s)) as [->|Hne0].
      * done.
      * apply wi_owned_fresh0, elem_of_app. tauto.
    + by apply wi_owned_fresh0.
  - intros p s0 Hp. destruct (wi_pagemap0 p s0 Hp) as (Hlt0 & sp0 & Hsp0 & Hr).
    split; [done|]. unfold free_push. cbn [mheap allspans set_allspans].
    destruct (decide (s0 = s)) as [->|Hne0].
    + rewrite lookup_insert_eq. eexists. split; [done|]. cbn.
      assert (sp0 = sp) as -> by congruence. done.
    + rewrite lookup_insert_ne by done. eauto.
Qed.

Lemma weak_inv_release st s sp p0 :
  weak_inv st → allspans (mheap st) !! s = Some sp →
  pagemap (mheap st) !! p0 = Some s →
  weak_inv (release_span s sp st).
Proof.
  intros [] Hsp Hp0.
  apply NoDup_app in wi_nodup0 as Hnd. destruct Hnd as (Hnd1 & Hdisj & Hnd2).
  set (c' := mkMCentral (sizeclass (central st))
               (list_remove s (nonempty (central st)))
               (list_remove s (empty (central st)))
               (nfree (central st) -
                Z.quot (Z.shiftl (npages sp) PageShift)
                       (int32 (class_to_size (sizeclass (central st)))))).
  set (spans' := <[s := set_freelist 0 sp]> (allspans (mheap st))).
  assert (membership c' spans') as Hm.
  { intros s0 Hs0. unfold owned, c' in Hs0. cbn [nonempty empty] in Hs0.
    rewrite elem_of_app, !elem_of_list_remove in Hs0.
    assert (s0 ≠ s) as Hne0 by tauto.
    destruct (wi_membership0 s0) as (sp0 & Hsp0 & H1 & H2);
      [apply elem_of_app; tauto|].
    exists sp0. unfold spans'. rewrite lookup_insert_ne by done.
    split; [done|]. unfold c'. cbn [nonempty empty].
    rewrite !elem_of_list_remove. tauto. }
  assert (s ∉ released (trace st)) as Hnr.
  { intros Hin. by apply (wi_released_unmapped0 s p0). }
  constructor.
  - exact Hm.
  - unfold release_span, owned. cbn [central nonempty empty].
    rewrite <- list_remove_app. by apply NoDup_list_remove, NoDup_app.
  - intros s0 Hs0. apply wi_owned_fresh0.
    unfold release_span, owned in *. cbn [central nonempty empty] in Hs0.
    rewrite elem_of_app, !elem_of_list_remove in Hs0. apply elem_of_app. tauto.
  - done.
  - unfold release_span. cbn [trace]. fold c' spans'.
    repeat (constructor; try done).
  - unfold release_span. cbn [trace released omap]. by constructor.
  - unfold release_span. cbn [trace released omap mheap pagemap].
    intros s0 p [->|Hs0]%elem_of_cons; rewrite unmap_pages_lookup.
    + case_decide as Hr; [done|]. intros Hp.
      destruct (wi_pagemap0 p s Hp) as (_ & sp0 & Hsp0 & Hr').
      assert (sp0 = sp) as -> by congruence. done.
    + case_decide; [done|]. by apply wi_released_unmapped0.
  - unfold release_span. cbn [trace released omap mheap nspan].
    intros s0 [->|Hs0]%elem_of_cons; [|by apply wi_released_fresh0].
    by destruct (wi_pagemap0 p0 s Hp0).
  - unfold release_span. cbn [mheap pagemap nspan allspans].
    intros p s0. rewrite unmap_pages_lookup. case_decide as Hr; [done|].
    intros Hp. destruct (wi_pagemap0 p s0 Hp) as (Hlt & sp0 & Hsp0 & Hr').
    split; [done|]. destruct (decide (s0 = s)) as [->|Hne0].
    + assert (sp0 = sp) as -> by congruence. done.
    + rewrite lookup_insert_ne by done. eauto.
Qed.

Lemma weak_inv_grow_fail st np :
  weak_inv st → weak_inv (grow_fail np st).
Proof.
  intros []. constructor; try done.
  unfold grow_fail. cbn [trace]. repeat (constructor; try done).
Qed.

Lemma weak_inv_grow_ok st size np n :
  weak_inv st → 0 ≤ PageShift → 0 ≤ size → 1 ≤ n → 0 < np →
  weak_inv (grow_ok size np n st).
Proof.
  intros [] Hps Hsz Hn Hnp.
  set (s := nspan (mheap st)).
  assert (s ∉ owned (central st)) as Hs.
  { intros Hin. apply wi_owned_fresh0 in Hin. unfold s in Hin. lia. }
  set (spans' := <[s := grow_span size np n st]> (allspans (mheap st))).
  assert (membership (central st) spans') as Hm.
  { by apply membership_insert_other. }
  assert (freelist (grow_span size np n st) ≠ 0) as Hfl.
  { unfold grow_span. cbn [freelist].
    destruct (Z.to_nat n) as [|k] eqn:Hk; [lia|]. cbn [slot_addrs hd].
    rewrite Z.shiftl_mul_pow2 by done.
    assert (0 < 2 ^ PageShift) by (by apply Z.pow_pos_nonneg). nia. }
  apply NoDup_app in wi_nodup0 as Hnd. destruct Hnd as (Hnd1 & Hdisj & Hnd2).
  constructor.
  - intros s0 Hs0. unfold grow_ok, owned in *.
    cbn [central mheap allspans nonempty empty] in *. fold s spans' in Hs0 |- *.
    destruct (decide (s0 = s)) as [->|Hne0].
    + exists (grow_span size np n st). unfold spans'. rewrite lookup_insert_eq.
      split; [done|]. rewrite elem_of_cons. split; [tauto|].
      split; [|intros [? _]; done].
      intros Hin. exfalso. apply Hs, elem_of_app. by right.
    + destruct (Hm s0) as (sp0 & Hsp0 & H1 & H2).
      { simpl in Hs0. apply elem_of_cons in Hs0 as [?|?]; [done|done]. }
      exists sp0. split; [done|]. rewrite elem_of_cons. tauto.
  - unfold grow_ok, owned. cbn [central nonempty empty]. simpl.
    constructor; [done|by apply NoDup_app].
  - intros s0. unfold grow_ok, owned. cbn [central nonempty empty mheap nspan].
    simpl. intros [->|Hs0]%elem_of_cons; [unfold s; lia|].
    apply wi_owned_fresh0 in Hs0. lia.
  - unfold grow_ok. cbn. lia.
  - unfold grow_ok. cbn [trace]. fold s spans'.
    repeat (constructor; try done).
  - done.
  - unfold grow_ok. cbn [trace released omap mheap pagemap].
    intros s0 p Hs0. rewrite map_pages_lookup. case_decide.
    + apply wi_released_fresh0 in Hs0. intros [= <-]. lia.
    + by apply wi_released_unmapped0.
  - unfold grow_ok. cbn [trace released omap mheap nspan].
    intros s0 Hs0. apply wi_released_fresh0 in Hs0. lia.
  - unfold grow_ok. cbn [mheap pagemap nspan allspans]. fold s.
    intros p s0. rewrite map_pages_lookup. case_decide as Hr.
    + intros [= <-]. split; [lia|].
      exists (grow_span size np n st). rewrite lookup_insert_eq. done.
    + intros Hp. destruct (wi_pagemap0 p s0 Hp) as (Hlt & sp0 & Hsp0 & Hr').
      split; [lia|]. exists sp0. rewrite lookup_insert_ne; [done|].
      unfold s. lia.
Qed.

(** The helpers and the batch operations themselves. *)

Lemma weak_inv_Alloc st v st' :
  weak_inv st → MCentral_Alloc st = Ok v st' →
  weak_inv st' ∧ trace st' = trace st.
Proof.
  intros Hw. destruct (nonempty (central st)) as [|s rest] eqn:Hne.
  - rewrite MCentral_Alloc_nil by done. by intros [= <- <-].
  - destruct (allspans (mheap st) !! s) as [sp|] eqn:Hsp.
    + rewrite (MCentral_Alloc_unfold st s rest sp Hne Hsp).
      destruct (freelist sp =? 0); [done|].
      destruct (mem st !! freelist sp) as [next|]; [|done].
      intros [= <- <-]. split; [|done]. by eapply weak_inv_alloc_pop.
    + unfold MCentral_Alloc, MSpanList_first. munfold. rewrite Hne. simpl.
      munfold. by rewrite Hsp.
Qed.

Lemma weak_inv_Free v st st' :
  weak_inv st → MCentral_Free v st = Ok tt st' → weak_inv st'.
Proof.
  intros Hw (Hs & Hv & sp & Hsp & Hr & Hst')%MCentral_Free_Ok.
  assert (∃ p0, pagemap (mheap st) !! p0 = Some (lookup_span st v)) as [p0 Hp0].
  { unfold lookup_span in *.
    destruct (pagemap (mheap st) !! (v ≫ PageShift)) as [s|] eqn:Hp; [|done].
    eauto. }
  destruct (wi_pagemap _ Hw _ _ Hp0) as [Hlt _].
  pose proof (weak_inv_free_push st _ sp v Hw Hsp Hv Hlt) as Hw1.
  destruct Hst' as [-> | ->]; [done|].
  unfold free_release. eapply (weak_inv_release _ _ _ p0); [done| |done].
  unfold free_push. cbn. by rewrite lookup_insert_eq.
Qed.

Lemma weak_inv_Grow st b st' :
  weak_inv st → geometry_ok (sizeclass (central st)) →
  MCentral_Grow st = Ok b st' →
  weak_inv st' ∧ released (trace st') = released (trace st).
Proof.
  intros Hw Hgeo.
  rewrite (MCentral_Grow_unfold st _ _ _ (MGetSizeClassInfo_ok _ Hgeo));
    try (destruct Hw, Hgeo; lia).
  destruct (heap_can_grant _ _); intros [= <- <-]; (split; [|done]).
  - apply weak_inv_grow_ok; try (destruct Hgeo; lia); [done|].
    by apply class_nobj_pos.
  - by apply weak_inv_grow_fail.
Qed.

Lemma weak_inv_store a w st st' :
  weak_inv st → store a w st = Ok tt st' →
  weak_inv st' ∧ trace st' = trace st ∧
  sizeclass (central st') = sizeclass (central st).
Proof.
  intros Hw. unfold store. destruct (a =? 0); [done|]. intros [= <-].
  split; [|done]. by apply (weak_inv_same st).
Qed.

Lemma weak_inv_AllocList_loop k i last st r st' :
  weak_inv st → AllocList_loop k i last st = Ok r st' →
  weak_inv st' ∧ released (trace st') = released (trace st).
Proof.
  revert i last st. induction k as [|k IH]; intros i last st Hw; simpl.
  - by intros [= <- <-].
  - intros (v & st1 & Hv & H)%bind_Ok.
    destruct (weak_inv_Alloc _ _ _ Hw Hv) as [Hw1 Ht1].
    destruct (v =? 0); [injection H as <- <-; by rewrite Ht1|].
    apply bind_Ok in H as ([] & st2 & Hst & H).
    destruct (weak_inv_store _ _ _ _ Hw1 Hst) as (Hw2 & Ht2 & _).
    destruct (IH _ _ _ Hw2 H) as [Hw' Ht']. split; [done|]. congruence.
Qed.

Lemma weak_inv_AllocList_body n st r st' :
  weak_inv st → AllocList_body n st = Ok r st' →
  weak_inv st' ∧ released (trace st') = released (trace st).
Proof.
  intros Hw. unfold AllocList_body.
  intros (v & st1 & Hv & H)%bind_Ok.
  destruct (weak_inv_Alloc _ _ _ Hw Hv) as [Hw1 Ht1].
  apply bind_Ok in H as (r' & st2 & Hloop & H).
  destruct (weak_inv_AllocList_loop _ _ _ _ _ _ Hw1 Hloop) as [Hw2 Ht2].
  apply bind_Ok in H as ([] & st3 & Hst & H).
  destruct (weak_inv_store _ _ _ _ Hw2 Hst) as (Hw3 & Ht3 & _).
  revert H. munfold. intros [= <- <-]. split.
  - apply (weak_inv_unlock (set_central (λ c, set_nfree (nfree c - fst r') c) st3)).
    by apply (weak_inv_same st3).
  - cbn [trace]. rewrite <- Ht1, <- Ht2, <- Ht3. done.
Qed.

Lemma weak_inv_AllocList n st r st' :
  weak_inv st → geometry_ok (sizeclass (central st)) →
  MCentral_AllocList n st = Ok r st' →
  weak_inv st' ∧ released (trace st') = released (trace st).
Proof.
  intros Hw Hgeo. rewrite MCentral_AllocList_unfold. cbn zeta.
  pose proof (weak_inv_lock st Hw) as Hw0.
  destruct (nonempty (central st)).
  - destruct (MCentral_Grow _) as [[] stg| | |] eqn:Hgrow; try done.
    + destruct (weak_inv_Grow _ _ _ Hw0 Hgeo Hgrow) as [Hwg Htg].
      intros Hbody.
      destruct (weak_inv_AllocList_body _ _ _ _ Hwg Hbody) as [Hw' Ht'].
      split; [done|]. rewrite Ht', Htg. done.
    + destruct (weak_inv_Grow _ _ _ Hw0 Hgeo Hgrow) as [Hwg Htg].
      intros [= <- <-]. split; [by apply weak_inv_unlock|].
      cbn [trace log]. exact Htg.
  - intros Hbody.
    destruct (weak_inv_AllocList_body _ _ _ _ Hw0 Hbody) as [Hw' Ht'].
    split; [done|]. rewrite Ht'. done.
Qed.

Lemma weak_inv_FreeList_loop fuel v st :
  weak_inv st →
  match FreeList_loop fuel v st with
  | Ok _ st' | Throw _ st' => weak_inv st'
  | _ => True
  end.
Proof.
  revert v st. induction fuel as [|fuel IH]; intros v st Hw; simpl.
  - by destruct (v =? 0).
  - destruct (v =? 0); [done|]. unfold mbind, M_bind.
    destruct (load v st) as [w st1| | |] eqn:Hl; try done.
    2:{ revert Hl. unfold load. by repeat case_match. }
    apply load_Ok in Hl as (-> & _ & _).
    destruct (MCentral_Free v st) as [[] st2| | |] eqn:Hfree; try done.
    + apply IH. by eapply weak_inv_Free.
    + by apply MCentral_Free_Throw in Hfree as (_ & -> & _).
Qed.

Lemma weak_inv_FreeList n first st :
  weak_inv st →
  match MCentral_FreeList n first st with
  | Ok _ st' | Throw _ st' => weak_inv st'
  | _ => True
  end.
Proof.
  intros Hw. rewrite MCentral_FreeList_unfold. cbn zeta.
  pose proof (weak_inv_FreeList_loop (S (total_ref (mheap st))) first _
                (weak_inv_lock st Hw)) as H.
  destruct (FreeList_loop _ _ _); try done. by apply weak_inv_unlock.
Qed.


Lemma weak_inv_Init m h c sc st :
  0 < arena_used h → pagemap h = ∅ →
  MCentral_Init sc (mkState m h c []) = Ok tt st →
  weak_inv st.
Proof.
  intros Hau Hpm. unfold MCentral_Init. munfold. intros [= <-].
  constructor; unfold owned; cbn; try done.
  - intros s Hs. by apply elem_of_nil in Hs.
  - constructor.
  - intros s Hs. by apply elem_of_nil in Hs.
  - constructor.
  - intros s p Hs. by apply elem_of_nil in Hs.
  - intros s Hs. by apply elem_of_nil in Hs.
  - intros p s. by rewrite Hpm, lookup_empty.
Qed.

(** The two ways in which [MCentral_Free] returns. *)
Lemma MCentral_Free_cases v st st' :
  MCentral_Free v st = Ok tt st' →
  lookup_span st v ≠ 0 ∧ v ≠ 0 ∧
  ∃ sp, allspans (mheap st) !! lookup_span st v = Some sp ∧ ref sp ≠ 0%N ∧
        (ref sp = 1%N ∧ st' = free_release (lookup_span st v) sp v st ∨
         ref sp ≠ 1%N ∧ st' = free_push (lookup_span st v) sp v st).
Proof.
  intros Hrun.
  destruct (MCentral_Free_Ok _ _ _ Hrun) as (Hs & Hv & sp & Hsp & Hr & _).
  split_and!; try done. exists sp. split_and!; try done.
  rewrite (MCentral_Free_unfold v st sp) in Hrun by done.
  destruct (v =? 0); [done|].
  destruct (ref sp =? 1)%N eqn:Hr1.
  - apply N.eqb_eq in Hr1. left. split; [done|].
    destruct (span_base sp =? 0); [done|].
    destruct (int32 _ =? 0); [done|]. by injection Hrun as <-.
  - apply N.eqb_neq in Hr1. right. split; [done|]. by injection Hrun as <-.
Qed.

(** C1: in every state of the pool at which the lock is free, each owned
    span is on the nonempty list exactly when its free list is not empty and
    on the empty list exactly when its free list is empty and it has
    allocated objects ([membership], a part of [weak_inv], which also asks it
    of the snapshot taken at every lock and unlock in the trace).  The
    property is kept by the batch operations, by Grow and by the two
    single-object helpers, whatever the arguments, also by a batch free that
    stops at an invalid free.  [MCentral_Alloc] moves the head span from
    nonempty to empty exactly when the pop leaves its free list empty, and
    [MCentral_Free] moves the span to nonempty exactly when it pushes onto an
    empty free list. *)
Theorem C1_list_membership st :
  weak_inv st → geometry_ok (sizeclass (central st)) →
  membership (central st) (allspans (mheap st)) ∧
  Forall event_ok (trace st) ∧
  (∀ n r st', MCentral_AllocList n st = Ok r st' → weak_inv st') ∧
  (∀ n first st', MCentral_FreeList n first st = Ok tt st' → weak_inv st') ∧
  (∀ n first msg st',
     MCentral_FreeList n first st = Throw msg st' → weak_inv st') ∧
  (∀ b st', MCentral_Grow st = Ok b st' → weak_inv st') ∧
  (∀ v st', MCentral_Alloc st = Ok v st' → v ≠ 0 →
     weak_inv st' ∧
     ∃ s sp', s = MSpanList_first (nonempty (central st)) ∧
       s ∈ nonempty (central st) ∧
       allspans (mheap st') !! s = Some sp' ∧
       if freelist sp' =? 0
       then (s ∉ nonempty (central st')) ∧ s ∈ empty (central st')
       else nonempty (central st') = nonempty (central st) ∧
            empty (central st') = empty (central st)) ∧
  (∀ v st', MCentral_Free v st = Ok tt st' →
     weak_inv st' ∧
     ∃ sp sp', allspans (mheap st) !! lookup_span st v = Some sp ∧
       allspans (mheap st') !! lookup_span st v = Some sp' ∧
       (ref sp' ≠ 0%N →
        if freelist sp =? 0
        then lookup_span st v ∈ nonempty (central st') ∧
             lookup_span st v ∉ empty (central st')
        else nonempty (central st') = nonempty (central st) ∧
             empty (central st') = empty (central st))).
Proof.
  intros Hw Hgeo. split_and!.
  - by destruct Hw.
  - by destruct Hw.
  - intros n r st' Hrun. by destruct (weak_inv_AllocList _ _ _ _ Hw Hgeo Hrun).
  - intros n first st' Hrun.
    pose proof (weak_inv_FreeList n first st Hw) as H. by rewrite Hrun in H.
  - intros n first msg st' Hrun.
    pose proof (weak_inv_FreeList n first st Hw) as H. by rewrite Hrun in H.
  - intros b st' Hrun. by destruct (weak_inv_Grow _ _ _ Hw Hgeo Hrun).
  - intros v st' Hrun Hv.
    split; [by destruct (weak_inv_Alloc _ _ _ Hw Hrun)|].
    destruct (nonempty (central st)) as [|s rest] eqn:Hne.
    { rewrite MCentral_Alloc_nil in Hrun by done. by injection Hrun as <- <-. }
    destruct (wi_membership _ Hw s) as (sp & Hsp & _).
    { unfold owned. rewrite Hne. by left. }
    rewrite (MCentral_Alloc_unfold st s rest sp Hne Hsp) in Hrun.
    destruct (freelist sp =? 0); [done|].
    destruct (mem st !! freelist sp) as [next|]; [|done].
    injection Hrun as <- <-.
    eexists s, _. split_and!; [done|by left| |].
    { unfold alloc_pop. cbn. by rewrite lookup_insert_eq. }
    unfold alloc_pop. cbn [freelist central].
    destruct (next =? 0); cbn [nonempty empty].
    + rewrite elem_of_list_remove. split; [tauto|by left].
    + by rewrite Hne.
  - intros v st' Hrun. split; [by eapply weak_inv_Free|].
    destruct (MCentral_Free_cases _ _ _ Hrun)
      as (Hs & Hv & sp & Hsp & Hr & [[Hr1 ->] | [Hr1 ->]]).
    + eexists sp, _. split_and!; [done| |].
      { unfold free_release, release_span. cbn. by rewrite lookup_insert_eq. }
      cbn. intros Hr'. lia.
    + eexists sp, _. split_and!; [done| |].
      { unfold free_push. cbn. by rewrite lookup_insert_eq. }
      intros _. unfold free_push. cbn [central].
      destruct (freelist sp =? 0); cbn [nonempty empty set_nfree].
      * rewrite elem_of_list_remove. split; [by left|tauto].
      * done.
Qed.

(** C6: a free that returns has found the object's span with allocated
    objects and takes one off their count.  When the count reaches zero, and
    only then, the span goes back to the heap: it is then on neither list,
    the first word of its memory is the sentinel 1, its free-list head is
    nil, and the counter, which the push had raised by one, has gone down by
    [(npages << PageShift) / size], which for a span of the pool is the
    number of objects it was carved into.  Otherwise nothing is given back,
    no span leaves the lists, the only word written is the link of the pushed
    object and the counter goes up by one.  No span is given back twice, and
    neither a batch allocation nor a Grow gives a span back. *)
Theorem C6_span_returned_when_last_object_freed st :
  (∀ v st', MCentral_Free v st = Ok tt st' →
     ∃ sp sp',
       allspans (mheap st) !! lookup_span st v = Some sp ∧
       allspans (mheap st') !! lookup_span st v = Some sp' ∧
       ref sp ≠ 0%N ∧ ref sp' = (ref sp - 1)%N ∧
       (ref sp' = 0%N →
          released (trace st') = lookup_span st v :: released (trace st) ∧
          (lookup_span st v ∉ owned (central st')) ∧
          mem st' !! span_base sp = Some 1 ∧
          freelist sp' = 0 ∧
          nfree (central st') =
            nfree (central st) + 1 -
            Z.quot (Z.shiftl (npages sp) PageShift)
                   (int32 (class_to_size (sizeclass (central st)))) ∧
          (Inv st → lookup_span st v ∈ owned (central st) →
           nfree (central st') =
             nfree (central st) + 1 - class_nobj (sizeclass (central st))) ∧
          (weak_inv st → lookup_span st v ∉ released (trace st))) ∧
       (ref sp' ≠ 0%N →
          released (trace st') = released (trace st) ∧
          (∀ s0, s0 ∈ owned (central st) → s0 ∈ owned (central st')) ∧
          mem st' = <[v := freelist sp]> (mem st) ∧
          freelist sp' = v ∧
          nfree (central st') = nfree (central st) + 1) ∧
       (weak_inv st → NoDup (released (trace st')))) ∧
  (weak_inv st → geometry_ok (sizeclass (central st)) →
   (∀ n r st', MCentral_AllocList n st = Ok r st' →
      released (trace st') = released (trace st)) ∧
   (∀ b st', MCentral_Grow st = Ok b st' →
      released (trace st') = released (trace st))).
Proof.
  split.
  - intros v st' Hrun.
    assert (weak_inv st → NoDup (released (trace st'))) as Hnd.
    { intros Hw. exact (wi_released _ (weak_inv_Free _ _ _ Hw Hrun)). }
    destruct (MCentral_Free_cases _ _ _ Hrun)
      as (Hs & Hv & sp & Hsp & Hr & [[Hr1 ->] | [Hr1 ->]]).
    + eexists sp, _. split_and!; [done| |done| | | |done].
      { unfold free_release, release_span. cbn. by rewrite lookup_insert_eq. }
      { cbn. lia. }
      { intros _. split_and!.
        - done.
        - unfold free_release, release_span, owned. cbn [central nonempty empty].
          rewrite elem_of_app, !elem_of_list_remove. tauto.
        - unfold free_release, release_span. cbn [mem].
          change (span_base (pushed_span sp v)) with (span_base sp).
          by rewrite lookup_insert_eq.
        - done.
        - unfold free_release, release_span, free_push. cbn [central nfree].
          destruct (freelist sp =? 0); cbn; done.
        - intros HInv Hin.
          pose proof (Inv_span_lookup _ _ _ HInv Hin Hsp) as Hok.
          pose proof (inv_geo _ HInv) as Hgeo.
          unfold class_nobj. rewrite <- (so_npages _ _ _ Hok).
          rewrite <- (int32_id (class_to_size (sizeclass (central st))))
            by (destruct Hgeo; lia).
          unfold free_release, release_span, free_push. cbn [central nfree].
          destruct (freelist sp =? 0); cbn; done.
        - intros Hw Hin.
          assert (∃ p0, pagemap (mheap st) !! p0 = Some (lookup_span st v))
            as [p0 Hp0].
          { unfold lookup_span in *.
            destruct (pagemap (mheap st) !! (v ≫ PageShift)) as [s|] eqn:Hp;
              [|done]. eauto. }
          exact (wi_released_unmapped _ Hw _ p0 Hin Hp0). }
      { cbn. intros Hne. lia. }
    + eexists sp, _. split_and!; [done| |done| | | |done].
      { unfold free_push. cbn. by rewrite lookup_insert_eq. }
      { done. }
      { cbn. intros Hz. lia. }
      { intros _. split_and!; try done.
        - intros s0. unfold free_push, owned. cbn [central].
          destruct (freelist sp =? 0); cbn [nonempty empty set_nfree]; [|done].
          rewrite !elem_of_app, elem_of_cons, !elem_of_list_remove.
          destruct (decide (s0 = lookup_span st v)); tauto.
        - unfold free_push. cbn [central].
          by destruct (freelist sp =? 0). }
  - intros Hw Hgeo. split.
    + intros n r st' Hrun. by destruct (weak_inv_AllocList _ _ _ _ Hw Hgeo Hrun).
    + intros b st' Hrun. by destruct (weak_inv_Grow _ _ _ Hw Hgeo Hrun).
Qed.

(** * More of what the code does *)

(** ** Every span accounts for its objects *)

(** X2: in every state reached from an initialised pool, the free list of
    each owned span is a nil-terminated chain of distinct slots of that
    span, and the objects on it together with the allocated ones counted by
    [ref] are all the objects the span was carved into. *)
Theorem span_accounting st s :
  reachable st → s ∈ owned (central st) →
  ∃ sp l,
    allspans (mheap st) !! s = Some sp ∧
    free_objects st s = Some l ∧
    chain (mem st) (freelist sp) l ∧
    NoDup l ∧
    l ⊆ span_slots (sizeclass (central st)) sp ∧
    Z.of_nat (length l) + Z.of_N (ref sp) = class_nobj (sizeclass (central st)) ∧
    (s ∈ nonempty (central st) ↔ l ≠ []).
Proof.
  intros [HInv _]%reachable_Inv Hs.
  destruct (inv_span _ HInv s Hs) as [sp Hok].
  pose proof (so_chain _ _ _ Hok) as Hch.
  pose proof (so_lookup _ _ _ Hok) as Hsp.
  exists sp, (flist st s). split_and!.
  - done.
  - by apply (free_objects_intro st s sp).
  - done.
  - by eapply span_ok_NoDup.
  - exact (so_slots _ _ _ Hok).
  - exact (so_count _ _ _ Hok).
  - split; [apply (inv_nonempty _ HInv)|].
    intros Hne. apply elem_of_app in Hs as [Hs|Hs]; [done|].
    by apply (inv_empty _ HInv) in Hs.
Qed.

(** ** A batch allocation hands out fresh objects *)

(** X3: the objects a batch allocation hands out are pairwise distinct, none
    of them was allocated before the call, each is afterwards an allocated
    slot of a span the pool owns, and whatever was allocated before still
    is. *)
Theorem AllocList_fresh_objects n st i first st' :
  Inv st → MCentral_AllocList n st = Ok (i, first) st' →
  ∃ popped,
    chain (mem st') first popped ∧ i = Z.of_nat (length popped) ∧
    NoDup popped ∧
    (∀ x, x ∈ popped → ¬ live st x) ∧
    (∀ x, x ∈ popped →
       ∃ s sp, s ∈ owned (central st') ∧
               allspans (mheap st') !! s = Some sp ∧
               x ∈ span_slots (sizeclass (central st')) sp ∧
               (x ∉ flist st' s) ∧
               lookup_span st' x = s) ∧
    (∀ x, live st x → live st' x).
Proof.
  intros HInv Hrun.
  destruct (MCentral_AllocList_Inv _ _ _ _ _ HInv Hrun)
    as (popped & Hi & Hch & Hpost).
  exists popped. split_and!; try done.
  - by eapply chain_NoDup.
  - exact (alp_fresh _ _ _ Hpost).
  - intros x Hx.
    assert (live st' x) as Hlive by (apply (alp_live _ _ _ Hpost); by right).
    destruct (live_span _ _ (alp_Inv _ _ _ Hpost) Hlive)
      as (s & sp & Hs & Hok & Hslot & Hnot & Hpm & _).
    exists s, sp. split_and!; try done.
    + exact (so_lookup _ _ _ Hok).
    + unfold lookup_span. by rewrite Hpm.
  - intros x Hx. apply (alp_live _ _ _ Hpost). by left.
Qed.

(** ** No span is kept without an allocated object *)

(** X12: when every owned span has an allocated object, that is still so
    after a batch allocation and after a batch free of allocated objects: a
    span whose last object is freed leaves the pool at once. *)
Theorem settled_preserved st :
  Inv st → settled st →
  (∀ n r st', MCentral_AllocList n st = Ok r st' → Inv st' ∧ settled st') ∧
  (∀ n start l st',
     chain (mem st) start l → (∀ x, x ∈ l → live st x) →
     MCentral_FreeList n start st = Ok tt st' → Inv st' ∧ settled st').
Proof.
  intros HInv Hset. split.
  - intros n [i first] st' Hrun.
    destruct (MCentral_AllocList_Inv _ _ _ _ _ HInv Hrun)
      as (popped & _ & _ & Hpost).
    split; [exact (alp_Inv _ _ _ Hpost)|exact (alp_settled _ _ _ Hpost Hset)].
  - intros n start l st' Hch Hlive Hrun.
    destruct (MCentral_FreeList_spec n start st l HInv Hch Hlive)
      as (st2 & Hrun2 & Hpost).
    rewrite Hrun in Hrun2. injection Hrun2 as <-.
    split; [exact (flp_Inv _ _ _ Hpost)|exact (flp_settled _ _ _ Hpost Hset)].
Qed.

(** ** A batch free comes to an end *)

Lemma FreeList_loop_Ok_total_ref fuel v st st' :
  FreeList_loop fuel v st = Ok tt st' →
  (total_ref (mheap st') ≤ total_ref (mheap st))%nat.
Proof.
  revert v st. induction fuel as [|fuel IH]; intros v st; simpl.
  - destruct (v =? 0); [|done]. by intros [= <-].
  - destruct (v =? 0); [by intros [= <-]|].
    intros (next & st2 & Hl & H)%bind_Ok.
    apply load_Ok in Hl as (-> & _ & _).
    apply bind_Ok in H as ([] & st3 & Hfree & H).
    apply MCentral_Free_total_ref in Hfree. apply IH in H. lia.
Qed.

(** X5: the loop of a batch free ends on every chain, also on one that runs
    in a circle: each free that returns takes one off the allocated objects
    that the spans count, and a free of an object of a span that counts none
    aborts. So [total_ref] passes and one more test are all there can be,
    more fuel changes nothing, and no batch free raises the count. *)
Theorem FreeList_terminates n start st :
  MCentral_FreeList n start st ≠ OutOfFuel ∧
  (∀ fuel, (total_ref (mheap st) < fuel)%nat →
           FreeList_loop fuel start st ≠ OutOfFuel ∧
           FreeList_loop fuel start st =
           FreeList_loop (S (total_ref (mheap st))) start st) ∧
  (∀ st', MCentral_FreeList n start st = Ok tt st' →
          (total_ref (mheap st') ≤ total_ref (mheap st))%nat).
Proof.
  split_and!.
  - rewrite MCentral_FreeList_unfold. cbn zeta.
    pose proof (FreeList_loop_total (S (total_ref (mheap st))) start
                  (log (EvLock (central st) (allspans (mheap st))) st)) as H.
    destruct (FreeList_loop _ _ _); try done. apply H. cbn. lia.
  - intros fuel Hfuel. split; [by apply FreeList_loop_total|].
    apply FreeList_loop_mono; [lia|]. apply FreeList_loop_total. lia.
  - intros st'. rewrite MCentral_FreeList_unfold. cbn zeta.
    destruct (FreeList_loop _ _ _) as [[] st1| | |] eqn:Hloop; try done.
    intros [= <-]. by apply FreeList_loop_Ok_total_ref in Hloop.
Qed.

(** ** A free that is not caught *)

Lemma chain_self_loop m v l : v ≠ 0 → m !! v = Some v → ¬ chain m v l.
Proof.
  intros Hv0 Hv. induction l as [|a l IH]; simpl.
  - done.
  - intros (<- & _ & q & Hq & Hch). rewrite Hv in Hq. by injection Hq as <-.
Qed.

Lemma lookup_span_free_push st s sp v x :
  lookup_span (free_push s sp v st) x = lookup_span st x.
Proof. done. Qed.

(** X6: an object of a span with three or more allocated objects is freed
    twice in a row: neither free aborts. The object's link then points at
    the object itself, so the span's free list runs in a circle, the span
    counts two allocated objects fewer and the counter is two higher. *)
Theorem double_free_not_caught v st sp :
  lookup_span st v ≠ 0 → v ≠ 0 →
  allspans (mheap st) !! lookup_span st v = Some sp → (3 ≤ ref sp)%N →
  ∃ st1 st2 sp2,
    MCentral_Free v st = Ok tt st1 ∧
    MCentral_Free v st1 = Ok tt st2 ∧
    allspans (mheap st2) !! lookup_span st v = Some sp2 ∧
    freelist sp2 = v ∧ mem st2 !! v = Some v ∧
    (∀ l, ¬ chain (mem st2) (freelist sp2) l) ∧
    ref sp2 = (ref sp - 2)%N ∧
    nfree (central st2) = nfree (central st) + 2.
Proof.
  intros Hs Hv Hsp Hr.
  set (s := lookup_span st v) in *.
  set (st1 := free_push s sp v st).
  set (sp1 := pushed_span sp v).
  set (st2 := free_push s sp1 v st1).
  assert (MCentral_Free v st = Ok tt st1) as Hrun1.
  { rewrite (MCentral_Free_unfold v st sp) by (try done; lia).
    apply Z.eqb_neq in Hv. rewrite Hv.
    assert ((ref sp =? 1)%N = false) as -> by (apply N.eqb_neq; lia). done. }
  assert (allspans (mheap st1) !! s = Some sp1) as Hsp1.
  { unfold st1, free_push. cbn. by rewrite lookup_insert_eq. }
  assert (MCentral_Free v st1 = Ok tt st2) as Hrun2.
  { rewrite (MCentral_Free_unfold v st1 sp1); try done.
    - apply Z.eqb_neq in Hv. rewrite Hv.
      assert ((ref sp1 =? 1)%N = false) as ->
        by (apply N.eqb_neq; unfold sp1; cbn; lia).
      done.
    - unfold sp1. cbn. lia. }
  assert (mem st2 !! v = Some v) as Hmem.
  { unfold st2, free_push. cbn [mem]. by rewrite lookup_insert_eq. }
  exists st1, st2, (pushed_span sp1 v). split_and!; try done.
  - unfold st2, free_push. cbn. by rewrite lookup_insert_eq.
  - intros l. cbn [freelist pushed_span]. by apply chain_self_loop.
  - cbn. lia.
  - unfold st2, st1, free_push. cbn [central].
    destruct (freelist sp1 =? 0), (freelist sp =? 0); cbn; lia.
Qed.

(** ** Last freed, first allocated *)

Lemma list_remove_idemp s l : list_remove s (list_remove s l) = list_remove s l.
Proof.
  unfold list_remove. induction l as [|a l IH]; [done|].
  rewrite filter_cons. case_decide; [|done].
  rewrite filter_cons. case_decide; [|done]. by rewrite IH.
Qed.

(** X8: an object is freed into a span that keeps an allocated object, and
    the span is then the first of the nonempty list (it is put there when
    its free list was empty): the next single-object allocation returns that
    very object and leaves the span structure as it was before the free.
    Memory differs in the object's link only, and the counter, which the
    single-object allocation does not touch, is one higher. *)
Theorem Free_then_Alloc v st sp :
  lookup_span st v ≠ 0 → v ≠ 0 →
  allspans (mheap st) !! lookup_span st v = Some sp → (2 ≤ ref sp)%N →
  freelist sp = 0 ∨
    (∃ rest, nonempty (central st) = lookup_span st v :: rest) →
  ∃ st1 st2,
    MCentral_Free v st = Ok tt st1 ∧
    MCentral_Alloc st1 = Ok v st2 ∧
    mheap st2 = mheap st ∧
    mem st2 = <[v := freelist sp]> (mem st) ∧
    nfree (central st2) = nfree (central st) + 1 ∧
    sizeclass (central st2) = sizeclass (central st) ∧
    (if freelist sp =? 0
     then nonempty (central st2) =
            list_remove (lookup_span st v) (nonempty (central st)) ∧
          empty (central st2) =
            lookup_span st v :: list_remove (lookup_span st v) (empty (central st))
     else nonempty (central st2) = nonempty (central st) ∧
          empty (central st2) = empty (central st)).
Proof.
  intros Hs Hv Hsp Hr Hhead.
  set (s := lookup_span st v) in *.
  set (st1 := free_push s sp v st).
  assert (MCentral_Free v st = Ok tt st1) as Hrun1.
  { rewrite (MCentral_Free_unfold v st sp) by (try done; lia).
    apply Z.eqb_neq in Hv. rewrite Hv.
    assert ((ref sp =? 1)%N = false) as -> by (apply N.eqb_neq; lia). done. }
  assert (allspans (mheap st1) !! s = Some (pushed_span sp v)) as Hsp1.
  { unfold st1, free_push. cbn. by rewrite lookup_insert_eq. }
  assert (∃ rest1, nonempty (central st1) = s :: rest1) as [rest1 Hne1].
  { unfold st1, free_push. cbn [central].
    destruct (freelist sp =? 0) eqn:Hfl; cbn [nonempty set_nfree]; [eauto|].
    destruct Hhead as [Hz | Hhead]; [|done].
    apply Z.eqb_neq in Hfl. done. }
  pose proof (MCentral_Alloc_unfold st1 s rest1 _ Hne1 Hsp1) as Hrun2.
  cbn [freelist pushed_span] in Hrun2.
  apply Z.eqb_neq in Hv. rewrite Hv in Hrun2.
  assert (mem st1 !! v = Some (freelist sp)) as Hmem1.
  { unfold st1, free_push. cbn [mem]. by rewrite lookup_insert_eq. }
  rewrite Hmem1 in Hrun2.
  eexists st1, _. split; [done|]. split; [exact Hrun2|].
  unfold alloc_pop, st1, free_push. cbn [mheap mem central trace].
  split_and!.
  - unfold set_allspans. cbn [allspans pagemap arena_used arena_end nspan].
    rewrite insert_insert_eq. unfold pushed_span.
    cbn [start npages freelist ref limit spanclass].
    assert (mkMSpan (start sp) (npages sp) (freelist sp) (ref sp - 1 + 1)%N
              (limit sp) (spanclass sp) = sp) as ->.
    { destruct sp as [a b c r e f]. cbn in *. f_equal. lia. }
    rewrite insert_id by done. by destruct (mheap st).
  - done.
  - destruct (freelist sp =? 0); cbn; done.
  - destruct (freelist sp =? 0); cbn; done.
  - destruct (freelist sp =? 0) eqn:Hfl; cbn [nonempty empty set_nfree].
    + rewrite list_remove_cons_eq, !list_remove_idemp. done.
    + done.
Qed.

(** ** What a batch allocation writes *)

Lemma AllocList_body_mem n stg v l :
  Inv stg → avail stg = v :: l →
  ∃ r st', AllocList_body n stg = Ok r st' ∧
           ∀ a, a ∉ avail stg → mem st' !! a = mem stg !! a.
Proof.
  intros HInv Hav.
  destruct (MCentral_Alloc_spec stg v l HInv Hav)
    as (st1 & Hrun & Hv0 & Hmem1 & Hpost1 & Hav1 & _).
  assert (live st1 v) as Hv1.
  { apply (ap_live _ _ _ Hpost1). right. by left. }
  destruct (AllocList_loop_spec (Z.to_nat (n - 1)) st1 1 v
              (ap_Inv _ _ _ Hpost1) Hv1)
    as (st2 & last & popped & Hloop & _ & Hpost2 & Hseg & _ & Hframe).
  assert (last ∈ v :: popped) as Hlast by (by eapply lseg_last).
  assert (last ≠ 0) as Hlast0.
  { assert (live st2 last) as (s0 & sp0 & Hs0 & Hsp0 & Hx & _).
    { apply (ap_live _ _ _ Hpost2).
      apply elem_of_cons in Hlast as [->|Hin]; [by left|by right]. }
    pose proof (ap_Inv _ _ _ Hpost2) as HInv2.
    pose proof (Inv_span_lookup _ _ _ HInv2 Hs0 Hsp0) as Hok0.
    by destruct (span_ok_lookup st2 s0 sp0 last (inv_geo _ HInv2) Hok0 Hx). }
  eexists _, _. split.
  { unfold AllocList_body. rewrite (bind_eq _ _ _ _ _ Hrun).
    rewrite (bind_eq _ _ _ _ _ Hloop). cbn [fst snd].
    assert (store last 0 st2 = Ok tt (set_mem (insert last 0) st2)) as Hst.
    { unfold store. by apply Z.eqb_neq in Hlast0 as ->. }
    rewrite (bind_eq _ _ _ _ _ Hst). reflexivity. }
  intros a Ha. cbn [mem log set_central set_mem].
  pose proof (ap_avail _ _ _ Hpost2) as Hav2. rewrite Hav1 in Hav2.
  rewrite Hav, Hav2 in Ha.
  apply not_elem_of_cons in Ha as [Hav' Ha].
  apply not_elem_of_app in Ha as [Ha _].
  assert (a ≠ last) as Hal.
  { intros ->. apply elem_of_cons in Hlast as [?|?]; done. }
  rewrite lookup_insert_ne by done.
  rewrite Hframe by done. by rewrite Hmem1.
Qed.

Lemma obtainable_not_live st x : Inv st → live st x → x ∉ obtainable st.
Proof.
  intros HInv Hlive. unfold obtainable.
  destruct (nonempty (central st)) eqn:Hne.
  - rewrite <- grow_slots. intros Hx.
    destruct (grow_slot_page st HInv x Hx) as [_ Hpg].
    destruct (live_span st x HInv Hlive) as (_ & _ & _ & _ & _ & _ & _ & Hlt).
    lia.
  - by apply live_not_avail.
Qed.

(** A batch allocation from a pool that is not out of memory, in full: the
    objects handed out, the objects left for the next call, and the words
    of memory it leaves alone. *)
Lemma MCentral_AllocList_run n st :
  Inv st → ¬ out_of_memory st →
  ∃ st' popped first,
    MCentral_AllocList n st = Ok (Z.of_nat (length popped), first) st' ∧
    popped = take (Z.to_nat (Z.max n 1)) (obtainable st) ∧
    obtainable st = popped ++ avail st' ∧
    (∀ a, a ∉ obtainable st → mem st' !! a = mem st !! a).
Proof.
  intros HInv Hoom. rewrite MCentral_AllocList_unfold. cbn zeta.
  set (st0 := log (EvLock (central st) (allspans (mheap st))) st).
  assert (same_pool st st0) as Hsame by done.
  pose proof (same_pool_Inv st st0 Hsame HInv) as HInv0.
  unfold obtainable.
  destruct (nonempty (central st)) as [|s rest] eqn:Hne.
  - destruct (heap_can_grant (mheap st)
               (class_to_allocnpages (sizeclass (central st)))) eqn:Hg.
    2:{ exfalso. apply Hoom. split; [done|].
        pose proof (MGetSizeClassInfo_ok _ (inv_geo _ HInv)). eauto 10. }
    rewrite (grow_unfold st0 HInv0 Hg).
    set (stg := grow_ok _ _ _ st0).
    pose proof (grow_Inv st0 HInv0) as HInvg. fold stg in HInvg.
    pose proof (grow_avail st0 HInv0) as Havg. fold stg in Havg.
    assert (avail st0 = []) as Hav0.
    { unfold avail. change (nonempty (central st0)) with (nonempty (central st)).
      by rewrite Hne. }
    rewrite Hav0, app_nil_r, grow_slots in Havg.
    pose proof (grow_slots_nonempty st0 HInv0) as Hslots.
    rewrite grow_slots, <- Havg in Hslots.
    change (sizeclass (central st0)) with (sizeclass (central st)) in Havg.
    change (mheap st0) with (mheap st) in Havg.
    destruct (avail stg) as [|v l] eqn:Hsl; [done|].
    destruct (AllocList_body_spec n stg v l HInvg Hsl)
      as (st' & popped & Hrun & Hpop & _ & _ & Hav' & _).
    destruct (AllocList_body_mem n stg v l HInvg Hsl) as (r & st'' & Hrun' & Hmem).
    rewrite Hrun in Hrun'. injection Hrun' as <- <-.
    exists st', popped, v. rewrite <- Havg. split_and!; try done.
    + by rewrite <- Hsl.
    + by rewrite <- Hsl.
    + intros a Ha. rewrite Hmem by (by rewrite Hsl).
      unfold stg, grow_ok. cbn [mem].
      change (mem st0) with (mem st). change (mheap st0) with (mheap st).
      change (sizeclass (central st0)) with (sizeclass (central st)).
      apply carve_mem_other. by rewrite <- Havg.
  - assert (avail st0 = avail st) as Hav0 by done.
    destruct (avail st0) as [|v l] eqn:Hav.
    { apply avail_nil in Hav; [|done]. unfold st0 in Hav. cbn in Hav. congruence. }
    destruct (AllocList_body_spec n st0 v l HInv0 Hav)
      as (st' & popped & Hrun & Hpop & _ & _ & Hav' & _).
    destruct (AllocList_body_mem n st0 v l HInv0 Hav) as (r & st'' & Hrun' & Hmem).
    rewrite Hrun in Hrun'. injection Hrun' as <- <-.
    exists st', popped, v. rewrite <- Hav0. split_and!; try done.
    + by rewrite <- Hav.
    + by rewrite <- Hav.
    + intros a Ha. rewrite Hmem by (by rewrite Hav). done.
Qed.

Lemma out_of_memory_dec st : Inv st → out_of_memory st ∨ ¬ out_of_memory st.
Proof.
  intros HInv.
  pose proof (MGetSizeClassInfo_ok _ (inv_geo _ HInv)) as Hinfo.
  destruct (nonempty (central st)) as [|s rest] eqn:Hne.
  - destruct (heap_can_grant (mheap st)
               (class_to_allocnpages (sizeclass (central st)))) eqn:Hg.
    + right. intros (_ & size & np & n & Hinfo' & Hg').
      rewrite Hinfo in Hinfo'. injection Hinfo' as <- <- <-. congruence.
    + left. split; [done|]. eauto 10.
  - right. intros [Hne' _]. congruence.
Qed.

(** X10: a batch allocation writes only into objects that were free, or,
    after a Grow, into the objects of the new span: no word of an allocated
    object changes. *)
Theorem AllocList_leaves_allocated_memory n st i first st' :
  Inv st → MCentral_AllocList n st = Ok (i, first) st' →
  (∀ a, a ∉ obtainable st → mem st' !! a = mem st !! a) ∧
  (∀ x, live st x → mem st' !! x = mem st !! x).
Proof.
  intros HInv Hrun.
  assert (∀ a, a ∉ obtainable st → mem st' !! a = mem st !! a) as Hmem.
  { destruct (out_of_memory_dec st HInv) as [Hoom|Hoom].
    - destruct Hoom as (Hne & size & np & nobj & Hinfo & Hg).
      rewrite (MCentral_AllocList_oom n st _ _ _ Hne Hinfo Hg) in Hrun.
      by injection Hrun as <- <- <-.
    - destruct (MCentral_AllocList_run n st HInv Hoom)
        as (st2 & popped & first2 & Hrun2 & _ & _ & Hmem).
      rewrite Hrun in Hrun2. by injection Hrun2 as _ _ <-. }
  split; [done|]. intros x Hx. apply Hmem. by apply obtainable_not_live.
Qed.

(** ** Two batches in a row *)

(** X9: two batch allocations in a row, the first of which leaves a free
    object in the pool, hand out the objects that a single allocation of the
    two counts together hands out, in the same order. *)
Theorem AllocList_twice n1 n2 st i1 first1 st1 i2 first2 st2 :
  Inv st →
  MCentral_AllocList n1 st = Ok (i1, first1) st1 →
  nonempty (central st1) ≠ [] →
  MCentral_AllocList n2 st1 = Ok (i2, first2) st2 →
  ∃ popped1 popped2 st3,
    chain (mem st1) first1 popped1 ∧ i1 = Z.of_nat (length popped1) ∧
    chain (mem st2) first2 popped2 ∧ i2 = Z.of_nat (length popped2) ∧
    i1 = Z.max n1 1 ∧
    MCentral_AllocList (Z.max n1 1 + Z.max n2 1) st = Ok (i1 + i2, first1) st3 ∧
    chain (mem st3) first1 (popped1 ++ popped2).
Proof.
  intros HInv Hrun1 Hne1 Hrun2.
  assert (¬ out_of_memory st) as Hoom.
  { intros (Hne & size & np & nobj & Hinfo & Hg).
    rewrite (MCentral_AllocList_oom n1 st _ _ _ Hne Hinfo Hg) in Hrun1.
    injection Hrun1 as <- <- <-. by apply Hne1. }
  destruct (MCentral_AllocList_run n1 st HInv Hoom)
    as (st1' & popped1 & f1 & Hr1 & Hpop1 & Hrest1 & _).
  rewrite Hrun1 in Hr1. injection Hr1 as Hi1 Hf1 Hs1. subst i1 f1 st1'.
  destruct (MCentral_AllocList_Inv _ _ _ _ _ HInv Hrun1)
    as (popped1' & Hlen1 & Hch1 & Hpost1).
  assert (popped1' = popped1) as ->.
  { destruct (MCentral_AllocList_obtainable n1 st HInv Hoom)
      as (st1' & p & f & Hr & Hp & _ & Hch & _).
    rewrite Hrun1 in Hr. injection Hr as _ Hf Hs. subst f st1'.
    rewrite <- Hpop1 in Hp. subst p.
    eapply chain_functional; eauto. }
  pose proof (alp_Inv _ _ _ Hpost1) as HInv1.
  assert (¬ out_of_memory st1) as Hoom1 by (by intros [? _]).
  destruct (MCentral_AllocList_obtainable n2 st1 HInv1 Hoom1)
    as (st2' & popped2 & f2 & Hr2 & Hpop2 & _ & Hch2 & _).
  rewrite Hrun2 in Hr2. injection Hr2 as Hi2 Hf2 Hs2. subst i2 f2 st2'.
  assert (obtainable st1 = avail st1) as Hob1.
  { unfold obtainable. by destruct (nonempty (central st1)). }
  assert (avail st1 ≠ []) as Hav1.
  { intros Hnil. by apply avail_nil in Hnil. }
  assert (length popped1 = Z.to_nat (Z.max n1 1)) as Hl1.
  { rewrite Hpop1, length_take. apply Nat.min_l.
    destruct (Nat.le_gt_cases (Z.to_nat (Z.max n1 1)) (length (obtainable st)))
      as [?|Hgt]; [done|].
    rewrite take_ge in Hpop1 by lia. rewrite <- Hpop1 in Hrest1.
    destruct (avail st1); [done|].
    apply (f_equal length) in Hrest1. rewrite length_app in Hrest1.
    simpl in Hrest1. lia. }
  destruct (MCentral_AllocList_obtainable (Z.max n1 1 + Z.max n2 1) st HInv Hoom)
    as (st3 & popped & f3 & Hr3 & Hpop3 & Hne3 & Hch3 & _).
  assert (popped = popped1 ++ popped2) as ->.
  { rewrite Hpop3, Hpop2, Hob1.
    assert (Z.to_nat (Z.max (Z.max n1 1 + Z.max n2 1) 1) =
            (length popped1 + Z.to_nat (Z.max n2 1))%nat) as -> by lia.
    rewrite Hrest1 at 1. by rewrite take_app_add. }
  assert (f3 = first1) as ->.
  { destruct popped1 as [|a p1]; [simpl in Hl1; lia|].
    simpl in Hch3, Hch1. destruct Hch3 as [-> _], Hch1 as [-> _]. done. }
  exists popped1, popped2, st3. split_and!; try done.
  - lia.
  - rewrite Hr3. by rewrite length_app, Nat2Z.inj_add.
Qed.

(** ** What a batch free writes *)

Lemma free_all_live_mem l st :
  Inv st → NoDup l → (∀ x, x ∈ l → live st x) →
  ∃ st', free_all l st = Ok tt st' ∧
         (∀ x, live st' x → live st x) ∧
         (∀ a, live st' a → mem st' !! a = mem st !! a).
Proof.
  revert st. induction l as [|v l IH]; intros st HInv Hnd Hlive.
  - exists st. by split_and!.
  - apply NoDup_cons in Hnd as [Hvl Hnd].
    destruct (MCentral_Free_live st v HInv) as (st1 & Hfree & Hpost).
    { apply Hlive. by left. }
    destruct (IH st1 (fp_Inv _ _ _ Hpost) Hnd) as (st2 & Hall & Hl2 & Hm2).
    { intros x Hx. apply (fp_live _ _ _ Hpost). split.
      - apply Hlive. by right.
      - by intros ->. }
    exists st2. split_and!.
    + cbn [free_all]. unfold mbind, M_bind. by rewrite Hfree.
    + intros x Hx. by apply (fp_live _ _ _ Hpost), Hl2.
    + intros a Ha. rewrite Hm2 by done. apply (fp_mem _ _ _ Hpost). auto.
Qed.

(** X11: a batch free of a chain of allocated objects writes the links of
    the objects it frees and the first word of a span it gives back: no word
    of an object that is still allocated afterwards changes, and no object
    becomes allocated. *)
Theorem FreeList_leaves_allocated_memory n start l st st' :
  Inv st → chain (mem st) start l → (∀ x, x ∈ l → live st x) →
  MCentral_FreeList n start st = Ok tt st' →
  (∀ x, live st' x ↔ live st x ∧ x ∉ l) ∧
  (∀ x, live st' x → mem st' !! x = mem st !! x).
Proof.
  intros HInv Hch Hlive Hrun.
  destruct (MCentral_FreeList_spec n start st l HInv Hch Hlive)
    as (st2 & Hrun2 & Hpost).
  rewrite Hrun in Hrun2. injection Hrun2 as <-.
  split; [exact (flp_live _ _ _ Hpost)|].
  set (st0 := log (EvLock (central st) (allspans (mheap st))) st).
  assert (same_pool st st0) as Hsame by done.
  pose proof (same_pool_Inv st st0 Hsame HInv) as HInv0.
  assert (∀ x, x ∈ l → live st0 x) as Hlive0.
  { intros x Hx. apply (same_pool_live st st0); auto. }
  destruct (FreeList_loop_spec l st0 start HInv0 Hch Hlive0)
    as (st1 & Hloop & Hall & _).
  destruct (free_all_live_mem l st0 HInv0 (chain_NoDup _ _ _ Hch) Hlive0)
    as (st1' & Hall' & _ & Hmem).
  rewrite Hall in Hall'. injection Hall' as <-.
  rewrite MCentral_FreeList_unfold in Hrun. cbn zeta in Hrun. fold st0 in Hrun.
  assert (FreeList_loop (S (total_ref (mheap st))) start st0 = Ok tt st1) as Heq.
  { pose proof (FreeList_loop_total (S (total_ref (mheap st))) start st0) as Ht.
    destruct (Nat.le_gt_cases (length l) (S (total_ref (mheap st)))) as [Hle|Hgt].
    - rewrite (FreeList_loop_mono (length l)); [done|done|]. by rewrite Hloop.
    - rewrite <- (FreeList_loop_mono (S (total_ref (mheap st))) (length l));
        [done|lia|]. apply Ht. cbn. lia. }
  rewrite Heq in Hrun. injection Hrun as <-.
  intros x Hx. cbn [mem log]. apply Hmem.
  by apply (same_pool_live st1 (log (EvUnlock (central st1)
                                       (allspans (mheap st1))) st1)).
Qed.

(** ** A free after the span has gone *)

(** X7: when a free has given the span of its object back to the heap, a
    free of any object that the heap found in that span aborts as invalid.
    *)
Theorem Free_after_release v x st st' sp :
  weak_inv st →
  allspans (mheap st) !! lookup_span st v = Some sp → ref sp = 1%N →
  MCentral_Free v st = Ok tt st' →
  lookup_span st x = lookup_span st v →
  lookup_span st' x = 0 ∧
  MCentral_Free x st' = Throw "invalid free" st'.
Proof.
  intros Hw Hsp Hr1 Hrun Hx.
  destruct (MCentral_Free_cases _ _ _ Hrun)
    as (Hs & Hv & sp0 & Hsp0 & _ & [[_ ->] | [Hne _]]).
  2:{ rewrite Hsp in Hsp0. by injection Hsp0 as <-. }
  rewrite Hsp in Hsp0. injection Hsp0 as <-.
  assert (lookup_span (free_release (lookup_span st v) sp v st) x = 0) as Hz.
  { unfold lookup_span in Hx, Hs |- *.
    unfold free_release, release_span. cbn [mheap pagemap].
    rewrite unmap_pages_lookup.
    change (pagemap (mheap (free_push (default 0 (pagemap (mheap st) !! (v ≫ PageShift))) sp v st)))
      with (pagemap (mheap st)).
    cbn [start npages pushed_span].
    destruct (pagemap (mheap st) !! (x ≫ PageShift)) as [s|] eqn:Hp;
      [|by case_decide].
    simpl in Hx. subst s.
    destruct (wi_pagemap _ Hw _ _ Hp) as (_ & sp1 & Hsp1 & Hrange).
    unfold lookup_span in Hsp. rewrite Hsp in Hsp1. injection Hsp1 as <-.
    by rewrite decide_True. }
  split; [done|]. apply MCentral_Free_invalid. by left.
Qed.

(** ** What a Grow carves *)

Lemma slot_addrs_lookup k size p i :
  (i < k)%nat → slot_addrs k size p !! i = Some (p + size * Z.of_nat i).
Proof.
  revert p i. induction k as [|k IH]; intros p i Hi; [lia|].
  destruct i as [|i]; simpl.
  - f_equal. lia.
  - rewrite IH by lia. f_equal. lia.
Qed.

(** X1: a Grow that the heap can serve puts one new span at the head of the
    nonempty list. The span starts at the first unused page of the arena,
    counts no allocated object, and its free list is the chain of its
    [class_nobj] objects in ascending address order, one object size apart
    from the first byte of the span on; every object lies on a page of the
    span and [limit] is the end of the last one, within the span. The
    counter goes up by the number of objects, and memory outside the new
    objects is as before. *)
Theorem Grow_carves st :
  Inv st →
  heap_can_grant (mheap st) (class_to_allocnpages (sizeclass (central st))) = true →
  ∃ st' sp,
    MCentral_Grow st = Ok true st' ∧
    nonempty (central st') = nspan (mheap st) :: nonempty (central st) ∧
    empty (central st') = empty (central st) ∧
    nfree (central st') = nfree (central st) + class_nobj (sizeclass (central st)) ∧
    allspans (mheap st') !! nspan (mheap st) = Some sp ∧
    start sp = arena_used (mheap st) ∧
    npages sp = class_to_allocnpages (sizeclass (central st)) ∧
    ref sp = 0%N ∧
    chain (mem st') (freelist sp) (span_slots (sizeclass (central st)) sp) ∧
    (∀ i, (i < Z.to_nat (class_nobj (sizeclass (central st))))%nat →
          span_slots (sizeclass (central st)) sp !! i =
          Some (Z.shiftl (start sp) PageShift +
                class_to_size (sizeclass (central st)) * Z.of_nat i)) ∧
    length (span_slots (sizeclass (central st)) sp) =
      Z.to_nat (class_nobj (sizeclass (central st))) ∧
    (∀ a, a ∈ span_slots (sizeclass (central st)) sp →
          start sp ≤ Z.shiftr a PageShift < start sp + npages sp) ∧
    limit sp = Z.shiftl (start sp) PageShift +
               class_to_size (sizeclass (central st)) *
               class_nobj (sizeclass (central st)) ∧
    limit sp ≤ Z.shiftl (start sp + npages sp) PageShift ∧
    (∀ a, a ∉ span_slots (sizeclass (central st)) sp →
          mem st' !! a = mem st !! a) ∧
    Inv st'.
Proof.
  intros HInv Hg.
  pose proof (inv_geo _ HInv) as Hgeo.
  set (sc := sizeclass (central st)) in *.
  eexists _, _. split; [exact (grow_unfold st HInv Hg)|].
  split_and!.
  - done.
  - done.
  - done.
  - apply grow_lookup_s.
  - done.
  - done.
  - done.
  - apply (grow_chain st HInv).
  - intros i Hi. unfold span_slots. by apply slot_addrs_lookup.
  - unfold span_slots. apply length_slot_addrs.
  - intros a Ha.
    refine (proj2 (slot_page sc Hgeo _ a _ _ Ha)).
    + exact (inv_arena _ HInv).
    + done.
  - done.
  - cbn [limit grow_span start npages].
    pose proof (class_nobj_fits sc Hgeo). destruct Hgeo.
    rewrite !Z.shiftl_mul_pow2 by done.
    fold sc. nia.
  - intros a Ha. unfold grow_ok. cbn [mem]. apply carve_mem_other.
    by rewrite <- grow_slots.
  - by apply grow_Inv.
Qed.

(** ** The lock *)

Lemma MCentral_Alloc_trace st v st' :
  MCentral_Alloc st = Ok v st' → trace st' = trace st.
Proof.
  destruct (nonempty (central st)) as [|s rest] eqn:Hne.
  - rewrite MCentral_Alloc_nil by done. by intros [= <- <-].
  - destruct (allspans (mheap st) !! s) as [sp|] eqn:Hsp.
    + rewrite (MCentral_Alloc_unfold st s rest sp Hne Hsp).
      destruct (freelist sp =? 0); [done|].
      destruct (mem st !! freelist sp) as [next|]; [|done].
      by intros [= <- <-].
    + unfold MCentral_Alloc, MSpanList_first. munfold. rewrite Hne. simpl.
      munfold. by rewrite Hsp.
Qed.

Lemma store_trace a w st st' : store a w st = Ok tt st' → trace st' = trace st.
Proof. unfold store. destruct (a =? 0); [done|]. by intros [= <-]. Qed.

Lemma span_upd_trace s f st st' :
  span_upd s f st = Ok tt st' → trace st' = trace st.
Proof.
  unfold span_upd. destruct (allspans (mheap st) !! s); [|done].
  by intros [= <-].
Qed.

Lemma AllocList_loop_trace k i last st r st' :
  AllocList_loop k i last st = Ok r st' → trace st' = trace st.
Proof.
  revert i last st. induction k as [|k IH]; intros i last st; simpl.
  - by intros [= <- <-].
  - intros (v & st1 & Hv & H)%bind_Ok.
    apply MCentral_Alloc_trace in Hv.
    destruct (v =? 0); [injection H as <- <-; done|].
    apply bind_Ok in H as ([] & st2 & Hst & H).
    apply store_trace in Hst. apply IH in H. congruence.
Qed.

Lemma AllocList_body_trace n st r st' :
  AllocList_body n st = Ok r st' →
  ∃ c spans, trace st' = EvUnlock c spans :: trace st.
Proof.
  unfold AllocList_body.
  intros (v & st1 & Hv & H)%bind_Ok. apply MCentral_Alloc_trace in Hv.
  apply bind_Ok in H as (r' & st2 & Hloop & H).
  apply AllocList_loop_trace in Hloop.
  apply bind_Ok in H as ([] & st3 & Hst & H). apply store_trace in Hst.
  revert H. munfold. intros [= <- <-]. cbn [trace].
  eexists _, _. f_equal. congruence.
Qed.

Lemma carve_trace k size p t st t' st' :
  carve k size p t st = Ok t' st' → trace st' = trace st.
Proof.
  revert p t st. induction k as [|k IH]; intros p t st; simpl.
  - by intros [= <- <-].
  - intros ([] & st1 & Hst & H)%bind_Ok. apply IH in H. rewrite H.
    destruct t; [by eapply span_upd_trace|by eapply store_trace].
Qed.

Lemma MCentral_Grow_trace st b st' :
  MCentral_Grow st = Ok b st' →
  ∃ c1 s1 c2 s2 np sc s,
    trace st' = EvLock c2 s2 :: EvHeapAlloc np sc s :: EvUnlock c1 s1 :: trace st ∨
    ∃ p size n lo,
      trace st' = EvLock c2 s2 :: EvMarkspan p size n lo ::
                  EvHeapAlloc np sc s :: EvUnlock c1 s1 :: trace st.
Proof.
  unfold MCentral_Grow.
  intros ([] & st1 & Hun & H)%bind_Ok.
  revert Hun. munfold. intros [= <-].
  apply bind_Ok in H as (c & st2 & Hc & H). injection Hc as <- <-.
  cbn [central] in H.
  destruct (MGetSizeClassInfo (sizeclass (central st))) as [[[size np] n]|];
    [|done].
  apply bind_Ok in H as (s & st3 & Halloc & H).
  assert (∃ sc s', trace st3 = EvHeapAlloc np sc s' ::
                     EvUnlock (central st) (allspans (mheap st)) :: trace st)
    as (sc & s' & Ht3).
  { revert Halloc. unfold MHeap_Alloc. cbn [mheap].
    destruct (heap_can_grant (mheap st) np); intros [= <- <-]; cbn; eauto. }
  destruct (s =? 0).
  - revert H. munfold. intros [= <- <-]. cbn [trace].
    eexists _, _, _, _, _, _, _. left. by rewrite Ht3.
  - apply bind_Ok in H as (sp & st4 & Hget & H).
    assert (st4 = st3) as ->.
    { revert Hget. unfold span_get. destruct (_ !! _); [|done]. by intros [= _ <-]. }
    apply bind_Ok in H as ([] & st5 & Hlim & H). apply span_upd_trace in Hlim.
    apply bind_Ok in H as (tp & st6 & Hcarve & H). apply carve_trace in Hcarve.
    apply bind_Ok in H as ([] & st7 & Htail & H).
    assert (trace st7 = trace st6) as Ht7.
    { destruct tp; [by eapply span_upd_trace|by eapply store_trace]. }
    revert H. munfold. intros [= <- <-]. cbn [trace].
    eexists _, _, _, _, _, _, _. right. eexists _, _, _, _.
    rewrite Ht7, Hcarve, Hlim, Ht3. done.
Qed.

Lemma lock_held_Grow st b st' :
  lock_held (trace st) = Some true → MCentral_Grow st = Ok b st' →
  lock_held (trace st') = Some true.
Proof.
  intros Hl (c1 & s1 & c2 & s2 & np & sc & s & [-> | (p & size & n & lo & ->)])
    %MCentral_Grow_trace; cbn [lock_held]; by rewrite Hl.
Qed.

Lemma lock_held_Free v st st' :
  lock_held (trace st) = Some true → MCentral_Free v st = Ok tt st' →
  lock_held (trace st') = Some true.
Proof.
  intros Hl (_ & _ & sp & _ & _ & [[_ ->] | [_ ->]])%MCentral_Free_cases.
  - unfold free_release, release_span. cbn [trace lock_held free_push].
    by rewrite Hl.
  - done.
Qed.

Lemma lock_held_FreeList_loop fuel v st :
  lock_held (trace st) = Some true →
  match FreeList_loop fuel v st with
  | Ok _ st' | Throw _ st' => lock_held (trace st') = Some true
  | _ => True
  end.
Proof.
  revert v st. induction fuel as [|fuel IH]; intros v st Hl; simpl.
  - by destruct (v =? 0).
  - destruct (v =? 0); [done|]. unfold mbind, M_bind.
    destruct (load v st) as [w st1| | |] eqn:Hld; try done.
    2:{ revert Hld. unfold load. by repeat case_match. }
    apply load_Ok in Hld as (-> & _ & _).
    destruct (MCentral_Free v st) as [[] st2| | |] eqn:Hfree; try done.
    + apply IH. by eapply lock_held_Free.
    + by apply MCentral_Free_Throw in Hfree as (_ & -> & _).
Qed.

(** X13: the two batch operations take the pool lock when it is free and
    return with it free; in between it is taken and released in turn, and it
    is never held during a call into the page heap. A batch free that aborts
    does so with the lock held. The helpers, which run with the lock held,
    return with it held. *)
Theorem lock_discipline st :
  (lock_held (trace st) = Some false →
   (∀ n r st', MCentral_AllocList n st = Ok r st' →
               lock_held (trace st') = Some false) ∧
   (∀ n start st', MCentral_FreeList n start st = Ok tt st' →
                   lock_held (trace st') = Some false) ∧
   (∀ n start msg st', MCentral_FreeList n start st = Throw msg st' →
                       lock_held (trace st') = Some true)) ∧
  (lock_held (trace st) = Some true →
   (∀ b st', MCentral_Grow st = Ok b st' → lock_held (trace st') = Some true) ∧
   (∀ v st', MCentral_Alloc st = Ok v st' → lock_held (trace st') = Some true) ∧
   (∀ v st', MCentral_Free v st = Ok tt st' →
             lock_held (trace st') = Some true)).
Proof.
  split.
  - intros Hl.
    set (st0 := log (EvLock (central st) (allspans (mheap st))) st).
    assert (lock_held (trace st0) = Some true) as Hl0.
    { unfold st0. cbn [trace log lock_held]. by rewrite Hl. }
    split_and!.
    + intros n r st'. rewrite MCentral_AllocList_unfold. cbn zeta. fold st0.
      destruct (nonempty (central st)).
      * destruct (MCentral_Grow st0) as [[] stg| | |] eqn:Hgrow; try done.
        -- pose proof (lock_held_Grow _ _ _ Hl0 Hgrow) as Hlg.
           intros (c & spans & ->)%AllocList_body_trace.
           cbn [lock_held]. by rewrite Hlg.
        -- pose proof (lock_held_Grow _ _ _ Hl0 Hgrow) as Hlg.
           intros [= <- <-]. cbn [trace log lock_held]. by rewrite Hlg.
      * intros (c & spans & ->)%AllocList_body_trace.
        cbn [lock_held]. by rewrite Hl0.
    + intros n start st'. rewrite MCentral_FreeList_unfold. cbn zeta. fold st0.
      pose proof (lock_held_FreeList_loop (S (total_ref (mheap st))) start st0 Hl0)
        as H.
      destruct (FreeList_loop _ _ _); try done.
      intros [= <-]. cbn [trace log lock_held]. by rewrite H.
    + intros n start msg st'. rewrite MCentral_FreeList_unfold. cbn zeta. fold st0.
      pose proof (lock_held_FreeList_loop (S (total_ref (mheap st))) start st0 Hl0)
        as H.
      destruct (FreeList_loop _ _ _); try done. by intros [= <- <-].
  - intros Hl. split_and!.
    + intros b st'. by apply lock_held_Grow.
    + intros v st' Hrun. apply MCentral_Alloc_trace in Hrun. by rewrite Hrun.
    + intros v st'. by apply lock_held_Free.
Qed.

(** ** The batch operations return *)

(** X4: from a state reached from an initialised pool a batch allocation
    always returns: its first [MCentral_Alloc] finds an object whenever the
    Grow before it did not fail, so no nil link is followed or written. A
    batch free of a chain of allocated objects returns as well. Both lead to
    a state of the same kind. *)
Theorem batch_operations_return st :
  reachable st →
  (∀ n, ∃ i first st',
     MCentral_AllocList n st = Ok (i, first) st' ∧ reachable st' ∧
     (i = 0 ↔ out_of_memory st)) ∧
  (∀ n start l,
     chain (mem st) start l → (∀ x, x ∈ l → live st x) →
     ∃ st', MCentral_FreeList n start st = Ok tt st' ∧ reachable st').
Proof.
  intros Hreach. pose proof (reachable_Inv st Hreach) as [HInv _]. split.
  - intros n. destruct (out_of_memory_dec st HInv) as [Hoom|Hoom].
    + pose proof Hoom as (Hne & size & np & nobj & Hinfo & Hg).
      pose proof (MCentral_AllocList_oom n st _ _ _ Hne Hinfo Hg) as Hrun.
      eexists 0, 0, _. split_and!; [done| |done].
      eapply reach_alloc; eauto.
    + destruct (MCentral_AllocList_obtainable n st HInv Hoom)
        as (st' & popped & first & Hrun & _ & Hne & _).
      eexists _, first, st'. split_and!; [done| |].
      * eapply reach_alloc; eauto.
      * destruct popped; [done|]. simpl. split; [lia|done].
  - intros n start l Hch Hlive.
    destruct (MCentral_FreeList_spec n start st l HInv Hch Hlive)
      as (st' & Hrun & _).
    exists st'. split; [done|]. eapply reach_free; eauto.
Qed.

End Central.

(** * The scenarios

    The pool of the scenarios is a pool as [MCentral_Init] leaves it; it
    satisfies the invariants and its heap can grant spans. *)

Lemma scenario_geometry sc :
  geometry_ok scenario_PageShift scenario_size scenario_npages sc.
Proof. constructor; vm_compute; congruence. Qed.

Lemma fresh_pool_Init :
  MCentral_Init 0 fresh_pool = Ok tt fresh_pool.
Proof. reflexivity. Qed.

Lemma fresh_pool_Inv :
  Inv scenario_PageShift scenario_size scenario_npages fresh_pool.
Proof.
  refine (proj1 (MCentral_Init_Inv _ _ _ ∅ (heap_init 1 1000)
                   (mkMCentral 0 [] [] 0) [] 0 fresh_pool _ _ _
                   (scenario_geometry 0) fresh_pool_Init)); done.
Qed.

Lemma fresh_pool_settled : settled fresh_pool.
Proof. intros s sp Hs. by apply elem_of_nil in Hs. Qed.

Lemma fresh_pool_reachable :
  reachable scenario_PageShift scenario_size scenario_npages fresh_pool.
Proof.
  refine (reach_init _ _ _ ∅ (heap_init 1 1000) (mkMCentral 0 [] [] 0) [] 0
            fresh_pool _ _ _ (scenario_geometry 0) fresh_pool_Init); done.
Qed.

Lemma fresh_pool_weak_inv : weak_inv fresh_pool.
Proof.
  refine (weak_inv_Init ∅ (heap_init 1 1000) (mkMCentral 0 [] [] 0) 0
            fresh_pool _ _ fresh_pool_Init); done.
Qed.

Lemma scenario_not_out_of_memory st :
  heap_can_grant (mheap st) 1 = true →
  ¬ out_of_memory scenario_PageShift scenario_size scenario_npages st.
Proof.
  intros Hg (_ & size & np & n & Hinfo & Hng).
  vm_compute in Hinfo. injection Hinfo as <- <- <-. congruence.
Qed.

(** C9: for a size class whose configuration makes sense,
    [MGetSizeClassInfo] returns the object size and the page count of the
    tables and, as the number of objects, [(npages * 2^PageShift) / size]; it
    is a function of the tables alone and has no state to change.  With
    objects of 16 bytes and spans of one page of 8192 bytes that is 512
    objects, and the first batch allocation of 10 objects from a pool that
    owns no span asks the heap for exactly one span, hands out a chain of 10
    objects and leaves the counter at 502. *)
Theorem C9_size_class_info :
  (∀ PageShift class_to_size class_to_allocnpages sc,
     geometry_ok PageShift class_to_size class_to_allocnpages sc →
     MGetSizeClassInfo PageShift class_to_size class_to_allocnpages sc =
       Some (class_to_size sc, class_to_allocnpages sc,
             (class_to_allocnpages sc * 2 ^ PageShift) / class_to_size sc)) ∧
  (∀ sc, MGetSizeClassInfo scenario_PageShift scenario_size scenario_npages sc
         = Some (16, 1, 512)) ∧
  (∀ st,
     Inv scenario_PageShift scenario_size scenario_npages st →
     owned (central st) = [] → nfree (central st) = 0 →
     heap_can_grant (mheap st) 1 = true →
     ∃ st' first popped,
       MCentral_AllocList scenario_PageShift scenario_size scenario_npages
         10 st = Ok (10, first) st' ∧
       chain (mem st') first popped ∧ length popped = 10%nat ∧
       nfree (central st') = 502 ∧
       heap_requests (trace st') = nspan (mheap st) :: heap_requests (trace st) ∧
       nspan (mheap st) ≠ 0).
Proof.
  split_and!.
  - intros PageShift class_to_size class_to_allocnpages sc Hgeo.
    rewrite (MGetSizeClassInfo_ok _ _ _ _ Hgeo).
    by rewrite (class_nobj_div _ _ _ _ Hgeo).
  - intros sc. reflexivity.
  - intros st HInv Hown Hnf Hg.
    assert (nonempty (central st) = []) as Hne.
    { unfold owned in Hown. by apply app_eq_nil in Hown as [-> _]. }
    destruct (MCentral_AllocList_grow _ _ _ 10 st HInv Hne Hg)
      as (st' & popped & first & Hrun & Hpop & _ & Hch & _ & Hreq & Hnfree).
    assert (length popped = 10%nat) as Hlen.
    { rewrite Hpop, length_take, length_slot_addrs. vm_compute. done. }
    exists st', first, popped. rewrite Hlen in Hrun. split_and!; try done.
    + rewrite Hnfree, Hnf, Hlen. reflexivity.
    + unfold heap_can_grant in Hg.
      destruct (nspan (mheap st) =? 0) eqn:Hns; [|by apply Z.eqb_neq].
      by rewrite andb_false_r in Hg.
Qed.

(** C3 as stated fails for a request of no object: the batch allocation
    takes its first object before it looks at the count. *)
Lemma C3_count_zero_grants_one :
  Inv scenario_PageShift scenario_size scenario_npages fresh_pool ∧
  ∃ i first st',
    MCentral_AllocList scenario_PageShift scenario_size scenario_npages
      0 fresh_pool = Ok (i, first) st' ∧
    i = 1 ∧ ¬ (i ≤ 0).
Proof.
  split; [exact fresh_pool_Inv|].
  eexists 1, 8192, _. split; [|split; [done|lia]].
  vm_compute. reflexivity.
Qed.

(** C7 as stated fails: a request for 600 objects from the fresh pool is
    granted the 512 objects of the one span the heap was asked for, and the
    heap, which could have granted another span, is not asked again. *)
Lemma C7_no_second_grow :
  ∃ first st',
    MCentral_AllocList scenario_PageShift scenario_size scenario_npages
      600 fresh_pool = Ok (512, first) st' ∧
    heap_requests (trace st') = [1] ∧
    heap_can_grant (mheap st') 1 = true ∧
    nonempty (central st') = [] ∧
    nfree (central st') = 0.
Proof.
  eexists 8192, _. split; [|split_and!].
  - vm_compute. reflexivity.
  - vm_compute. reflexivity.
  - vm_compute. reflexivity.
  - vm_compute. reflexivity.
  - vm_compute. reflexivity.
Qed.

(** * The theorems at work

    Each theorem with a hypothesis is applied once to a pool of the
    scenarios. *)

(** The fresh pool after a batch allocation of ten objects. *)
Lemma pool_after_ten_run :
  MCentral_AllocList scenario_PageShift scenario_size scenario_npages
    10 fresh_pool =
  Ok (10, 8192)
     (state_of (MCentral_AllocList scenario_PageShift scenario_size
                  scenario_npages 10 fresh_pool) fresh_pool).
Proof. vm_compute. reflexivity. Qed.

Lemma pool_after_ten_Inv :
  let st := state_of (MCentral_AllocList scenario_PageShift scenario_size
                        scenario_npages 10 fresh_pool) fresh_pool in
  Inv scenario_PageShift scenario_size scenario_npages st ∧ settled st ∧
  weak_inv st ∧
  reachable scenario_PageShift scenario_size scenario_npages st.
Proof.
  intros st.
  destruct (MCentral_AllocList_Inv _ _ _ _ _ _ _ _ fresh_pool_Inv
              pool_after_ten_run) as (popped & _ & _ & Hpost).
  split_and!.
  - exact (alp_Inv _ _ _ _ _ _ Hpost).
  - exact (alp_settled _ _ _ _ _ _ Hpost fresh_pool_settled).
  - exact (proj1 (weak_inv_AllocList _ _ _ _ _ _ _ fresh_pool_weak_inv
                    (scenario_geometry _) pool_after_ten_run)).
  - exact (reach_alloc _ _ _ _ _ _ _ fresh_pool_reachable pool_after_ten_run).
Qed.

(** After ten objects were handed out, the one span of the pool has free
    objects and is on the nonempty list. *)
Lemma C1_list_membership_witness :
  let st := state_of (MCentral_AllocList scenario_PageShift scenario_size
                        scenario_npages 10 fresh_pool) fresh_pool in
  weak_inv st ∧
  geometry_ok scenario_PageShift scenario_size scenario_npages
    (sizeclass (central st)) ∧
  membership (central st) (allspans (mheap st)) ∧
  Forall event_ok (trace st) ∧
  nonempty (central st) = [1].
Proof.
  intros st.
  destruct pool_after_ten_Inv as (_ & _ & Hw & _). fold st in Hw.
  pose proof (scenario_geometry (sizeclass (central st))) as Hgeo.
  destruct (C1_list_membership _ _ _ st Hw Hgeo) as (Hm & Hev & _).
  split_and!; first [done | vm_compute; reflexivity].
Defined.

(** After ten objects were handed out, 502 objects are on the free list
    of the one span; the counter says so. *)
Lemma C2_counter_witness :
  let st := state_of (MCentral_AllocList scenario_PageShift scenario_size
                        scenario_npages 10 fresh_pool) fresh_pool in
  reachable scenario_PageShift scenario_size scenario_npages st ∧
  count_free st = Some 502.
Proof.
  intros st.
  destruct pool_after_ten_Inv as (_ & _ & _ & Hreach). fold st in Hreach.
  split; [done|].
  rewrite (C2_counter_is_sum_of_free_lists _ _ _ st Hreach).
  vm_compute. reflexivity.
Defined.

(** A request for ten objects from the fresh pool. *)
Lemma C3_granted_witness :
  Inv scenario_PageShift scenario_size scenario_npages fresh_pool ∧
  ¬ out_of_memory scenario_PageShift scenario_size scenario_npages fresh_pool ∧
  ∃ st' popped first,
    MCentral_AllocList scenario_PageShift scenario_size scenario_npages
      10 fresh_pool = Ok (Z.of_nat (length popped), first) st' ∧
    chain (mem st') first popped ∧
    popped = take (Z.to_nat (Z.max 10 1))
               (obtainable scenario_PageShift scenario_size scenario_npages
                  fresh_pool) ∧
    1 ≤ Z.of_nat (length popped) ≤ Z.max 10 1 ∧
    (1 ≤ 10 → Z.of_nat (length popped) ≤ 10).
Proof.
  assert (¬ out_of_memory scenario_PageShift scenario_size scenario_npages
            fresh_pool) as Hoom
    by (apply scenario_not_out_of_memory; reflexivity).
  split; [exact fresh_pool_Inv|]. split; [exact Hoom|].
  exact (C3_granted_between_one_and_count _ _ _ 10 fresh_pool
           fresh_pool_Inv Hoom).
Defined.

(** A request for 600 objects from the fresh pool. *)
Lemma C7_no_grow_witness :
  Inv scenario_PageShift scenario_size scenario_npages fresh_pool ∧
  ¬ out_of_memory scenario_PageShift scenario_size scenario_npages fresh_pool ∧
  ∃ st' i first,
    MCentral_AllocList scenario_PageShift scenario_size scenario_npages
      600 fresh_pool = Ok (i, first) st' ∧
    i = Z.min (Z.max 600 1)
          (Z.of_nat (length (obtainable scenario_PageShift scenario_size
                               scenario_npages fresh_pool))) ∧
    heap_requests (trace st') =
      grow_requests fresh_pool ++ heap_requests (trace fresh_pool) ∧
    (length (grow_requests fresh_pool) ≤ 1)%nat.
Proof.
  assert (¬ out_of_memory scenario_PageShift scenario_size scenario_npages
            fresh_pool) as Hoom
    by (apply scenario_not_out_of_memory; reflexivity).
  split; [exact fresh_pool_Inv|]. split; [exact Hoom|].
  exact (C7_no_grow_in_mid_batch _ _ _ 600 fresh_pool fresh_pool_Inv Hoom).
Defined.

(** Five more objects are taken from the pool that has handed out ten,
    and given back. *)
Lemma C8_round_trip_witness :
  let st := state_of (MCentral_AllocList scenario_PageShift scenario_size
                        scenario_npages 10 fresh_pool) fresh_pool in
  let st1 := state_of (MCentral_AllocList scenario_PageShift scenario_size
                         scenario_npages 5 st) st in
  let st2 := state_of (MCentral_FreeList scenario_PageShift scenario_size
                         5 8352 st1) st1 in
  Inv scenario_PageShift scenario_size scenario_npages st ∧ settled st ∧
  MCentral_AllocList scenario_PageShift scenario_size scenario_npages 5 st =
    Ok (5, 8352) st1 ∧
  MCentral_FreeList scenario_PageShift scenario_size 5 8352 st1 = Ok tt st2 ∧
  owned (central st2) ≡ₚ owned (central st) ∧
  nfree (central st2) = nfree (central st) ∧
  nfree (central st) = 502 ∧ nfree (central st1) = 497.
Proof.
  intros st st1 st2.
  destruct pool_after_ten_Inv as (HInv & Hset & _ & _). fold st in HInv, Hset.
  assert (MCentral_AllocList scenario_PageShift scenario_size scenario_npages
            5 st = Ok (5, 8352) st1) as Hrun by (vm_compute; reflexivity).
  destruct (C8_alloc_then_free_restores _ _ _ 5 5 st 5 8352 st1 HInv Hset Hrun)
    as (st2' & Hfree & _ & _ & Hown & _ & Hnf).
  assert (st2' = st2) as -> by (unfold st2; by rewrite Hfree).
  split_and!; first [done | vm_compute; reflexivity].
Defined.

(** The only allocated object of a span is freed: the span goes back to
    the heap and the counter falls from 511 to 0. *)
Lemma C6_release_witness :
  let st := state_of (MCentral_AllocList scenario_PageShift scenario_size
                        scenario_npages 1 fresh_pool) fresh_pool in
  let st' := state_of (MCentral_Free scenario_PageShift scenario_size
                         8192 st) st in
  MCentral_Free scenario_PageShift scenario_size 8192 st = Ok tt st' ∧
  nfree (central st) = 511 ∧
  released (trace st) = [] ∧
  released (trace st') = [1] ∧
  nfree (central st') = 0 ∧
  mem st' !! 8192 = Some 1.
Proof.
  intros st st'.
  assert (MCentral_Free scenario_PageShift scenario_size 8192 st = Ok tt st')
    as Hrun by (vm_compute; reflexivity).
  destruct (proj1 (C6_span_returned_when_last_object_freed
                     scenario_PageShift scenario_size scenario_npages st)
              8192 st' Hrun)
    as (sp & sp' & Hsp & Hsp' & _ & Hr & Hrel & _).
  vm_compute in Hsp. injection Hsp as <-.
  destruct (Hrel Hr) as (H1 & _ & H3 & _ & H5 & _).
  split_and!; first [done | vm_compute; reflexivity].
Defined.

(** A chain of three objects is freed with the counts 3 and 0. *)
Lemma C10_free_batch_witness :
  let st := state_of (MCentral_AllocList scenario_PageShift scenario_size
                        scenario_npages 3 fresh_pool) fresh_pool in
  MCentral_FreeList scenario_PageShift scenario_size 3 8192 st =
  MCentral_FreeList scenario_PageShift scenario_size 0 8192 st ∧
  MCentral_FreeList scenario_PageShift scenario_size 3 8192 st =
  (runtime_lock;;
   free_all scenario_PageShift scenario_size [8192; 8208; 8224];;
   runtime_unlock) st.
Proof.
  intros st.
  destruct (C10_free_batch_ignores_count scenario_PageShift scenario_size
              scenario_npages 8192 st) as [Hn Hall].
  split; [apply Hn|].
  apply (Hall 3 [8192; 8208; 8224]).
  - done.
  - intros s sp Hsp.
    assert (allspans (mheap st) = {[1 := mkMSpan 1 1 8240 3%N 16384 0]}) as Heq
      by (vm_compute; reflexivity).
    rewrite Heq in Hsp. apply lookup_singleton_Some in Hsp as [_ <-]. done.
  - cbn [chain].
    repeat (split; [done|]; split; [done|];
            eexists; split; [vm_compute; reflexivity|]).
    done.
Defined.

(** A pool with no span beside a heap that has no page left. *)
Lemma C4_exhausted_heap_witness :
  let st := mkState ∅ (heap_init 1 1) (mkMCentral 0 [] [] 0) [] in
  out_of_memory scenario_PageShift scenario_size scenario_npages st ∧
  ∃ np st',
    MCentral_AllocList scenario_PageShift scenario_size scenario_npages
      10 st = Ok (0, 0) st' ∧
    mem st' = mem st ∧ mheap st' = mheap st ∧ central st' = central st ∧
    heap_requests (trace st') = 0 :: heap_requests (trace st) ∧
    trace st' =
      [EvUnlock (central st) (allspans (mheap st));
       EvLock (central st) (allspans (mheap st));
       EvHeapAlloc np (sizeclass (central st)) 0;
       EvUnlock (central st) (allspans (mheap st));
       EvLock (central st) (allspans (mheap st))] ++ trace st.
Proof.
  intros st.
  assert (out_of_memory scenario_PageShift scenario_size scenario_npages st)
    as Hoom.
  { split; [done|]. exists 16, 1, 512. split; reflexivity. }
  split; [exact Hoom|].
  exact (proj2 (C4_out_of_memory_signal scenario_PageShift scenario_size
                  scenario_npages 10 st) Hoom).
Defined.

(** The object freed above is freed again: its page now belongs to no
    span. *)
Lemma C5_double_free_witness :
  let st1 := state_of (MCentral_AllocList scenario_PageShift scenario_size
                         scenario_npages 1 fresh_pool) fresh_pool in
  let st := state_of (MCentral_Free scenario_PageShift scenario_size
                        8192 st1) st1 in
  MCentral_Free scenario_PageShift scenario_size 8192 st1 = Ok tt st ∧
  lookup_span scenario_PageShift st 8192 = 0 ∧
  ∃ msg st', MCentral_Free scenario_PageShift scenario_size 8192 st =
             Throw msg st'.
Proof.
  intros st1 st.
  assert (lookup_span scenario_PageShift st 8192 = 0) as Hs
    by (vm_compute; reflexivity).
  split; [vm_compute; reflexivity|]. split; [exact Hs|].
  apply (proj1 (proj2 (C5_invalid_free_is_fatal scenario_PageShift
                         scenario_size scenario_npages 8192 st))).
  by left.
Defined.

(** Scenario A on the fresh pool. *)
Lemma C9_scenario_A_witness :
  ∃ st' first popped,
    MCentral_AllocList scenario_PageShift scenario_size scenario_npages
      10 fresh_pool = Ok (10, first) st' ∧
    chain (mem st') first popped ∧ length popped = 10%nat ∧
    nfree (central st') = 502 ∧
    heap_requests (trace st') =
      nspan (mheap fresh_pool) :: heap_requests (trace fresh_pool) ∧
    nspan (mheap fresh_pool) ≠ 0.
Proof.
  apply (proj2 (proj2 C9_size_class_info) fresh_pool fresh_pool_Inv);
    reflexivity.
Defined.


(** * The further theorems at work *)

Lemma scenario_class_nobj sc :
  class_nobj scenario_PageShift scenario_size scenario_npages sc = 512.
Proof. reflexivity. Qed.

(** The fresh pool grows by one span. *)
Lemma Grow_carves_witness :
  Inv scenario_PageShift scenario_size scenario_npages fresh_pool ∧
  ∃ st' sp,
    MCentral_Grow scenario_PageShift scenario_size scenario_npages fresh_pool
      = Ok true st' ∧
    nonempty (central st') = [1] ∧
    nfree (central st') = 512 ∧
    allspans (mheap st') !! 1 = Some sp ∧
    chain (mem st') (freelist sp)
      (span_slots scenario_PageShift scenario_size scenario_npages 0 sp) ∧
    span_slots scenario_PageShift scenario_size scenario_npages 0 sp !! 2%nat
      = Some 8224 ∧
    limit sp = 16384.
Proof.
  split; [exact fresh_pool_Inv|].
  destruct (Grow_carves scenario_PageShift scenario_size scenario_npages
              fresh_pool fresh_pool_Inv eq_refl)
    as (st' & sp & Hrun & Hne & _ & Hnf & Hsp & Hstart & _ & _ & Hch & Hidx & _
        & _ & Hlim & _).
  exists st', sp. split; [exact Hrun|]. split; [exact Hne|].
  split; [exact Hnf|]. split; [exact Hsp|]. split; [exact Hch|]. split.
  - assert (2 < Z.to_nat (class_nobj scenario_PageShift scenario_size
                             scenario_npages (sizeclass (central fresh_pool))))%nat
      as H2 by (rewrite scenario_class_nobj; lia).
    apply Hidx in H2. rewrite Hstart in H2. exact H2.
  - rewrite Hlim, Hstart. reflexivity.
Defined.

(** The one span of the pool that has handed out ten objects. *)
Lemma span_accounting_witness :
  let st := state_of (MCentral_AllocList scenario_PageShift scenario_size
                        scenario_npages 10 fresh_pool) fresh_pool in
  reachable scenario_PageShift scenario_size scenario_npages st ∧
  1 ∈ owned (central st) ∧
  ∃ sp l,
    allspans (mheap st) !! 1 = Some sp ∧ free_objects st 1 = Some l ∧
    NoDup l ∧ length l = 502%nat ∧ ref sp = 10%N.
Proof.
  intros st.
  destruct pool_after_ten_Inv as (_ & _ & _ & Hreach). fold st in Hreach.
  assert (1 ∈ owned (central st)) as Hin by (vm_compute; by left).
  split; [exact Hreach|]. split; [exact Hin|].
  destruct (span_accounting _ _ _ st 1 Hreach Hin)
    as (sp & l & Hsp & Hl & _ & Hnd & _ & Hcount & _).
  assert (ref sp = 10%N) as Hr.
  { pose proof Hsp as Hsp'. vm_compute in Hsp'. by injection Hsp' as <-. }
  exists sp, l. split; [exact Hsp|]. split; [exact Hl|]. split; [exact Hnd|].
  split; [|exact Hr].
  rewrite scenario_class_nobj, Hr in Hcount. lia.
Defined.

(** Ten objects from the fresh pool. *)
Lemma AllocList_fresh_objects_witness :
  let st' := state_of (MCentral_AllocList scenario_PageShift scenario_size
                         scenario_npages 10 fresh_pool) fresh_pool in
  Inv scenario_PageShift scenario_size scenario_npages fresh_pool ∧
  ∃ popped,
    chain (mem st') 8192 popped ∧ 10 = Z.of_nat (length popped) ∧
    NoDup popped ∧
    (∀ x, x ∈ popped →
       ¬ live scenario_PageShift scenario_size scenario_npages fresh_pool x) ∧
    (∀ x, x ∈ popped → lookup_span scenario_PageShift st' x = 1).
Proof.
  intros st'.
  split; [exact fresh_pool_Inv|].
  destruct (AllocList_fresh_objects _ _ _ 10 fresh_pool 10 8192 st'
              fresh_pool_Inv pool_after_ten_run)
    as (popped & Hch & Hlen & Hnd & Hfresh & Hslots & _).
  exists popped. split_and!; try done.
  intros x Hx. destruct (Hslots x Hx) as (s & sp & Hs & _ & _ & _ & ->).
  vm_compute in Hs. by apply list_elem_of_singleton in Hs.
Defined.

(** Every batch allocation from the pool that has handed out ten objects
    returns. *)
Lemma batch_operations_return_witness :
  let st := state_of (MCentral_AllocList scenario_PageShift scenario_size
                        scenario_npages 10 fresh_pool) fresh_pool in
  reachable scenario_PageShift scenario_size scenario_npages st ∧
  ∀ n, ∃ i first st',
    MCentral_AllocList scenario_PageShift scenario_size scenario_npages n st
      = Ok (i, first) st' ∧
    reachable scenario_PageShift scenario_size scenario_npages st' ∧
    (i = 0 ↔
     out_of_memory scenario_PageShift scenario_size scenario_npages st).
Proof.
  intros st.
  destruct pool_after_ten_Inv as (_ & _ & _ & Hreach). fold st in Hreach.
  split; [done|].
  exact (proj1 (batch_operations_return _ _ _ st Hreach)).
Defined.

(** The fresh pool after a batch allocation of three objects and of one
    object. *)
Lemma pool_after_three_run :
  MCentral_AllocList scenario_PageShift scenario_size scenario_npages
    3 fresh_pool =
  Ok (3, 8192)
     (state_of (MCentral_AllocList scenario_PageShift scenario_size
                  scenario_npages 3 fresh_pool) fresh_pool).
Proof. vm_compute. reflexivity. Qed.

Lemma pool_after_three_span :
  let st := state_of (MCentral_AllocList scenario_PageShift scenario_size
                        scenario_npages 3 fresh_pool) fresh_pool in
  lookup_span scenario_PageShift st 8192 = 1 ∧
  allspans (mheap st) !! 1 = Some (mkMSpan 1 1 8240 3%N 16384 0) ∧
  nonempty (central st) = [1].
Proof. vm_compute. done. Qed.

Lemma pool_after_one_run :
  MCentral_AllocList scenario_PageShift scenario_size scenario_npages
    1 fresh_pool =
  Ok (1, 8192)
     (state_of (MCentral_AllocList scenario_PageShift scenario_size
                  scenario_npages 1 fresh_pool) fresh_pool).
Proof. vm_compute. reflexivity. Qed.

(** A chain of three allocated objects whose last link leads back to the
    first: the batch free gives the span back and then aborts. *)
Lemma FreeList_terminates_witness :
  let st := set_mem (insert 8224 8192)
              (state_of (MCentral_AllocList scenario_PageShift scenario_size
                           scenario_npages 3 fresh_pool) fresh_pool) in
  mem st !! 8192 = Some 8208 ∧ mem st !! 8208 = Some 8224 ∧
  mem st !! 8224 = Some 8192 ∧
  MCentral_FreeList scenario_PageShift scenario_size 3 8192 st ≠ OutOfFuel ∧
  ∃ st', MCentral_FreeList scenario_PageShift scenario_size 3 8192 st =
         Throw "invalid free" st'.
Proof.
  intros st.
  split; [vm_compute; reflexivity|]. split; [vm_compute; reflexivity|].
  split; [vm_compute; reflexivity|].
  split.
  - exact (proj1 (FreeList_terminates scenario_PageShift scenario_size
                    3 8192 st)).
  - eexists. vm_compute. reflexivity.
Defined.

(** An object of the span with three allocated objects is freed twice. *)
Lemma double_free_not_caught_witness :
  let st := state_of (MCentral_AllocList scenario_PageShift scenario_size
                        scenario_npages 3 fresh_pool) fresh_pool in
  ∃ st1 st2 sp2,
    MCentral_Free scenario_PageShift scenario_size 8192 st = Ok tt st1 ∧
    MCentral_Free scenario_PageShift scenario_size 8192 st1 = Ok tt st2 ∧
    allspans (mheap st2) !! lookup_span scenario_PageShift st 8192 = Some sp2 ∧
    freelist sp2 = 8192 ∧ mem st2 !! 8192 = Some 8192 ∧
    (∀ l, ¬ chain (mem st2) (freelist sp2) l) ∧
    ref sp2 = (3 - 2)%N ∧
    nfree (central st2) = nfree (central st) + 2.
Proof.
  intros st.
  destruct pool_after_three_span as (Hs & Hsp & _). fold st in Hs, Hsp.
  refine (double_free_not_caught scenario_PageShift scenario_size 8192 st
            (mkMSpan 1 1 8240 3%N 16384 0) _ _ _ _).
  - rewrite Hs. lia.
  - lia.
  - rewrite Hs. exact Hsp.
  - cbn [ref]. lia.
Defined.

(** The only allocated object of a span is freed, then its neighbour, which
    lies on the same page. *)
Lemma Free_after_release_witness :
  let st := state_of (MCentral_AllocList scenario_PageShift scenario_size
                        scenario_npages 1 fresh_pool) fresh_pool in
  let st' := state_of (MCentral_Free scenario_PageShift scenario_size
                         8192 st) st in
  weak_inv st ∧
  MCentral_Free scenario_PageShift scenario_size 8192 st = Ok tt st' ∧
  lookup_span scenario_PageShift st 8208 = lookup_span scenario_PageShift st 8192 ∧
  lookup_span scenario_PageShift st' 8208 = 0 ∧
  MCentral_Free scenario_PageShift scenario_size 8208 st' =
    Throw "invalid free" st'.
Proof.
  intros st st'.
  assert (weak_inv st) as Hw.
  { exact (proj1 (weak_inv_AllocList _ _ _ _ _ _ _ fresh_pool_weak_inv
                    (scenario_geometry _) pool_after_one_run)). }
  assert (MCentral_Free scenario_PageShift scenario_size 8192 st = Ok tt st')
    as Hrun by (vm_compute; reflexivity).
  assert (lookup_span scenario_PageShift st 8208 =
          lookup_span scenario_PageShift st 8192) as Hx
    by (vm_compute; reflexivity).
  split; [exact Hw|]. split; [exact Hrun|]. split; [exact Hx|].
  refine (Free_after_release scenario_PageShift scenario_size scenario_npages
            8192 8208 st st'
            (mkMSpan 1 1 8208 1%N 16384 0) Hw _ _ Hrun Hx).
  - vm_compute. reflexivity.
  - reflexivity.
Defined.

(** An object is freed into the span with three allocated objects and
    allocated again. *)
Lemma Free_then_Alloc_witness :
  let st := state_of (MCentral_AllocList scenario_PageShift scenario_size
                        scenario_npages 3 fresh_pool) fresh_pool in
  ∃ st1 st2,
    MCentral_Free scenario_PageShift scenario_size 8192 st = Ok tt st1 ∧
    MCentral_Alloc st1 = Ok 8192 st2 ∧
    mheap st2 = mheap st ∧
    mem st2 = <[8192 := 8240]> (mem st) ∧
    nfree (central st2) = nfree (central st) + 1.
Proof.
  intros st.
  destruct pool_after_three_span as (Hs & Hsp & Hne). fold st in Hs, Hsp, Hne.
  destruct (Free_then_Alloc scenario_PageShift scenario_size scenario_npages
              8192 st
              (mkMSpan 1 1 8240 3%N 16384 0))
    as (st1 & st2 & H1 & H2 & H3 & H4 & H5 & _).
  - rewrite Hs. lia.
  - lia.
  - rewrite Hs. exact Hsp.
  - cbn [ref]. lia.
  - right. exists []. rewrite Hs. exact Hne.
  - exists st1, st2. split; [exact H1|]. split; [exact H2|].
    split; [exact H3|]. split; [exact H4|exact H5].
Defined.

(** Ten objects and then five from the fresh pool, against fifteen at
    once. *)
Lemma AllocList_twice_witness :
  let st1 := state_of (MCentral_AllocList scenario_PageShift scenario_size
                         scenario_npages 10 fresh_pool) fresh_pool in
  let st2 := state_of (MCentral_AllocList scenario_PageShift scenario_size
                         scenario_npages 5 st1) st1 in
  ∃ popped1 popped2 st3,
    chain (mem st1) 8192 popped1 ∧ 10 = Z.of_nat (length popped1) ∧
    chain (mem st2) 8352 popped2 ∧ 5 = Z.of_nat (length popped2) ∧
    10 = Z.max 10 1 ∧
    MCentral_AllocList scenario_PageShift scenario_size scenario_npages
      (Z.max 10 1 + Z.max 5 1) fresh_pool = Ok (10 + 5, 8192) st3 ∧
    chain (mem st3) 8192 (popped1 ++ popped2).
Proof.
  intros st1 st2.
  refine (AllocList_twice scenario_PageShift scenario_size scenario_npages
            10 5 fresh_pool 10 8192 st1 5 8352 st2 fresh_pool_Inv
            pool_after_ten_run _ _).
  - vm_compute. discriminate.
  - vm_compute. reflexivity.
Defined.

(** Five more objects are taken from the pool that has handed out ten: the
    ten keep their contents. *)
Lemma AllocList_leaves_allocated_memory_witness :
  let st := state_of (MCentral_AllocList scenario_PageShift scenario_size
                        scenario_npages 10 fresh_pool) fresh_pool in
  let st' := state_of (MCentral_AllocList scenario_PageShift scenario_size
                         scenario_npages 5 st) st in
  Inv scenario_PageShift scenario_size scenario_npages st ∧
  MCentral_AllocList scenario_PageShift scenario_size scenario_npages 5 st
    = Ok (5, 8352) st' ∧
  ∀ x, live scenario_PageShift scenario_size scenario_npages st x →
       mem st' !! x = mem st !! x.
Proof.
  intros st st'.
  destruct pool_after_ten_Inv as (HInv & _). fold st in HInv.
  assert (MCentral_AllocList scenario_PageShift scenario_size scenario_npages
            5 st = Ok (5, 8352) st') as Hrun by (vm_compute; reflexivity).
  split; [exact HInv|]. split; [exact Hrun|].
  exact (proj2 (AllocList_leaves_allocated_memory _ _ _ 5 st 5 8352 st'
                  HInv Hrun)).
Defined.

(** The ten objects handed out by the pool are given back. *)
Lemma FreeList_leaves_allocated_memory_witness :
  let st := state_of (MCentral_AllocList scenario_PageShift scenario_size
                        scenario_npages 10 fresh_pool) fresh_pool in
  let st' := state_of (MCentral_FreeList scenario_PageShift scenario_size
                         10 8192 st) st in
  ∃ l,
    chain (mem st) 8192 l ∧
    (∀ x, x ∈ l → live scenario_PageShift scenario_size scenario_npages st x) ∧
    MCentral_FreeList scenario_PageShift scenario_size 10 8192 st = Ok tt st' ∧
    (∀ x, live scenario_PageShift scenario_size scenario_npages st' x ↔
          live scenario_PageShift scenario_size scenario_npages st x ∧ x ∉ l) ∧
    (∀ x, live scenario_PageShift scenario_size scenario_npages st' x →
          mem st' !! x = mem st !! x).
Proof.
  intros st st'.
  destruct pool_after_ten_Inv as (HInv & _). fold st in HInv.
  destruct (MCentral_AllocList_Inv _ _ _ _ _ _ _ _ fresh_pool_Inv
              pool_after_ten_run) as (l & _ & Hch & Hpost).
  fold st in Hch, Hpost.
  assert (∀ x, x ∈ l →
               live scenario_PageShift scenario_size scenario_npages st x)
    as Hlive.
  { intros x Hx. apply (alp_live _ _ _ _ _ _ Hpost). by right. }
  assert (MCentral_FreeList scenario_PageShift scenario_size 10 8192 st =
          Ok tt st') as Hrun by (vm_compute; reflexivity).
  exists l. split; [exact Hch|]. split; [exact Hlive|]. split; [exact Hrun|].
  exact (FreeList_leaves_allocated_memory _ _ _ 10 8192 l st st'
           HInv Hch Hlive Hrun).
Defined.

(** The pool that has handed out ten objects. *)
Lemma settled_preserved_witness :
  let st := state_of (MCentral_AllocList scenario_PageShift scenario_size
                        scenario_npages 10 fresh_pool) fresh_pool in
  Inv scenario_PageShift scenario_size scenario_npages st ∧ settled st ∧
  ∀ n r st',
    MCentral_AllocList scenario_PageShift scenario_size scenario_npages n st
      = Ok r st' →
    Inv scenario_PageShift scenario_size scenario_npages st' ∧ settled st'.
Proof.
  intros st.
  destruct pool_after_ten_Inv as (HInv & Hset & _). fold st in HInv, Hset.
  split; [exact HInv|]. split; [exact Hset|].
  exact (proj1 (settled_preserved _ _ _ st HInv Hset)).
Defined.

(** Ten objects from the fresh pool, whose lock is free. *)
Lemma lock_discipline_witness :
  let st' := state_of (MCentral_AllocList scenario_PageShift scenario_size
                         scenario_npages 10 fresh_pool) fresh_pool in
  lock_held (trace fresh_pool) = Some false ∧
  lock_held (trace st') = Some false ∧
  length (trace st') = 6%nat.
Proof.
  intros st'.
  split; [reflexivity|]. split.
  - exact (proj1 (proj1 (lock_discipline scenario_PageShift scenario_size
                           scenario_npages fresh_pool) eq_refl)
             10 _ st' pool_after_ten_run).
  - vm_compute. reflexivity.
Defined.
